(** * hrtfdata: grid selection, position reconciliation, signal
      materialisation and anthropometry lookup of [hrtfdata/datapoint.py]

    The development embeds the array code of [SofaDataPoint] and
    [MatFileAnthropometryDataPoint] as functions over lists.  Angles and
    radii are rationals; a Python exception is a value of [exn] carried by
    the [result] monad; a numpy array of known rank is a nested list and an
    array whose rank is decided at run time (the output of [np.squeeze]) is
    a shape together with its row-major buffer.  The methods that read
    the frequencies, the angle indices and the positions, and the file name
    patterns of the dataset classes, follow with exceptions of their own;
    the frequencies are computed over an interface of the float
    operations, of which float64 is an instance. *)

From Stdlib Require Import String Ascii.
From Stdlib Require Import List Bool Arith ZArith QArith Qabs Qround Sorted Lia Lqa.
From Stdlib Require Import Reals Lra.
From Stdlib Require DecimalString DecimalN.
From Stdlib Require PrimFloat.
Import ListNotations.

Local Open Scope nat_scope.

(** ** Exceptions *)

(** The [ValueError]s the module raises, told apart by their message;
    those marked numpy or scipy are raised by the library on behalf of the
    module. *)
Inductive value_error : Type :=
| NoAnglesAvailable        (* 'None of the specified angles are available in this dataset' *)
| ComplexNeedsComplexDtype (* 'An HRTF in the complex domain requires the dtype ...' *)
| UnknownSideSelector      (* 'Unknown side selector ...' *)
| UnknownSelection         (* 'Unknown selection ...' *)
| NoMeasurements           (* 'Subject id ... has no anthropomorphic measurements' *)
| NoDataAvailable          (* 'Subject id ... has no data available for selection ...' *)
| CannotBroadcast          (* numpy: operands could not be broadcast together *)
| InputTooFewDims          (* numpy: Input must be >= n-d *)
| NothingToConcatenate     (* numpy: need at least one array to concatenate *)
| AmbiguousTruthValue      (* numpy: truth value of an array is ambiguous *)
| DimensionMismatch        (* numpy: concatenated arrays differ off the axis *)
| InvalidNumberOfDataPoints (* scipy: invalid number of data points *)
| ErrorReadingFile.        (* 'Error reading file ...' *)

Inductive exn : Type :=
| ValueError (e : value_error)
| IndexError
| AttributeError.

Inductive result (A : Type) : Type :=
| Ok (a : A)
| Raise (e : exn).

Arguments Ok {A} a.
Arguments Raise {A} e.

Definition bind {A B : Type} (r : result A) (k : A -> result B) : result B :=
  match r with
  | Ok a => k a
  | Raise e => Raise e
  end.

Notation "x <- r ;; k" := (bind r (fun x => k))
  (at level 61, r at next level, right associativity).
Notation "' p <- r ;; k" := (bind r (fun x => match x with p => k end))
  (at level 61, p pattern, r at next level, right associativity).

(** ** numpy on lists *)

(** [abs(a - b) <= atol + rtol * abs(b)], the defaults of [np.isclose]. *)
Definition rtol : Q := 1 # 100000.
Definition atol : Q := 1 # 100000000.

Definition isclose (a b : Q) : bool :=
  Qle_bool (Qabs (a - b)) (atol + rtol * Qabs b).

(** [a[m]] for a boolean array [m], without the length check. *)
Fixpoint bool_filter {A : Type} (m : list bool) (a : list A) : list A :=
  match m, a with
  | b :: m', x :: a' => if b then x :: bool_filter m' a' else bool_filter m' a'
  | _, _ => []
  end.

(** [m.nonzero()[0]]. *)
Definition nonzero (m : list bool) : list nat :=
  bool_filter m (seq 0 (length m)).

(** [any(m)] and [m.all()]. *)
Definition any (m : list bool) : bool := existsb (fun b => b) m.
Definition all (m : list bool) : bool := forallb (fun b => b) m.

Fixpoint map2 {A B C : Type} (f : A -> B -> C) (l : list A) (l' : list B) : list C :=
  match l, l' with
  | x :: t, y :: t' => f x y :: map2 f t t'
  | _, _ => []
  end.

(** A three-dimensional boolean array, indexed (row, column, radius). *)
Definition mask3 : Type := list (list (list bool)).

Definition cell {A : Type} (m : list (list (list A))) (i j k : nat) : option A :=
  match nth_error m i with
  | Some row =>
      match nth_error row j with
      | Some radii => nth_error radii k
      | None => None
      end
  | None => None
  end.

(** ** Grid Selector: [SofaDataPoint._hrir_select_angles] *)

(** Lines 78-83 (rows) and 85-90 (columns): the candidate indices of one
    axis, as the boolean array the code builds. *)
Definition select_indices (angles : option (list Q)) (all_angles : list Q)
  : result (list bool) :=
  match angles with
  | None => Ok (repeat true (length all_angles))
  | Some requested =>
      let select := map (fun angle => existsb (isclose angle) requested) all_angles in
      if negb (any select)
      then Raise (ValueError NoAnglesAvailable)
      else Ok select
  end.

(** [position_mask[select_row_indices][:, select_column_indices]]: numpy
    refuses a boolean index whose length differs from the axis. *)
Definition select_mask (select_row select_column : list bool) (position_mask : mask3)
  : result mask3 :=
  if negb (length select_row =? length position_mask) then Raise IndexError
  else if negb (forallb (fun row => length select_column =? length row) position_mask)
  then Raise IndexError
  else Ok (map (bool_filter select_column) (bool_filter select_row position_mask)).

(** [m.all(axis=(1,2))]: one boolean per row. *)
Definition all_axis12 (m : mask3) : list bool :=
  map (fun row => all (map all row)) m.

(** [m.all(axis=(0,2))]: one boolean per column; [ncols] is [m.shape[1]]. *)
Definition all_axis02 (ncols : nat) (m : mask3) : list bool :=
  fold_right (map2 andb) (repeat true ncols) (map (map all) m).

Definition hrir_select_angles (row_angles column_angles : option (list Q))
  (all_row_angles all_column_angles : list Q) (position_mask : mask3)
  : result (list nat * list nat) :=
  select_row_indices <- select_indices row_angles all_row_angles ;;
  select_column_indices <- select_indices column_angles all_column_angles ;;
  selected_position_mask <-
    select_mask select_row_indices select_column_indices position_mask ;;
  let keep_row_indices := map negb (all_axis12 selected_position_mask) in
  let keep_column_indices :=
    map negb (all_axis02 (length (nonzero select_column_indices)) selected_position_mask) in
  let row_indices := bool_filter keep_row_indices (nonzero select_row_indices) in
  let column_indices := bool_filter keep_column_indices (nonzero select_column_indices) in
  Ok (row_indices, column_indices).

(** An [R] x [C] x [K] array. *)
Definition mask_shape {A : Type} (R C K : nat) (m : list (list (list A))) : Prop :=
  length m = R /\
  Forall (fun row => length row = C /\ Forall (fun radii => length radii = K) row) m.

(** ** Position Reconciler: [SofaDataPoint._map_sofa_position_order_to_matrix] *)

(** Modelled from the spec: [wrap_closed_open_interval] of
    [hrtfdata/util.py], which is imported by the module but is not among
    the sources; the spec has it map "any real x into [lo, hi) by modular
    arithmetic". *)
Definition wrap_closed_open_interval (x lo hi : Q) : Q :=
  let width := (hi - lo)%Q in
  ((x - lo) - width * inject_Z (Qfloor ((x - lo) / width)) + lo)%Q.

(** [np.unique]: the sorted values, one per class of equal numbers. *)
Fixpoint insert_unique (x : Q) (l : list Q) : list Q :=
  match l with
  | [] => [x]
  | y :: l' =>
      match (x ?= y)%Q with
      | Lt => x :: l
      | Eq => l
      | Gt => y :: insert_unique x l'
      end
  end.

Definition np_unique (l : list Q) : list Q := fold_right insert_unique [] l.

(** [m.argmax()] of a boolean array: the first index holding True, 0 when
    there is none. *)
Fixpoint first_true (m : list bool) : option nat :=
  match m with
  | [] => None
  | b :: m' => if b then Some 0 else option_map S (first_true m')
  end.

Definition argmax (m : list bool) : nat :=
  match first_true m with
  | Some i => i
  | None => 0
  end.

(** In-place update of one element; the indices used below are results of
    [argmax] over the axis and so are always in range. *)
Fixpoint update_nth {A : Type} (i : nat) (f : A -> A) (l : list A) : list A :=
  match l, i with
  | [], _ => []
  | x :: t, 0 => f x :: t
  | x :: t, S i' => x :: update_nth i' f t
  end.

Definition set_cell {A : Type} (m : list (list (list A))) (i j k : nat) (x : A)
  : list (list (list A)) :=
  update_nth i (update_nth j (update_nth k (fun _ => x))) m.

(** [np.full((R, C, K), b)]. *)
Definition np_full3 {A : Type} (R C K : nat) (b : A) : list (list (list A)) :=
  repeat (repeat (repeat b K) C) R.

(** [m[:, j]] of a three-dimensional array. *)
Definition column {A : Type} (j : nat) (m : list (list (list A))) : list (list A) :=
  map (fun row => nth j row []) m.

(** [m[:, j] = v]. *)
Definition assign_column {A : Type} (j : nat) (v : list (list A))
  (m : list (list (list A))) : list (list (list A)) :=
  map2 (fun row radii => update_nth j (fun _ => radii) row) m v.

(** [np.sum(~s, axis=0) == 1] for a slice [s] of shape (R, K). *)
Definition single_mask (K : nat) (s : list (list bool)) : list bool :=
  map (fun n => n =? 1)
      (fold_right (map2 Nat.add) (repeat 0 K)
                  (map (map (fun b : bool => if b then 0 else 1)) s)).

(** [(~s).argmax()]: numpy flattens the (R, K) slice in row-major order
    when no axis is given. *)
Definition flat_argmax_present (s : list (list bool)) : nat :=
  argmax (map negb (concat s)).

(** [np.where(single, False, s)], [single] broadcast along the rows. *)
Definition where_false (single : list bool) (s : list (list bool)) : list (list bool) :=
  map (fun radii => map2 (fun (c b : bool) => if c then false else b) single radii) s.

(** Line 130: [position_mask[position_map] = False]. *)
Definition mark_occupied (pmap : list (nat * nat * nat)) (m : mask3) : mask3 :=
  fold_left (fun m '(i, j, k) => set_cell m i j k false) pmap m.

Record grid : Type := {
  unique_row_angles : list Q;
  unique_column_angles : list Q;
  unique_radii : list Q;
  position_mask : mask3;
  (* column [idx] of the (3, N) index array *)
  position_map : list (nat * nat * nat);
  (* [None] is the scalar False of the branch without a pole *)
  single_start_mask : option (list bool);
  start_pole_idx : nat;
  single_end_mask : option (list bool);
  end_pole_idx : nat
}.

(** Lines 132-146 for one pole column. *)
Definition resolve_pole (K : nat) (column_angle pole : Q) (j : nat) (m : mask3)
  : mask3 * option (list bool) * nat :=
  if isclose column_angle pole then
    let single := single_mask K (column j m) in
    let pole_idx := flat_argmax_present (column j m) in
    (assign_column j (where_false single (column j m)) m, Some single, pole_idx)
  else (m, None, 0).

Definition index_of (x : Q) (unique : list Q) : nat :=
  argmax (map (Qeq_bool x) unique).

(** Lines 119-148.  [positions] is the array after the coordinate
    conversion of lines 106-114 and the decimal rounding of line 119,
    which are floating-point operations of [util] and numpy. *)
Definition map_sofa_position_order_to_matrix (positions : list (Q * Q * Q))
  : result grid :=
  let quantised_positions :=
    map (fun '(a, b, r) => (wrap_closed_open_interval a (-180) 180, b, r)) positions in
  let rows := np_unique (map (fun p => fst (fst p)) quantised_positions) in
  let columns := np_unique (map (fun p => snd (fst p)) quantised_positions) in
  let radii := np_unique (map snd quantised_positions) in
  let pmap :=
    map (fun '(row_angle, column_angle, radius) =>
           (index_of row_angle rows, index_of column_angle columns, index_of radius radii))
        quantised_positions in
  let mask0 :=
    mark_occupied pmap (np_full3 (length rows) (length columns) (length radii) true) in
  match rev columns with
  | [] => Raise IndexError
  | last_column :: _ =>
      let '(mask1, single_end, end_idx) :=
        resolve_pole (length radii) last_column 90 (length columns - 1) mask0 in
      let '(mask2, single_start, start_idx) :=
        resolve_pole (length radii) (hd 0%Q columns) (-90) 0 mask1 in
      Ok {| unique_row_angles := rows;
            unique_column_angles := columns;
            unique_radii := radii;
            position_mask := mask2;
            position_map := pmap;
            single_start_mask := single_start;
            start_pole_idx := start_idx;
            single_end_mask := single_end;
            end_pole_idx := end_idx |}
  end.

(** ** Signal Materializer: [SofaDataPoint.hrir] *)

(** The numeric primitives of numpy and scipy the materializer calls.
    They are floating-point operations; the materializer is modelled over
    any carrier that provides them. *)
Class SignalOps (T : Type) : Type := {
  np_empty : T;                   (* what [np.empty] leaves in a cell *)
  rfft : list T -> list T;        (* [scipy.fft.rfft] along the last axis *)
  rfft_length : forall x, length (rfft x) = length x / 2 + 1;
  np_abs : T -> T;
  np_angle : T -> T;
  astype : T -> T                 (* the cast to [self.dtype] *)
}.

Class DecibelOps (T : Type) : Type := {
  np_max : list T -> T;
  np_mul : T -> T -> T;
  np_clip_min : T -> T -> T;      (* [np.clip(x, lo, None)] *)
  (* [np.log10] of an element of a masked array: numpy.ma masks the
     elements outside the domain of the logarithm, x <= 0 *)
  np_log10 : T -> option T;
  resolution : T;                 (* [np.finfo(self.dtype).resolution] *)
  twenty : T
}.

Definition startswith (s prefix : string) : bool := String.prefix prefix s.

Definition endswith (s suffix : string) : bool :=
  let n := String.length s in
  let k := String.length suffix in
  (k <=? n) && String.eqb (String.substring (n - k) k s) suffix.

Inductive layout : Type := Spherical | Interaural.

(** [self]: the coordinate class of the data point and whether its dtype
    is a subclass of [np.complexfloating]. *)
Record datapoint : Type := {
  coordinates : layout;
  dtype_complex : bool
}.

(** The variables of the SOFA file the materializer reads:
    [SourcePosition] as [map_sofa_position_order_to_matrix] takes it,
    [Data.IR] of shape (M, 2, N) and the dimension N. *)
Record sofa_file (T : Type) : Type := {
  SourcePosition : list (Q * Q * Q);
  Data_IR : list (list (list T));
  dim_N : nat
}.

Arguments SourcePosition {T} _.
Arguments Data_IR {T} _.
Arguments dim_N {T} _.

(** An array whose rank is only known at run time. *)
Record ndarray (A : Type) : Type := {
  shape : list nat;
  data : list A
}.

Arguments shape {A} _.
Arguments data {A} _.

Definition array4 (A : Type) : Type := list (list (list (list A))).

Definition flatten4 {A : Type} (a : array4 A) : list A := concat (concat (concat a)).

Definition map4 {A B : Type} (f : A -> B) (a : array4 A) : array4 B :=
  map (map (map (map f))) a.

Fixpoint mapM {A B : Type} (f : A -> result B) (l : list A) : result (list B) :=
  match l with
  | [] => Ok []
  | x :: t => y <- f x ;; ys <- mapM f t ;; Ok (y :: ys)
  end.

(** Line 199: [Data.IR[:, 0 if side.endswith('left') else 1, :]]; any
    exception of the read is turned into the 'Error reading file' error. *)
Definition read_hrirs {T : Type} (file : sofa_file T) (side : string)
  : result (list (list T)) :=
  let receiver := if endswith side "left" then 0 else 1 in
  mapM (fun measurement =>
          match nth_error measurement receiver with
          | Some ir => Ok ir
          | None => Raise (ValueError ErrorReadingFile)
          end)
       (Data_IR file).

(** Line 206: [hrir_matrix[position_map] = hrirs]; the assignments are made
    in index order, and a value array of one row is broadcast. *)
Definition scatter {T : Type} (m : array4 T) (pmap : list (nat * nat * nat))
  (hrirs : list (list T)) : result (array4 T) :=
  if length hrirs =? length pmap then
    Ok (fold_left (fun m '((i, j, k), ir) => set_cell m i j k ir) (combine pmap hrirs) m)
  else if length hrirs =? 1 then
    Ok (fold_left (fun m '(i, j, k) => set_cell m i j k (hd [] hrirs)) pmap m)
  else Raise (ValueError CannotBroadcast).

(** [np.where(cond, x, y)] along the last axis. *)
Definition where_last {T : Type} (cond : list bool) (x y : list T) : list T :=
  map2 (fun (c : bool) (p : T * T) => if c then fst p else snd p) cond (combine x y).

(** [np.where(single, source, target)] with [single] of shape (K,),
    [source] of shape (K, L) and [target] of shape (R, K, L).  numpy aligns
    the shapes from the right, so [single] runs along the axis of length
    [L]: the operands broadcast only when K = 1 or K = L, and the result
    can be assigned back to the (R, K, L) slice only then. *)
Definition where_pole {T : Type} (single : option (list bool)) (L : nat)
  (source : list (list T)) (target : list (list (list T)))
  : result (list (list (list T))) :=
  match single with
  | None => Ok target
  | Some cond =>
      if length cond =? 1 then
        Ok (map (map2 (where_last (repeat (hd false cond) L)) source) target)
      else if length cond =? L then
        Ok (map (map2 (where_last cond) source) target)
      else Raise (ValueError CannotBroadcast)
  end.

(** Lines 207 and 208:
    [m[:, j] = np.where(single, m[pole_idx, j], m[:, j])]. *)
Definition replicate_pole {T : Type} (single : option (list bool)) (pole_idx j L : nat)
  (m : array4 T) : result (array4 T) :=
  match nth_error m pole_idx with
  | None => Raise IndexError
  | Some row =>
      slice <- where_pole single L (nth j row []) (column j m) ;;
      Ok (assign_column j slice m)
  end.

(** An index argument: [None] becomes [slice(None)], a list of indices is
    checked against the length of the axis. *)
Definition resolve_indices (n : nat) (indices : option (list nat)) : result (list nat) :=
  match indices with
  | None => Ok (seq 0 n)
  | Some l => if forallb (fun i => i <? n) l then Ok l else Raise IndexError
  end.

Definition take {A : Type} (d : A) (indices : list nat) (a : list A) : list A :=
  map (fun i => nth i a d) indices.

(** [m[row_indices][:, column_indices]]. *)
Definition select {A : Type} (row_indices column_indices : list nat)
  (m : list (list (list A))) : list (list (list A)) :=
  map (take [] column_indices) (take [] row_indices m).

(** [np.ma.masked_where(tiled_mask, a)]: a masked element is [None]. *)
Definition masked_where {T : Type} (mask : mask3) (a : array4 T) : array4 (option T) :=
  map2 (map2 (map2 (fun (b : bool) ir => map (fun x => if b then None else Some x) ir)))
       mask a.

Definition unmasked {A : Type} (l : list (option A)) : list A :=
  flat_map (fun o => match o with Some x => [x] | None => [] end) l.

(** One element of lines 228 and 229: a masked element stays masked, and
    an element whose clipped magnitude is outside the domain of the
    logarithm becomes masked. *)
Definition decibel {T : Type} `{DecibelOps T} (min_magnitude : T) (magnitude : option T)
  : option T :=
  match magnitude with
  | Some x => option_map (np_mul twenty) (np_log10 (np_clip_min x min_magnitude))
  | None => None
  end.

(** Lines 228 and 229. *)
Definition magnitude_db {T : Type} `{DecibelOps T} (magnitudes : array4 (option T))
  : array4 (option T) :=
  let min_magnitude := np_mul (np_max (unmasked (flatten4 magnitudes))) resolution in
  map4 (decibel min_magnitude) magnitudes.

(** What the floor of the decibels rests on: an order on the samples and
    a cast under which the primitives behave as the floating-point ones do
    on numbers.  The clip returns at least its bound when the two are
    comparable (NaN is not), the logarithm is monotone and its domain
    closed upwards, and the multiplication by twenty and the cast are
    monotone. *)
Definition monotone_decibels {T : Type} `{DecibelOps T}
  (le : T -> T -> Prop) (cast : T -> T) : Prop :=
  (forall x lo, le lo x \/ le x lo -> le lo (np_clip_min x lo)) /\
  (forall a b y, le a b -> np_log10 a = Some y ->
                 exists y', np_log10 b = Some y' /\ le y y') /\
  (forall a b, le a b -> le (np_mul twenty a) (np_mul twenty b)) /\
  (forall a b, le a b -> le (cast a) (cast b)).

(** What the variable [hrir] holds after lines 218-235: an array with the
    length of its last axis, or the [ValueError] instance line 235 stores
    in it. *)
Inductive hrir_value (T : Type) : Type :=
| MaskedArray (last_axis : nat) (a : array4 (option T))
| ValueErrorInstance.

Arguments MaskedArray {T} _ _.
Arguments ValueErrorInstance {T}.

(** Lines 218-235. *)
Definition transform {T : Type} `{SignalOps T} `{DecibelOps T} (domain : string) (L : nat)
  (selected_position_mask : mask3) (selected_hrir_matrix : array4 T)
  : result (hrir_value T) :=
  if String.eqb domain "time" then
    Ok (MaskedArray L (masked_where selected_position_mask selected_hrir_matrix))
  else if L =? 0 then Raise (ValueError InvalidNumberOfDataPoints)
  else
    let selected_hrtf_matrix :=
      masked_where selected_position_mask (map (map (map rfft)) selected_hrir_matrix) in
    if String.eqb domain "complex" then
      Ok (MaskedArray (L / 2 + 1) selected_hrtf_matrix)
    else if startswith domain "magnitude" then
      let magnitudes := map4 (option_map np_abs) selected_hrtf_matrix in
      if endswith domain "_db" then Ok (MaskedArray (L / 2 + 1) (magnitude_db magnitudes))
      else Ok (MaskedArray (L / 2 + 1) magnitudes)
    else if String.eqb domain "phase" then
      Ok (MaskedArray (L / 2 + 1) (map4 (option_map np_angle) selected_hrtf_matrix))
    else Ok ValueErrorInstance.

(** [np.squeeze]: every axis of length one is removed. *)
Definition squeeze {A : Type} (a : ndarray A) : ndarray A :=
  {| shape := filter (fun n => negb (n =? 1)) (shape a); data := data a |}.

(** [n] consecutive blocks of [size] elements of a row-major buffer. *)
Fixpoint chunks {A : Type} (size n : nat) (l : list A) : list (list A) :=
  match n with
  | 0 => []
  | S n' => firstn size l :: chunks size n' (skipn size l)
  end.

Definition prod (dims : list nat) : nat := fold_right Nat.mul 1 dims.

(** [a[from:]] and [a[from:to]] along the first axis. *)
Definition slice0 {A : Type} (from : nat) (to : option nat) (a : ndarray A)
  : result (ndarray A) :=
  match shape a with
  | [] => Raise IndexError
  | n :: rest =>
      let blocks := chunks (prod rest) n (data a) in
      let kept := skipn from (match to with Some t => firstn t blocks | None => blocks end) in
      Ok {| shape := length kept :: rest; data := concat kept |}
  end.

Definition flipud {A : Type} (a : ndarray A) : result (ndarray A) :=
  match shape a with
  | [] => Raise (ValueError InputTooFewDims)
  | n :: rest =>
      Ok {| shape := shape a; data := concat (rev (chunks (prod rest) n (data a))) |}
  end.

Definition fliplr {A : Type} (a : ndarray A) : result (ndarray A) :=
  match shape a with
  | n :: m :: rest =>
      Ok {| shape := shape a;
            data := concat (map (fun block => concat (rev (chunks (prod rest) m block)))
                                (chunks (m * prod rest) n (data a))) |}
  | _ => Raise (ValueError InputTooFewDims)
  end.

Definition atleast_2d {A : Type} (a : ndarray A) : ndarray A :=
  match shape a with
  | [] => {| shape := [1; 1]; data := data a |}
  | [n] => {| shape := [1; n]; data := data a |}
  | _ => a
  end.

Fixpoint shape_eqb (s s' : list nat) : bool :=
  match s, s' with
  | [], [] => true
  | n :: t, n' :: t' => (n =? n') && shape_eqb t t'
  | _, _ => false
  end.

(** [np.ma.row_stack((a, b))]: both made at least two-dimensional, then
    concatenated along the first axis. *)
Definition row_stack {A : Type} (a b : ndarray A) : result (ndarray A) :=
  match shape (atleast_2d a), shape (atleast_2d b) with
  | n :: rest, n' :: rest' =>
      if shape_eqb rest rest'
      then Ok {| shape := (n + n') :: rest; data := data a ++ data b |}
      else Raise (ValueError DimensionMismatch)
  | _, _ => Raise (ValueError DimensionMismatch)
  end.

(** Lines 239-250. *)
Definition mirror {A : Type} (self : datapoint) (selected_azimuths : list Q)
  (hrir : ndarray A) : result (ndarray A) :=
  match coordinates self with
  | Spherical =>
      match selected_azimuths with
      | [] => Raise IndexError
      | first :: _ =>
          if isclose first (-180) then
            head <- slice0 0 (Some 1) hrir ;;
            tail <- slice0 1 None hrir ;;
            flipped <- flipud tail ;;
            row_stack head flipped
          else flipud hrir
      end
  | Interaural => fliplr hrir
  end.

(** Lines 204-238: the array before mirroring. *)
Definition hrir_squeezed {T : Type} `{SignalOps T} `{DecibelOps T}
  (self : datapoint) (file : sofa_file T) (side domain : string)
  (row_indices column_indices : option (list nat))
  : result (grid * list nat * ndarray (option T)) :=
  hrirs <- read_hrirs file side ;;
  g <- map_sofa_position_order_to_matrix (SourcePosition file) ;;
  let R := length (unique_row_angles g) in
  let C := length (unique_column_angles g) in
  let K := length (unique_radii g) in
  let L := dim_N file in
  hrir_matrix <- scatter (np_full3 R C K (repeat np_empty L)) (position_map g) hrirs ;;
  hrir_matrix <-
    replicate_pole (single_start_mask g) (start_pole_idx g) 0 L hrir_matrix ;;
  hrir_matrix <-
    replicate_pole (single_end_mask g) (end_pole_idx g) (C - 1) L hrir_matrix ;;
  rows <- resolve_indices R row_indices ;;
  columns <- resolve_indices C column_indices ;;
  let selected_position_mask := select rows columns (position_mask g) in
  let selected_hrir_matrix := select rows columns hrir_matrix in
  value <- transform domain L selected_position_mask selected_hrir_matrix ;;
  if String.eqb domain "complex" && negb (dtype_complex self)
  then Raise (ValueError ComplexNeedsComplexDtype)
  else
    match value with
    | ValueErrorInstance => Raise AttributeError
    | MaskedArray last_axis a =>
        Ok (g, rows,
            squeeze {| shape := [length rows; length columns; K; last_axis];
                       data := map (option_map astype) (flatten4 a) |})
    end.

Definition hrir {T : Type} `{SignalOps T} `{DecibelOps T}
  (self : datapoint) (file : sofa_file T) (side domain : string)
  (row_indices column_indices : option (list nat))
  : result (ndarray (option T)) :=
  '(g, rows, hrir) <- hrir_squeezed self file side domain row_indices column_indices ;;
  if startswith side "mirrored"
  then mirror self (take 0%Q rows (unique_row_angles g)) hrir
  else Ok hrir.

(** ** Symbolic samples

    To run the materializer on a concrete file the numeric primitives are
    left uninterpreted: a sample is a term recording which primitives were
    applied to which stored values. *)
#[warnings="-register-all"]
Inductive sym : Type :=
| Sample (z : Z)                 (* a value stored in [Data.IR] *)
| Uninitialised                  (* left by [np.empty] *)
| Bin (k : nat) (ir : list sym)  (* bin [k] of the transform of [ir] *)
| Abs (x : sym)
| Angle (x : sym)
| Cast (x : sym)
| Max (l : list sym)
| Mul (x y : sym)
| Clip (x lo : sym)
| Log10 (x : sym)
| Resolution
| Twenty.

Definition sym_rfft (ir : list sym) : list sym :=
  map (fun k => Bin k ir) (seq 0 (length ir / 2 + 1)).

#[export] Instance sym_signal : SignalOps sym := {|
  np_empty := Uninitialised;
  rfft := sym_rfft;
  rfft_length := fun ir =>
    eq_trans (length_map (fun k => Bin k ir) (seq 0 (length ir / 2 + 1)))
             (length_seq (length ir / 2 + 1) 0);
  np_abs := Abs;
  np_angle := Angle;
  astype := Cast
|}.

(** A term [Log10 x] records that the logarithm was taken: whether numpy.ma
    masks the element depends on the value [x] stands for, which a term
    does not have, and no run on symbolic samples goes through the decibel
    domain. *)
#[export] Instance sym_decibel : DecibelOps sym := {|
  np_max := Max;
  np_mul := Mul;
  np_clip_min := Clip;
  np_log10 := fun x => Some (Log10 x);
  resolution := Resolution;
  twenty := Twenty
|}.

(** ** Decibels over the reals

    Magnitudes as real numbers extended with the infinities and NaN of
    the floating-point formats, in exact arithmetic: one arithmetic in
    which the order laws of [monotone_decibels] hold, used to run the
    decibel domain on concrete magnitudes. *)
Inductive xreal : Type :=
| Finite (r : R)
| NegInf
| PosInf
| XNaN.

Definition xmax (a b : xreal) : xreal :=
  match a, b with
  | XNaN, _ | _, XNaN => XNaN
  | PosInf, _ | _, PosInf => PosInf
  | NegInf, y => y
  | x, NegInf => x
  | Finite x, Finite y => Finite (Rmax x y)
  end.

Definition xmul_inf (negative : bool) (r : R) : xreal :=
  if Rlt_dec 0 r then (if negative then NegInf else PosInf)
  else if Rlt_dec r 0 then (if negative then PosInf else NegInf)
  else XNaN.

Definition xmul (a b : xreal) : xreal :=
  match a, b with
  | XNaN, _ | _, XNaN => XNaN
  | Finite x, Finite y => Finite (x * y)
  | Finite x, NegInf | NegInf, Finite x => xmul_inf true x
  | Finite x, PosInf | PosInf, Finite x => xmul_inf false x
  | NegInf, NegInf | PosInf, PosInf => PosInf
  | NegInf, PosInf | PosInf, NegInf => NegInf
  end.

Definition log10 (x : R) : R := (ln x / ln 10)%R.

(** The logarithm of an element of a masked array: [x <= 0] is masked;
    NaN fails that test and stays, as NaN. *)
Definition xlog10 (a : xreal) : option xreal :=
  match a with
  | Finite x => if Rlt_dec 0 x then Some (Finite (log10 x)) else None
  | PosInf => Some PosInf
  | NegInf => None
  | XNaN => Some XNaN
  end.

(** The order of the extended reals; NaN is not comparable. *)
Definition xle (a b : xreal) : Prop :=
  match a, b with
  | XNaN, _ | _, XNaN => False
  | NegInf, _ => True
  | _, PosInf => True
  | Finite x, Finite y => (x <= y)%R
  | _, _ => False
  end.

(** The decibel primitives for a dtype of resolution [res].  The maximum
    of no value only arises for an array that is masked everywhere, whose
    result is masked everywhere whatever the floor is. *)
Definition real_decibel (res : R) : DecibelOps xreal := {|
  np_max := fold_right xmax NegInf;
  np_mul := xmul;
  np_clip_min := xmax;
  np_log10 := xlog10;
  resolution := Finite res;
  twenty := Finite 20
|}.

(** ** Anthropometry: [MatFileAnthropometryDataPoint.anthropomorphic_data] *)

(** A floating-point measurement: a number or NaN. *)
Inductive measurement : Type :=
| NaN
| Num (q : Q).

Definition isnan (x : measurement) : bool :=
  match x with
  | NaN => true
  | Num _ => false
  end.

(** One subject of the table [self.anth]: the entries of the arrays
    ['id'], ['X'], ['D'], ['theta'], ['WeightKilograms'], ['age'] and
    ['sex'] at one index. *)
Record subject : Type := {
  id : Z;
  X : list measurement;
  D : list measurement;
  theta : list measurement;
  WeightKilograms : measurement;
  age : measurement;
  sex : string
}.

(** The [select] argument: omitted, one string, or a tuple of strings. *)
Inductive selection : Type :=
| SelectDefault
| SelectOne (s : string)
| SelectMany (l : list string).

Definition select_all : list string :=
  ["head-torso"; "pinna-size"; "pinna-angle"; "weight"; "age"; "sex"]%string.

Definition mem (s : string) (l : list string) : bool := existsb (String.eqb s) l.

Definition is_empty {A : Type} (l : list A) : bool :=
  match l with
  | [] => true
  | _ :: _ => false
  end.

(** [np.hstack]. *)
Definition hstack {A : Type} (arrays : list (list A)) : result (list A) :=
  if is_empty arrays then Raise (ValueError NothingToConcatenate)
  else Ok (concat arrays).

Definition when {A : Type} (b : bool) (l : list A) : list A := if b then l else [].

(** Lines 288-307, for the row of the subject: the arrays appended to
    [select_data], in order. *)
Definition select_data (row : subject) (side : string) (select : list string)
  : list (list measurement) :=
  let left := String.eqb side "left" || startswith side "both" in
  let right := String.eqb side "right" || startswith side "both" in
  when (mem "head-torso" select) [X row]
  ++ when (left && mem "pinna-size" select) [firstn 8 (D row)]
  ++ when (left && mem "pinna-angle" select) [firstn 2 (theta row)]
  ++ when (right && mem "pinna-size" select) [skipn 8 (D row)]
  ++ when (right && mem "pinna-angle" select) [skipn 2 (theta row)]
  ++ when (mem "weight" select) [[WeightKilograms row]]
  ++ when (mem "age" select) [[age row]]
  ++ when (mem "sex" select)
       [[if String.eqb (sex row) "M" then Num 0
         else if String.eqb (sex row) "F" then Num 1 else NaN]].

(** [a.astype(self.dtype)]: [cast] is the conversion of a number to
    [self.dtype], a floating-point type, which keeps NaN. *)
Definition astype_measurement (cast : Q -> Q) (x : measurement) : measurement :=
  match x with
  | NaN => NaN
  | Num q => Num (cast q)
  end.

(** Lines 309-312. *)
Definition collect (cast : Q -> Q) (row : subject) (side : string) (select : list string)
  : result (list measurement) :=
  stacked <- hstack (select_data row side select) ;;
  let selected_data := map (astype_measurement cast) stacked in
  if forallb isnan selected_data
  then Raise (ValueError NoDataAvailable)
  else Ok selected_data.

(** Lines 268-272: the names selected by the [select] argument. *)
Definition selected_names (select : selection) : list string :=
  match select with
  | SelectDefault => select_all
  | SelectOne s => [s]
  | SelectMany l => l
  end.

(** Line 284: [np.squeeze(np.argwhere(np.squeeze(self.anth['id']) ==
    subject_id))], the index array.  The id column of a table of one
    subject is squeezed to a 0-d array, its comparison with the id is a
    0-d boolean, and [np.argwhere] of a 0-d array has no column: the index
    array is empty whether the stored id is the requested one or not. *)
Definition subject_idx (anth : list subject) (subject_id : Z) : list nat :=
  match anth with
  | [_] => []
  | _ => nonzero (map (fun row => Z.eqb (id row) subject_id) anth)
  end.

(** Lines 267-312.  An index array of one element is squeezed to a 0-d
    array, which indexes like an integer.  An index array of two or more
    elements (an id stored more than once) selects as many rows from each
    two-dimensional array of the table: the test of line 307 and, after
    the concatenation, the test of line 310 are then made on an array of
    as many booleans, which has no truth value. *)
Definition anthropomorphic_data (cast : Q -> Q) (anth : list subject)
  (subject_id : Z) (side : option string) (select : selection)
  : result (list measurement) :=
  let select := selected_names select in
  match side with
  | None => Raise (ValueError UnknownSideSelector)
  | Some side =>
      if negb (mem side ["left"; "right"; "both"]%string)
      then Raise (ValueError UnknownSideSelector)
      else
        let unknown_select := filter (fun s => negb (mem s select_all)) select in
        if negb (is_empty unknown_select) then Raise (ValueError UnknownSelection)
        else
          match subject_idx anth subject_id with
          | [] => Raise (ValueError NoMeasurements)
          | [idx] =>
              match nth_error anth idx with
              | Some row => collect cast row side select
              | None => Raise IndexError
              end
          | idx :: _ :: _ =>
              match nth_error anth idx with
              | Some row =>
                  if mem "sex" select then Raise (ValueError AmbiguousTruthValue)
                  else
                    _ <- hstack (select_data row side select) ;;
                    Raise (ValueError AmbiguousTruthValue)
              | None => Raise IndexError
              end
          end
  end.

(** ** Example files *)

Definition spherical_float32 : datapoint :=
  {| coordinates := Spherical; dtype_complex := false |}.

Definition interaural_float32 : datapoint :=
  {| coordinates := Interaural; dtype_complex := false |}.

(** Azimuths {0, 90} x elevations {0, 45} at one radius, two samples per
    ear; each measurement is [[left; right]]. *)
Definition file_2x2 : sofa_file sym := {|
  SourcePosition := [(0, 0, 1); (0, 45, 1); (90, 0, 1); (90, 45, 1)]%Q;
  Data_IR := [[[Sample 1; Sample 2]; [Sample 11; Sample 12]];
              [[Sample 3; Sample 4]; [Sample 13; Sample 14]];
              [[Sample 5; Sample 6]; [Sample 15; Sample 16]];
              [[Sample 7; Sample 8]; [Sample 17; Sample 18]]];
  dim_N := 2
|}.

(** The same grid with impulse responses of a single sample. *)
Definition file_2x2_one_sample : sofa_file sym := {|
  SourcePosition := [(0, 0, 1); (0, 45, 1); (90, 0, 1); (90, 45, 1)]%Q;
  Data_IR := [[[Sample 1]; [Sample 11]];
              [[Sample 3]; [Sample 13]];
              [[Sample 5]; [Sample 15]];
              [[Sample 7]; [Sample 17]]];
  dim_N := 1
|}.

(** Azimuths 180, -90, 0 and 90 at elevation 0 and one radius. *)
Definition file_4x1 : sofa_file sym := {|
  SourcePosition := [(180, 0, 1); (-90, 0, 1); (0, 0, 1); (90, 0, 1)]%Q;
  Data_IR := [[[Sample 1; Sample 2]; [Sample 11; Sample 12]];
              [[Sample 3; Sample 4]; [Sample 13; Sample 14]];
              [[Sample 5; Sample 6]; [Sample 15; Sample 16]];
              [[Sample 7; Sample 8]; [Sample 17; Sample 18]]];
  dim_N := 2
|}.

(** Azimuths {0, 90}, elevations {0, 90}, one radius; the pole at
    elevation 90 is measured at azimuth 0 only. *)
Definition file_pole : sofa_file sym := {|
  SourcePosition := [(0, 0, 1); (0, 90, 1); (90, 0, 1)]%Q;
  Data_IR := [[[Sample 1; Sample 2; Sample 3]; [Sample 11; Sample 12; Sample 13]];
              [[Sample 4; Sample 5; Sample 6]; [Sample 14; Sample 15; Sample 16]];
              [[Sample 7; Sample 8; Sample 9]; [Sample 17; Sample 18; Sample 19]]];
  dim_N := 3
|}.

(** The pole measured at azimuth 90 only, and a further measurement at
    radius 2 in the horizontal plane. *)
Definition file_pole_at_90_two_radii : sofa_file sym := {|
  SourcePosition := [(0, 0, 1); (90, 90, 1); (90, 0, 1); (0, 0, 2)]%Q;
  Data_IR := [[[Sample 1; Sample 2; Sample 3]; [Sample 11; Sample 12; Sample 13]];
              [[Sample 4; Sample 5; Sample 6]; [Sample 14; Sample 15; Sample 16]];
              [[Sample 7; Sample 8; Sample 9]; [Sample 17; Sample 18; Sample 19]];
              [[Sample 20; Sample 21; Sample 22]; [Sample 30; Sample 31; Sample 32]]];
  dim_N := 3
|}.

(** The directions of [file_pole], with a further measurement at radius 2
    in the horizontal plane: the pole is still measured at azimuth 0
    only. *)
Definition file_pole_two_radii : sofa_file sym := {|
  SourcePosition := [(0, 0, 1); (0, 90, 1); (90, 0, 1); (0, 0, 2)]%Q;
  Data_IR := [[[Sample 1; Sample 2; Sample 3]; [Sample 11; Sample 12; Sample 13]];
              [[Sample 4; Sample 5; Sample 6]; [Sample 14; Sample 15; Sample 16]];
              [[Sample 7; Sample 8; Sample 9]; [Sample 17; Sample 18; Sample 19]];
              [[Sample 20; Sample 21; Sample 22]; [Sample 30; Sample 31; Sample 32]]];
  dim_N := 3
|}.

(** ** Predicates on grids *)

(** Some raw measurement is mapped to the cell. *)
Definition occupied (g : grid) (i j k : nat) : Prop :=
  In (i, j, k) (position_map g).

(** Whether the pole of radius index [k] is recorded as shared. *)
Definition shared (single : option (list bool)) (k : nat) : bool :=
  match single with
  | Some s => nth k s false
  | None => false
  end.

(** The cell lies in a pole column and the pole of its radius is shared. *)
Definition pole_marked (g : grid) (j k : nat) : Prop :=
  (j = length (unique_column_angles g) - 1 /\ shared (single_end_mask g) k = true) \/
  (j = 0 /\ shared (single_start_mask g) k = true).


(** [unique_column_angles[-1]]. *)
Definition last_column_angle (g : grid) : Q := hd 0%Q (rev (unique_column_angles g)).


(** Membership up to equality of numbers. *)
Definition Qmem (x : Q) (l : list Q) : Prop := exists y, In y l /\ (y == x)%Q.

(** The wrapped, rounded position of a raw measurement. *)
Definition quantised (p : Q * Q * Q) : Q * Q * Q :=
  let '(a, b, r) := p in (wrap_closed_open_interval a (-180) 180, b, r).

(** The grid cell whose three angles equal the rounded position. *)
Definition cell_matches (g : grid) (q : Q * Q * Q) (i j k : nat) : Prop :=
  exists x y z,
    nth_error (unique_row_angles g) i = Some x /\
    nth_error (unique_column_angles g) j = Some y /\
    nth_error (unique_radii g) k = Some z /\
    (x == fst (fst q))%Q /\ (y == snd (fst q))%Q /\ (z == snd q)%Q.

(** ** Known sides and domains *)

(** The known side with the same channel and the same mirroring. *)
Definition canonical_side (side : string) : string :=
  ((if startswith side "mirrored" then "mirrored-" else "")
   ++ (if endswith side "left" then "left" else "right"))%string.

(** The known domain a string starting with 'magnitude' is handled as. *)
Definition canonical_domain (domain : string) : string :=
  if startswith domain "magnitude"
  then (if endswith domain "_db" then "magnitude_db" else "magnitude")%string
  else domain.

(** The grid of [file_pole]. *)
Definition grid_of_file_pole : grid :=
  {| unique_row_angles := [0; 90]%Q;
     unique_column_angles := [0; 90]%Q;
     unique_radii := [1]%Q;
     position_mask := [[[false]; [false]]; [[false]; [false]]];
     position_map := [(0, 0, 0); (0, 1, 0); (1, 0, 0)];
     single_start_mask := None;
     start_pole_idx := 0;
     single_end_mask := Some [true];
     end_pole_idx := 0 |}.

(** A domain that is none of 'time', 'complex' and 'phase' and does not
    start with 'magnitude'. *)
Definition unknown_domain (domain : string) : Prop :=
  String.eqb domain "time" = false /\
  String.eqb domain "complex" = false /\
  String.eqb domain "phase" = false /\
  startswith domain "magnitude" = false.

(** ** Contents of the materialized array *)

(** A four-dimensional array of shape (R, C, K, L). *)
Definition array_shape {T : Type} (R C K L : nat) (m : array4 T) : Prop :=
  mask_shape R C K m /\ Forall (Forall (Forall (fun ir => length ir = L))) m.

(** The offset of the element (a, b, k, l) in the row-major buffer of an
    array whose last three axes have the lengths [C], [K] and [L]. *)
Definition flat_index (C K L a b k l : nat) : nat := ((a * C + b) * K + k) * L + l.

(** Measurement [idx] is the last one the reconciler mapped to the cell. *)
Definition last_at (g : grid) (idx i j k : nat) : Prop :=
  nth_error (position_map g) idx = Some (i, j, k) /\
  forall idx', idx < idx' -> nth_error (position_map g) idx' <> Some (i, j, k).

(** Sample [l] of measurement [idx] at the receiver line 199 reads. *)
Definition sample {T : Type} (file : sofa_file T) (side : string) (idx l : nat) : option T :=
  match nth_error (Data_IR file) idx with
  | Some measurement =>
      match nth_error measurement (if endswith side "left" then 0 else 1) with
      | Some ir => nth_error ir l
      | None => None
      end
  | None => None
  end.

(** [Data.IR] has one measurement per position and [N] samples in every
    response. *)
Definition well_formed {T : Type} (file : sofa_file T) : Prop :=
  length (Data_IR file) = length (SourcePosition file) /\
  Forall (Forall (fun ir => length ir = dim_N file)) (Data_IR file).

(** Azimuths {0, 90} and elevations {0, 45} at one radius, without a
    measurement at azimuth 90 and elevation 45. *)
Definition file_sparse : sofa_file sym := {|
  SourcePosition := [(0, 0, 1); (0, 45, 1); (90, 0, 1)]%Q;
  Data_IR := [[[Sample 1; Sample 2]; [Sample 11; Sample 12]];
              [[Sample 3; Sample 4]; [Sample 13; Sample 14]];
              [[Sample 5; Sample 6]; [Sample 15; Sample 16]]];
  dim_N := 2
|}.

(** ** Exceptions of the remaining methods *)

(** The exceptions of the methods above, and those only the methods below
    raise. *)
Inductive exception : Type :=
| Exn (e : exn)
| ZeroDivisionError         (* 'float division by zero' *)
| MaskError                 (* numpy.ma: 'Mask and data not compatible ...' *)
| UnknownCoordinateSystem   (* ValueError: 'Unknown coordinate system ...' *)
| RadiusNotAvailable.       (* ValueError: 'The radius needs to be one of 0.2, 0.5, 1 or 2' *)

Inductive outcome (A : Type) : Type :=
| Returns (a : A)
| Raises (e : exception).

Arguments Returns {A} a.
Arguments Raises {A} e.

Definition and_then {A B : Type} (r : outcome A) (k : A -> outcome B) : outcome B :=
  match r with
  | Returns a => k a
  | Raises e => Raises e
  end.

Notation "x <-- r ;; k" := (and_then r (fun x => k))
  (at level 61, r at next level, right associativity).
Notation "' p <-- r ;; k" := (and_then r (fun x => match x with p => k end))
  (at level 61, p pattern, r at next level, right associativity).

Definition lift {A : Type} (r : result A) : outcome A :=
  match r with
  | Ok a => Returns a
  | Raise e => Raises (Exn e)
  end.

(** ** Frequencies: [SofaDataPoint.hrtf_frequencies] *)

(** The float64 operations the method uses: [of_int] is the conversion of
    an integer operand, [is_zero] the test [y == 0.0] that Python makes
    before it divides by a float. *)
Class FloatOps (F : Type) : Type := {
  of_int : Z -> F;
  fmul : F -> F -> F;
  fdiv : F -> F -> F;
  fabs : F -> F;
  is_zero : F -> bool
}.

(** [x / y] on Python floats. *)
Definition float_div {F : Type} `{FloatOps F} (x y : F) : outcome F :=
  if is_zero y then Raises ZeroDivisionError else Returns (fdiv x y).

(** What the two readers find in the SOFA file: the scalar of
    [Data.SamplingRate] and the size of the dimension [N]; [None] when
    the read raises. *)
Record sofa_header (F : Type) : Type := {
  Data_SamplingRate : option F;
  dimension_N : option nat
}.

Arguments Data_SamplingRate {F} _.
Arguments dimension_N {F} _.

(** Lines 46-55. *)
Definition hrir_samplerate {F : Type} (header : sofa_header F) : outcome F :=
  match Data_SamplingRate header with
  | Some samplerate => Returns samplerate
  | None => Raises (Exn (ValueError ErrorReadingFile))
  end.

(** Lines 58-67. *)
Definition hrir_length {F : Type} (header : sofa_header F) : outcome nat :=
  match dimension_N header with
  | Some length => Returns length
  | None => Raises (Exn (ValueError ErrorReadingFile))
  end.

(** [fftfreq(n, d)]: [val = 1.0 / (n * d)], then the integers
    0, ..., (n-1)//2, -(n//2), ..., -1, each converted and multiplied by
    [val].  [(n-1)//2] rounds down, to -1 for [n = 0]. *)
Definition fftfreq {F : Type} `{FloatOps F} (n : nat) (d : F) : outcome (list F) :=
  val <-- float_div (of_int 1) (fmul (of_int (Z.of_nat n)) d) ;;
  let N := Z.to_nat ((Z.of_nat n - 1) / 2 + 1) in
  let results :=
    map Z.of_nat (seq 0 N)
    ++ map (fun i => (Z.of_nat i - Z.of_nat (n / 2))%Z) (seq 0 (n / 2)) in
  Returns (map (fun k => fmul (of_int k) val) results).

(** Lines 70-73. *)
Definition hrtf_frequencies {F : Type} `{FloatOps F} (header : sofa_header F)
  : outcome (list F) :=
  num_samples <-- hrir_length header ;;
  let num_bins := num_samples / 2 + 1 in
  samplerate <-- hrir_samplerate header ;;
  d <-- float_div (of_int 1) samplerate ;;
  frequencies <-- fftfreq num_samples d ;;
  Returns (map fabs (firstn num_bins frequencies)).

(** The float64 nearest to an integer, by its binary digits; every step
    is exact for integers below 2^53. *)
Fixpoint float_of_positive (p : positive) : PrimFloat.float :=
  match p with
  | xH => PrimFloat.one
  | xO p' => PrimFloat.mul PrimFloat.two (float_of_positive p')
  | xI p' => PrimFloat.add (PrimFloat.mul PrimFloat.two (float_of_positive p')) PrimFloat.one
  end.

Definition float_of_Z (z : Z) : PrimFloat.float :=
  match z with
  | Z0 => PrimFloat.zero
  | Zpos p => float_of_positive p
  | Zneg p => PrimFloat.opp (float_of_positive p)
  end.

(** IEEE 754 binary64, the floats of Python and of numpy's float64. *)
Definition float64 : FloatOps PrimFloat.float := {|
  of_int := float_of_Z;
  fmul := PrimFloat.mul;
  fdiv := PrimFloat.div;
  fabs := PrimFloat.abs;
  is_zero := fun x => PrimFloat.eqb x PrimFloat.zero
|}.

(** ** Angle indices: [SofaDataPoint.hrir_angle_indices] *)

Fixpoint traverse {A B : Type} (f : A -> outcome B) (l : list A) : outcome (list B) :=
  match l with
  | [] => Returns []
  | x :: t => y <-- f x ;; ys <-- traverse f t ;; Returns (y :: ys)
  end.

(** [np.ma.array(data, mask=mask)] for [data] of shape (C,) and [mask] of
    shape (C, K): the shapes differ, so that a mask of one element is
    repeated, a mask with as many elements as the data is reshaped, and
    any other mask is refused. *)
Definition ma_array {A : Type} (data : list A) (mask : list (list bool))
  : outcome (list (option A)) :=
  let nd := length data in
  let nm := length (concat mask) in
  if nm =? 1 then
    Returns (map (fun x => if hd false (concat mask) then None else Some x) data)
  else if nm =? nd then
    Returns (map2 (fun x (b : bool) => if b then None else Some x) data (concat mask))
  else Raises MaskError.

(** Lines 152-156.  The dictionary is the list of its items in insertion
    order; its keys are entries of [unique_row_angles] at increasing
    indices and so differ from each other. *)
Definition hrir_angle_indices (positions : list (Q * Q * Q))
  (row_angles column_angles : option (list Q))
  : outcome (list (Q * list (option Q)) * list nat * list nat) :=
  g <-- lift (map_sofa_position_order_to_matrix positions) ;;
  ' (row_indices, column_indices) <--
    lift (hrir_select_angles row_angles column_angles (unique_row_angles g)
                             (unique_column_angles g) (position_mask g)) ;;
  selected_angles <--
    traverse (fun row_idx =>
                columns <-- ma_array (take 0%Q column_indices (unique_column_angles g))
                                     (take [] column_indices
                                           (nth row_idx (position_mask g) [])) ;;
                Returns (nth row_idx (unique_row_angles g) 0%Q, columns))
             row_indices ;;
  Returns (selected_angles, row_indices, column_indices).

(** ** Positions: [SofaDataPoint.hrir_positions] *)

(** The conversions of [hrtfdata/util.py], which are not among the
    sources: each takes the three coordinate arrays and returns three, or
    raises.  The two conversions from interaural coordinates stand for
    the call together with the exchange of the first two results that
    follows it (lines 179-180 and 182-183). *)
Record conversions : Type := {
  spherical2interaural : list Q -> list Q -> list Q -> outcome (list Q * list Q * list Q);
  spherical2cartesian : list Q -> list Q -> list Q -> outcome (list Q * list Q * list Q);
  interaural2spherical_exchanged :
    list Q -> list Q -> list Q -> outcome (list Q * list Q * list Q);
  interaural2cartesian_exchanged :
    list Q -> list Q -> list Q -> outcome (list Q * list Q * list Q)
}.

(** The returned grid: a plain array, or a masked one.  The last axis, of
    length three, is the triple. *)
Inductive position_grid : Type :=
| DenseGrid (grid : list (list (list (Q * Q * Q))))
| SparseGrid (grid : list (list (list (option (Q * Q * Q))))).

(** [np.stack(np.meshgrid(x, y, z, indexing='ij'), axis=-1)]. *)
Definition meshgrid (x y z : list Q) : list (list (list (Q * Q * Q))) :=
  map (fun a => map (fun b => map (fun r => (a, b, r)) z) y) x.

(** [m.any()]. *)
Definition any3 (m : mask3) : bool := existsb (existsb (existsb (fun b : bool => b))) m.

(** Whether two three-dimensional arrays have the same shape. *)
Definition same_shape {A B : Type} (m : list (list (list A))) (m' : list (list (list B)))
  : bool :=
  (length m =? length m')
  && forallb (fun p => (length (fst p) =? length (snd p))
                       && forallb (fun q => length (fst q) =? length (snd q))
                                  (combine (fst p) (snd p)))
             (combine m m').

(** Lines 159-192. *)
Definition hrir_positions (util : conversions) (self : datapoint)
  (positions : list (Q * Q * Q)) (coordinate_system : string)
  (row_angles column_angles : option (list Q)) : outcome position_grid :=
  g <-- lift (map_sofa_position_order_to_matrix positions) ;;
  ' (row_indices, column_indices) <--
    lift (hrir_select_angles row_angles column_angles (unique_row_angles g)
                             (unique_column_angles g) (position_mask g)) ;;
  let selected_position_mask := select row_indices column_indices (position_mask g) in
  let selected_row_angles := take 0%Q row_indices (unique_row_angles g) in
  let selected_column_angles := take 0%Q column_indices (unique_column_angles g) in
  ' (x, y, z) <--
    match coordinates self with
    | Spherical =>
        if String.eqb coordinate_system "spherical" then
          Returns (selected_row_angles, selected_column_angles, unique_radii g)
        else if String.eqb coordinate_system "interaural" then
          spherical2interaural util selected_row_angles selected_column_angles
                               (unique_radii g)
        else if String.eqb coordinate_system "cartesian" then
          spherical2cartesian util selected_row_angles selected_column_angles
                              (unique_radii g)
        else Raises UnknownCoordinateSystem
    | Interaural =>
        if String.eqb coordinate_system "interaural" then
          Returns (selected_row_angles, selected_column_angles, unique_radii g)
        else if String.eqb coordinate_system "spherical" then
          interaural2spherical_exchanged util selected_column_angles selected_row_angles
                                         (unique_radii g)
        else if String.eqb coordinate_system "cartesian" then
          interaural2cartesian_exchanged util selected_row_angles selected_row_angles
                                         (unique_radii g)
        else Raises UnknownCoordinateSystem
    end ;;
  let position_grid := meshgrid x y z in
  if any3 selected_position_mask then
    if same_shape selected_position_mask position_grid then
      Returns (SparseGrid
                 (map2 (map2 (map2 (fun (b : bool) p => if b then None else Some p)))
                       selected_position_mask position_grid))
    else Raises (Exn IndexError)
  else Returns (DenseGrid position_grid).

(** Lines 255-256 and 261-262: the methods of the two subclasses, whose
    coordinate system defaults to the one of the class. *)
Definition hrir_positions_of_class (util : conversions) (self : datapoint)
  (positions : list (Q * Q * Q)) (row_angles column_angles : option (list Q))
  (coordinate_system : option string) : outcome position_grid :=
  let default :=
    match coordinates self with
    | Spherical => "spherical"%string
    | Interaural => "interaural"%string
    end in
  hrir_positions util self positions
                 (match coordinate_system with Some system => system | None => default end)
                 row_angles column_angles.

(** The element (a, b, k) of a returned grid: [Some None] when it is
    masked. *)
Definition grid_entry (v : position_grid) (a b k : nat) : option (option (Q * Q * Q)) :=
  match v with
  | DenseGrid grid => option_map Some (cell grid a b k)
  | SparseGrid grid => cell grid a b k
  end.

(** Equality of two triples of numbers. *)
Definition triple_eq (p q : Q * Q * Q) : Prop :=
  (fst (fst p) == fst (fst q))%Q /\ (snd (fst p) == snd (fst q))%Q /\ (snd p == snd q)%Q.

(** Conversions that are never reached in the examples. *)
Definition no_conversions : conversions := {|
  spherical2interaural := fun _ _ _ => Raises (Exn AttributeError);
  spherical2cartesian := fun _ _ _ => Raises (Exn AttributeError);
  interaural2spherical_exchanged := fun _ _ _ => Raises (Exn AttributeError);
  interaural2cartesian_exchanged := fun _ _ _ => Raises (Exn AttributeError)
|}.

(** ** Dataset adapters *)

(** Lines 424-433 and 446-455: the part of the file name that stands for
    the radius of a CHEDAR or Widespread data point. *)
Definition radius_label (radius : Q) : outcome string :=
  if isclose radius (2 # 10) then Returns "02m"%string
  else if isclose radius (5 # 10) then Returns "05m"%string
  else if isclose radius 1 then Returns "1m"%string
  else if isclose radius 2 then Returns "2m"%string
  else Raises RadiusNotAvailable.

(** The nominal radii and their labels. *)
Definition nominal_radii : list (Q * string) :=
  [((2 # 10)%Q, "02m"%string); ((5 # 10)%Q, "05m"%string);
   (1%Q, "1m"%string); (2%Q, "2m"%string)].

(** [str(n)] for a natural number. *)
Definition decimal (n : N) : string :=
  DecimalString.NilZero.string_of_uint (N.to_uint n).

Fixpoint zeros (n : nat) : string :=
  match n with
  | 0 => ""%string
  | S n' => String "0" (zeros n')
  end.

(** ['{:0<width>d}'.format(z)]: the sign, then the digits padded with
    zeros on the left up to the width; ['{:d}'] and [f'{z}'] are the case
    of width 0. *)
Definition format_d (width : nat) (z : Z) : string :=
  let sign := if (z <? 0)%Z then "-"%string else ""%string in
  let digits := decimal (Z.abs_N z) in
  (sign ++ zeros (width - String.length sign - String.length digits) ++ digits)%string.

(** The data point classes whose file name is a pattern of the subject
    id; [AriDataPoint] searches the directory instead. *)
Inductive dataset : Type :=
| Cipic
| Listen
| BiLi
| Ita
| Hutubs
| Riec
| Chedar (radius : string)
| Widespread (radius : string)
| Sadie2
| ThreeDThreeA
| Sonicom (samplerate_str hrtf_variant_str : string).

(** [_sofa_path] of the class, relative to [query.sofa_directory_path]. *)
Definition sofa_path (d : dataset) (subject_id : Z) : string :=
  match d with
  | Cipic => "subject_" ++ format_d 3 subject_id ++ ".sofa"
  | Listen => "IRC_" ++ format_d 4 subject_id ++ "_C_44100.sofa"
  | BiLi => "IRC_" ++ format_d 4 subject_id ++ "_C_HRIR_96000.sofa"
  | Ita => "MRT" ++ format_d 2 subject_id ++ ".sofa"
  | Hutubs => "pp" ++ format_d 0 subject_id ++ "_HRIRs_measured.sofa"
  | Riec => "RIEC_hrir_subject_" ++ format_d 3 subject_id ++ ".sofa"
  | Chedar radius => "chedar_" ++ format_d 4 subject_id ++ "_UV" ++ radius ++ ".sofa"
  | Widespread radius => "UV" ++ radius ++ "_" ++ format_d 5 subject_id ++ ".sofa"
  | Sadie2 =>
      let sadie2_id :=
        (if (subject_id <? 3)%Z then "D" else "H") ++ format_d 0 subject_id in
      sadie2_id ++ "/" ++ sadie2_id ++ "_HRIR_SOFA/" ++ sadie2_id
      ++ "_96K_24bit_512tap_FIR_SOFA.sofa"
  | ThreeDThreeA => "Subject" ++ format_d 0 subject_id ++ "_HRIRs.sofa"
  | Sonicom samplerate_str hrtf_variant_str =>
      "P" ++ format_d 4 subject_id ++ "/HRTF/" ++ samplerate_str
      ++ "/P" ++ format_d 4 subject_id ++ "_" ++ hrtf_variant_str ++ "_"
      ++ samplerate_str ++ ".sofa"
  end%string.

(** The characters of a formatted integer. *)
Definition is_digit (c : ascii) : bool :=
  existsb (Ascii.eqb c) (list_ascii_of_string "0123456789").

Definition is_digit_or_sign (c : ascii) : bool := Ascii.eqb c "-" || is_digit c.

Fixpoint forall_chars (P : ascii -> bool) (s : string) : bool :=
  match s with
  | EmptyString => true
  | String c s' => P c && forall_chars P s'
  end.

(** The operation lines 222-233 apply to every element of the spectrum,
    for the domains other than 'time' and the decibel magnitudes in which
    the call returns. *)
Definition spectrum_op {T : Type} `{SignalOps T} (self : datapoint) (domain : string)
  : option (T -> T) :=
  if String.eqb domain "time" then None
  else if String.eqb domain "complex" then
    if dtype_complex self then Some (fun x => x) else None
  else if startswith domain "magnitude" then
    if endswith domain "_db" then None else Some np_abs
  else if String.eqb domain "phase" then Some np_angle
  else None.

(* ================================================================== *)
(** * Properties *)
(* ================================================================== *)

(** Inversion of a step of the [result] monad that returned. *)
Tactic Notation "bind_ok" hyp(H) "as" ident(x) ident(E) :=
  match type of H with
  | bind ?r _ = Ok _ => destruct r as [x|] eqn:E; [cbn [bind] in H | discriminate H]
  end.

(** ** Boolean indexing *)

Lemma nth_error_lt (A : Type) (l : list A) (n : nat) (x : A) :
  nth_error l n = Some x -> n < length l.
Proof. intros H. apply nth_error_Some. congruence. Qed.

Lemma bool_filter_nil_r (A : Type) (m : list bool) : bool_filter m (@nil A) = [].
Proof. destruct m as [|[] m]; reflexivity. Qed.

Lemma bool_filter_map (A B : Type) (f : A -> B) (m : list bool) (a : list A) :
  bool_filter m (map f a) = map f (bool_filter m a).
Proof.
  revert a; induction m as [|b m IH]; intros [|x a]; simpl; trivial.
  destruct b; simpl; now rewrite IH.
Qed.

Lemma bool_filter_twice (A : Type) (s a : list bool) (b : list A) :
  bool_filter (bool_filter s a) (bool_filter s b) = bool_filter (map2 andb s a) b.
Proof.
  revert a b; induction s as [|s0 s IH]; intros a b.
  - reflexivity.
  - destruct a as [|a0 a]; [reflexivity|].
    destruct b as [|b0 b].
    + simpl. now rewrite !bool_filter_nil_r.
    + destruct s0; simpl; now rewrite IH.
Qed.

Lemma bool_filter_map2_andb (s a b : list bool) :
  bool_filter s (map2 andb a b) = map2 andb (bool_filter s a) (bool_filter s b).
Proof.
  revert a b; induction s as [|s0 s IH]; intros a b.
  - reflexivity.
  - destruct a as [|a0 a]; [reflexivity|].
    destruct b as [|b0 b].
    + destruct s0; simpl; now destruct (bool_filter s a).
    + destruct s0; simpl; now rewrite IH.
Qed.

Lemma bool_filter_length_eq (A B : Type) (s : list bool) (a : list A) (b : list B) :
  length a = length b -> length (bool_filter s a) = length (bool_filter s b).
Proof.
  revert a b; induction s as [|s0 s IH]; intros [|x a] [|y b] H; simpl in *;
    try discriminate; trivial.
  destruct s0; simpl; auto.
Qed.

Lemma bool_filter_repeat (A : Type) (x : A) (s : list bool) (n : nat) :
  bool_filter s (repeat x n) = repeat x (length (bool_filter s (repeat x n))).
Proof.
  revert n; induction s as [|s0 s IH]; intros [|n]; simpl; trivial.
  destruct s0; simpl; now rewrite <- IH.
Qed.

Lemma In_bool_filter (A : Type) (x : A) (m : list bool) (a : list A) :
  In x (bool_filter m a) <->
  exists j, nth_error m j = Some true /\ nth_error a j = Some x.
Proof.
  revert a; induction m as [|b m IH]; intros a.
  - simpl. split; [tauto|]. intros [[|j] [H _]]; discriminate.
  - destruct a as [|y a].
    + simpl. split; [tauto|]. intros [[|j] [_ H]]; discriminate.
    + destruct b; simpl; rewrite ?IH.
      * split.
        -- intros [->|[j Hj]]; [now exists 0 | now exists (S j)].
        -- intros [[|j] [H1 H2]]; simpl in *; [left; congruence | right; eauto].
      * split.
        -- intros [j Hj]; now exists (S j).
        -- intros [[|j] [H1 H2]]; simpl in *; [discriminate | eauto].
Qed.

Lemma In_bool_filter_seq (m : list bool) (s n i : nat) :
  In i (bool_filter m (seq s n)) <->
  s <= i < s + n /\ nth_error m (i - s) = Some true.
Proof.
  rewrite In_bool_filter. split.
  - intros (j & Hm & Hs).
    assert (Hj : j < n).
    { apply nth_error_lt in Hs. now rewrite length_seq in Hs. }
    rewrite nth_error_seq in Hs.
    destruct (Nat.ltb_spec j n); [|lia].
    injection Hs as <-. replace (s + j - s) with j by lia. split; [lia|trivial].
  - intros (Hi & Hm). exists (i - s). split; trivial.
    rewrite nth_error_seq.
    destruct (Nat.ltb_spec (i - s) n); [|lia]. f_equal; lia.
Qed.

Lemma In_nonzero (m : list bool) (i : nat) :
  In i (nonzero m) <-> nth_error m i = Some true.
Proof.
  unfold nonzero. rewrite In_bool_filter_seq, Nat.sub_0_r. split.
  - tauto.
  - intros H. split; trivial. apply nth_error_lt in H. lia.
Qed.

Lemma bool_filter_seq_sorted (m : list bool) (s n : nat) :
  StronglySorted lt (bool_filter m (seq s n)).
Proof.
  revert s n; induction m as [|b m IH]; intros s [|n]; simpl; try constructor.
  destruct b; [|apply IH].
  constructor; [apply IH|].
  apply Forall_forall. intros i Hi. apply In_bool_filter_seq in Hi. lia.
Qed.

Lemma nth_error_map2 (A B C : Type) (f : A -> B -> C) (a : list A) (b : list B) (i : nat) :
  nth_error (map2 f a b) i =
  match nth_error a i, nth_error b i with
  | Some x, Some y => Some (f x y)
  | _, _ => None
  end.
Proof.
  revert b i; induction a as [|x a IH]; intros [|y b] [|i]; simpl; trivial;
    first [apply IH | now destruct (nth_error a i)].
Qed.

Lemma length_map2 (A B C : Type) (f : A -> B -> C) (a : list A) (b : list B) :
  length (map2 f a b) = Nat.min (length a) (length b).
Proof. revert b; induction a as [|x a IH]; intros [|y b]; simpl; auto. Qed.

Lemma all_false_iff (l : list bool) :
  all l = false <-> exists k, nth_error l k = Some false.
Proof.
  unfold all. induction l as [|b l IH]; simpl.
  - split; [discriminate|]. intros [[|k] H]; discriminate.
  - destruct b; simpl.
    + rewrite IH. split.
      * intros [k H]; now exists (S k).
      * intros [[|k] H]; simpl in H; [discriminate | eauto].
    + split; trivial. intros _. now exists 0.
Qed.

Lemma forallb_false_iff (A : Type) (f : A -> bool) (l : list A) :
  forallb f l = false <-> exists x, In x l /\ f x = false.
Proof.
  induction l as [|y l IH]; simpl.
  - split; [discriminate|]. intros (x & [] & _).
  - rewrite andb_false_iff, IH. split.
    + intros [H|(x & H1 & H2)]; eauto.
    + intros (x & [->|H1] & H2); eauto.
Qed.

(** ** Grid Selector *)

Lemma select_indices_length (angles : option (list Q)) (all_angles : list Q) (sel : list bool) :
  select_indices angles all_angles = Ok sel -> length sel = length all_angles.
Proof.
  destruct angles as [requested|]; simpl.
  - destruct (negb _); [discriminate|]. intros [= <-]. apply length_map.
  - intros [= <-]. apply repeat_length.
Qed.

Lemma select_mask_ok (R C K : nat) (sr sc : list bool) (m : mask3) :
  mask_shape R C K m -> length sr = R -> length sc = C ->
  select_mask sr sc m = Ok (map (bool_filter sc) (bool_filter sr m)).
Proof.
  intros [HR Hm] Hsr Hsc. unfold select_mask.
  rewrite Hsr, HR, Nat.eqb_refl. simpl.
  replace (forallb _ m) with true; trivial.
  symmetry. apply forallb_forall. intros row Hrow.
  rewrite Forall_forall in Hm. destruct (Hm row Hrow) as [-> _].
  rewrite Hsc. apply Nat.eqb_refl.
Qed.

(** The row pass, with the column selection it is evaluated against. *)
Lemma keep_rows_spec (sr sc : list bool) (m : mask3) (i : nat) :
  In i (bool_filter (map negb (all_axis12 (map (bool_filter sc) (bool_filter sr m))))
                    (nonzero sr)) <->
  nth_error sr i = Some true /\
  exists j k, nth_error sc j = Some true /\ cell m i j k = Some false.
Proof.
  unfold all_axis12, nonzero.
  rewrite map_map, <- !bool_filter_map, bool_filter_twice, In_bool_filter_seq.
  rewrite Nat.sub_0_r, nth_error_map2, !nth_error_map. unfold cell.
  destruct (nth_error sr i) as [b|] eqn:Hsr.
  2:{ split; [intros [_ H]; discriminate | intros [H _]; discriminate]. }
  destruct (nth_error m i) as [row|] eqn:Hrow; simpl.
  2:{ split; [intros [_ H]; discriminate | intros (_ & j & k & _ & H); discriminate]. }
  assert (Hi : 0 <= i < 0 + length sr) by (apply nth_error_lt in Hsr; lia).
  assert (Hrowspec :
    all (map all (bool_filter sc row)) = false <->
    exists j k, nth_error sc j = Some true /\
      match nth_error row j with Some radii => nth_error radii k | None => None end
      = Some false).
  { unfold all at 1. rewrite forallb_false_iff. split.
    - intros (x & Hx & Hall). apply in_map_iff in Hx. destruct Hx as (radii & <- & Hin).
      apply In_bool_filter in Hin. destruct Hin as (j & Hj & Hr).
      apply all_false_iff in Hall. destruct Hall as [k Hk].
      exists j, k. now rewrite Hr.
    - intros (j & k & Hj & Hc).
      destruct (nth_error row j) as [radii|] eqn:Hr; [|discriminate].
      exists (all radii). split.
      + apply in_map, In_bool_filter. eauto.
      + apply all_false_iff. eauto. }
  split.
  - intros [_ H]. injection H as H. apply andb_true_iff in H. destruct H as [-> H].
    split; trivial. apply Hrowspec. now apply negb_true_iff.
  - intros [[= ->] H]. split; trivial. simpl. do 2 f_equal.
    apply negb_true_iff. now apply Hrowspec.
Qed.

Lemma fold_andb_nth (C : nat) (M : list (list bool)) (j : nat) :
  Forall (fun r => length r = C) M -> j < C ->
  nth_error (fold_right (map2 andb) (repeat true C) M) j
  = Some (forallb (fun r => nth j r true) M).
Proof.
  intros HM Hj. induction HM as [|r M Hr HM IH]; simpl.
  - rewrite (nth_error_nth' _ true) by now rewrite repeat_length.
    now rewrite nth_repeat.
  - rewrite nth_error_map2, IH.
    rewrite (nth_error_nth' r true) by lia. reflexivity.
Qed.

Lemma fold_andb_bool_filter (sc : list bool) (M : list (list bool)) :
  fold_right (map2 andb) (repeat true (length (nonzero sc))) (map (bool_filter sc) M)
  = bool_filter sc (fold_right (map2 andb) (repeat true (length sc)) M).
Proof.
  induction M as [|r M IH]; simpl.
  - rewrite bool_filter_repeat. f_equal. unfold nonzero.
    apply bool_filter_length_eq. now rewrite length_seq, repeat_length.
  - now rewrite IH, bool_filter_map2_andb.
Qed.

(** The column pass, with the row selection it is evaluated against. *)
Lemma keep_columns_spec (R C K : nat) (sr sc : list bool) (m : mask3) (j : nat) :
  mask_shape R C K m -> length sc = C ->
  In j (bool_filter
          (map negb (all_axis02 (length (nonzero sc))
                                (map (bool_filter sc) (bool_filter sr m))))
          (nonzero sc)) <->
  nth_error sc j = Some true /\
  exists i k, nth_error sr i = Some true /\ cell m i j k = Some false.
Proof.
  intros [HR Hm] Hsc. unfold all_axis02.
  rewrite map_map.
  rewrite (map_ext _ (fun row => bool_filter sc (map all row)))
    by (intros; now rewrite bool_filter_map).
  rewrite <- (map_map (map all) (bool_filter sc)), fold_andb_bool_filter.
  rewrite <- bool_filter_map. unfold nonzero.
  rewrite bool_filter_twice, In_bool_filter_seq, Nat.sub_0_r, nth_error_map2.
  rewrite nth_error_map.
  destruct (nth_error sc j) as [b|] eqn:Hj.
  2:{ split; [intros [_ H]; discriminate | intros [H _]; discriminate]. }
  assert (HjC : j < C) by (apply nth_error_lt in Hj; lia).
  assert (HM : Forall (fun r => length r = C) (map (map all) (bool_filter sr m))).
  { apply Forall_forall. intros r Hr. apply in_map_iff in Hr.
    destruct Hr as (row & <- & Hin). rewrite length_map.
    apply In_bool_filter in Hin. destruct Hin as (i & _ & Hin).
    apply nth_error_In in Hin. rewrite Forall_forall in Hm. now apply Hm. }
  rewrite Hsc, (fold_andb_nth C _ j HM HjC). simpl.
  assert (Hcol :
    forallb (fun r => nth j r true) (map (map all) (bool_filter sr m)) = false <->
    exists i k, nth_error sr i = Some true /\ cell m i j k = Some false).
  { rewrite forallb_false_iff. unfold cell. split.
    - intros (r & Hr & Hnth). apply in_map_iff in Hr. destruct Hr as (row & <- & Hin).
      apply In_bool_filter in Hin. destruct Hin as (i & Hi & Hrow).
      assert (Hlen : length row = C).
      { rewrite Forall_forall in Hm. apply nth_error_In in Hrow. now apply Hm. }
      destruct (nth_error row j) as [radii|] eqn:Hrad.
      2:{ apply nth_error_None in Hrad. lia. }
      rewrite (nth_indep _ true (all [])) in Hnth by (rewrite length_map; lia).
      rewrite map_nth in Hnth.
      rewrite (nth_error_nth _ _ [] Hrad) in Hnth.
      apply all_false_iff in Hnth. destruct Hnth as [k Hk].
      exists i, k. now rewrite Hrow, Hrad.
    - intros (i & k & Hi & Hc).
      destruct (nth_error m i) as [row|] eqn:Hrow; [|discriminate].
      destruct (nth_error row j) as [radii|] eqn:Hrad; [|discriminate].
      exists (map all row). split.
      + apply in_map, In_bool_filter. eauto.
      + rewrite (nth_indep _ true (all [])) by (rewrite length_map; now apply nth_error_lt in Hrad).
        rewrite map_nth, (nth_error_nth _ _ [] Hrad).
        apply all_false_iff. eauto. }
  split.
  - intros [_ H]. injection H as H. apply andb_true_iff in H. destruct H as [-> H].
    split; trivial. apply Hcol. now apply negb_true_iff.
  - intros [[= ->] H]. split; [lia|]. simpl. do 2 f_equal.
    apply negb_true_iff. now apply Hcol.
Qed.

Lemma bool_filter_sorted (m : list bool) (l : list nat) :
  StronglySorted lt l -> StronglySorted lt (bool_filter m l).
Proof.
  intros Hl; revert m; induction Hl as [|x l Hl IH Hx]; intros [|b m]; simpl;
    try constructor.
  destruct b; [|apply IH].
  constructor; [apply IH|].
  rewrite Forall_forall in *. intros y Hy. apply Hx.
  apply In_bool_filter in Hy. destruct Hy as (j & _ & Hy).
  now apply nth_error_In in Hy.
Qed.

Lemma nonzero_sorted (m : list bool) : StronglySorted lt (nonzero m).
Proof. apply bool_filter_seq_sorted. Qed.

Lemma nonzero_repeat_true (n : nat) : nonzero (repeat true n) = seq 0 n.
Proof.
  unfold nonzero. rewrite repeat_length. generalize 0.
  induction n as [|n IH]; intros s; simpl; [reflexivity | now rewrite IH].
Qed.

Lemma any_map_true_iff (A : Type) (f : A -> bool) (l : list A) :
  any (map f l) = true <-> exists i x, nth_error l i = Some x /\ f x = true.
Proof.
  unfold any. rewrite existsb_exists. split.
  - intros (b & Hb & ->). apply in_map_iff in Hb. destruct Hb as (x & Hx & Hin).
    apply In_nth_error in Hin. destruct Hin as [i Hi]. eauto.
  - intros (i & x & Hi & Hx). exists true. split; trivial.
    rewrite <- Hx. apply in_map. eapply nth_error_In; eauto.
Qed.

(** The whole selector raises as soon as the row request matches nothing,
    and, when the rows match, as soon as the column request matches
    nothing. *)
Lemma hrir_select_angles_no_match (row_angles column_angles : option (list Q))
    (all_row_angles all_column_angles : list Q) (position_mask : mask3) :
  select_indices row_angles all_row_angles = Raise (ValueError NoAnglesAvailable) \/
  ((exists sel, select_indices row_angles all_row_angles = Ok sel) /\
   select_indices column_angles all_column_angles = Raise (ValueError NoAnglesAvailable)) ->
  hrir_select_angles row_angles column_angles all_row_angles all_column_angles position_mask
  = Raise (ValueError NoAnglesAvailable).
Proof.
  unfold hrir_select_angles. intros [->|[[sel ->] ->]]; reflexivity.
Qed.

(** C5: a request of None selects every index of the axis; a requested set
    close (np.isclose) to no grid angle raises the 'none of the specified
    angles are available' error; otherwise the candidate indices are exactly
    the indices whose angle is close to at least one requested value, in
    ascending order. *)
Theorem select_indices_candidates (all_angles : list Q) :
  (select_indices None all_angles = Ok (repeat true (length all_angles)) /\
   nonzero (repeat true (length all_angles)) = seq 0 (length all_angles)) /\
  forall requested : list Q,
    let matches i :=
      exists angle r, nth_error all_angles i = Some angle /\
                      In r requested /\ isclose angle r = true in
    ((forall i, ~ matches i) ->
     select_indices (Some requested) all_angles = Raise (ValueError NoAnglesAvailable)) /\
    ((exists i, matches i) ->
     exists select,
       select_indices (Some requested) all_angles = Ok select /\
       StronglySorted lt (nonzero select) /\
       forall i, In i (nonzero select) <-> matches i).
Proof.
  split; [split; [reflexivity | apply nonzero_repeat_true]|].
  intros requested matches.
  assert (Hany : any (map (fun angle => existsb (isclose angle) requested) all_angles) = true
                 <-> exists i, matches i).
  { rewrite any_map_true_iff. unfold matches. split.
    - intros (i & angle & Hi & Hex). apply existsb_exists in Hex.
      destruct Hex as (r & Hr & Hc). eauto 6.
    - intros (i & angle & r & Hi & Hr & Hc). exists i, angle. split; trivial.
      apply existsb_exists. eauto. }
  split.
  - intros Hnone. simpl.
    destruct (any _); trivial.
    destruct (proj1 Hany eq_refl) as [i Hi]. now apply Hnone in Hi.
  - intros Hsome. apply Hany in Hsome. simpl. rewrite Hsome. simpl.
    eexists; split; [reflexivity|]. split; [apply nonzero_sorted|].
    intros i. rewrite In_nonzero, nth_error_map. unfold matches.
    destruct (nth_error all_angles i) as [angle|]; simpl.
    + split.
      * intros [= Hex]. apply existsb_exists in Hex.
        destruct Hex as (r & Hr & Hc). eauto.
      * intros (angle' & r & [= <-] & Hr & Hc). f_equal.
        apply existsb_exists. eauto.
    + split; [discriminate|]. intros (angle' & r & H & _). discriminate.
Qed.

(** Rows {0, 45} requested on a grid with rows {0, 45, 90}. *)
Lemma select_indices_candidates_witness :
  exists select,
    select_indices (Some [0; 45]%Q) [0; 45; 90]%Q = Ok select /\
    StronglySorted lt (nonzero select) /\
    forall i, In i (nonzero select) <->
      exists angle r, nth_error [0; 45; 90]%Q i = Some angle /\
                      In r [0; 45]%Q /\ isclose angle r = true.
Proof.
  apply (proj2 (select_indices_candidates [0; 45; 90]%Q) [0; 45]%Q).
  exists 0, 0%Q, 0%Q. split; [reflexivity|]. split; [now left | reflexivity].
Defined.

Example select_indices_0_45 :
  option_map nonzero
    (match select_indices (Some [0; 45]%Q) [0; 45; 90]%Q with
     | Ok s => Some s | Raise _ => None end) = Some [0; 1].
Proof. reflexivity. Qed.

Example select_indices_200 :
  select_indices (Some [200]%Q) [0; 45; 90]%Q = Raise (ValueError NoAnglesAvailable).
Proof. reflexivity. Qed.

(** C1: one pruning pass per axis.  A candidate row is retained exactly when
    some cell of that row, in one of the candidate columns and at any
    radius, is not missing; a candidate column is retained exactly when
    some cell of that column, in one of the candidate rows, is not missing.
    Both passes read the candidate (unpruned) selection of the other axis. *)
Theorem hrir_select_angles_prunes_once
    (row_angles column_angles : option (list Q))
    (all_row_angles all_column_angles : list Q) (position_mask : mask3)
    (K : nat) (select_row select_column : list bool) :
  mask_shape (length all_row_angles) (length all_column_angles) K position_mask ->
  select_indices row_angles all_row_angles = Ok select_row ->
  select_indices column_angles all_column_angles = Ok select_column ->
  exists row_indices column_indices,
    hrir_select_angles row_angles column_angles all_row_angles all_column_angles
                       position_mask = Ok (row_indices, column_indices) /\
    (forall i, In i row_indices <->
       nth_error select_row i = Some true /\
       exists j k, nth_error select_column j = Some true /\
                   cell position_mask i j k = Some false) /\
    (forall j, In j column_indices <->
       nth_error select_column j = Some true /\
       exists i k, nth_error select_row i = Some true /\
                   cell position_mask i j k = Some false) /\
    StronglySorted lt row_indices /\ StronglySorted lt column_indices.
Proof.
  intros Hshape Hr Hc. unfold hrir_select_angles. rewrite Hr, Hc. simpl.
  apply select_indices_length in Hr, Hc.
  rewrite (select_mask_ok _ _ _ _ _ _ Hshape Hr Hc). simpl.
  eexists _, _. split; [reflexivity|].
  split; [|split; [|split]].
  - intros i. apply keep_rows_spec.
  - intros j. eapply keep_columns_spec; eauto.
  - apply bool_filter_sorted, nonzero_sorted.
  - apply bool_filter_sorted, nonzero_sorted.
Qed.

(** A 3 x 2 x 1 grid whose last row is empty and whose second column only
    has data in the row that is not requested. *)
Lemma hrir_select_angles_prunes_once_witness :
  exists row_indices column_indices,
    hrir_select_angles (Some [0; 90]%Q) None [0; 45; 90]%Q [0; 30]%Q
      [[[false]; [true]]; [[false]; [false]]; [[true]; [true]]]
    = Ok (row_indices, column_indices) /\
    (forall i, In i row_indices <->
       nth_error [true; false; true] i = Some true /\
       exists j k, nth_error [true; true] j = Some true /\
         cell [[[false]; [true]]; [[false]; [false]]; [[true]; [true]]] i j k = Some false) /\
    (forall j, In j column_indices <->
       nth_error [true; true] j = Some true /\
       exists i k, nth_error [true; false; true] i = Some true /\
         cell [[[false]; [true]]; [[false]; [false]]; [[true]; [true]]] i j k = Some false) /\
    StronglySorted lt row_indices /\ StronglySorted lt column_indices.
Proof.
  apply (hrir_select_angles_prunes_once (Some [0; 90]%Q) None [0; 45; 90]%Q [0; 30]%Q
           [[[false]; [true]]; [[false]; [false]]; [[true]; [true]]] 1
           [true; false; true] [true; true]).
  - split; [reflexivity | repeat constructor].
  - reflexivity.
  - reflexivity.
Defined.

Example hrir_select_angles_pruned :
  hrir_select_angles (Some [0; 90]%Q) None [0; 45; 90]%Q [0; 30]%Q
    [[[false]; [true]]; [[false]; [false]]; [[true]; [true]]]
  = Ok ([0], [0]).
Proof. reflexivity. Qed.

(** X2: the single pass is stable: every retained row has a non-missing cell in
    a retained column and every retained column has one in a retained row,
    so that a second pass against the pruned axes would drop nothing. *)
Lemma hrir_select_angles_stable
    (row_angles column_angles : option (list Q))
    (all_row_angles all_column_angles : list Q) (position_mask : mask3)
    (K : nat) (row_indices column_indices : list nat) :
  mask_shape (length all_row_angles) (length all_column_angles) K position_mask ->
  hrir_select_angles row_angles column_angles all_row_angles all_column_angles
                     position_mask = Ok (row_indices, column_indices) ->
  (forall i, In i row_indices ->
     exists j k, In j column_indices /\ cell position_mask i j k = Some false) /\
  (forall j, In j column_indices ->
     exists i k, In i row_indices /\ cell position_mask i j k = Some false).
Proof.
  intros Hshape H. unfold hrir_select_angles in H.
  bind_ok H as sr Hr. bind_ok H as sc Hc.
  pose proof (select_indices_length _ _ _ Hr) as Hlr.
  pose proof (select_indices_length _ _ _ Hc) as Hlc.
  rewrite (select_mask_ok _ _ _ _ _ _ Hshape Hlr Hlc) in H. cbn [bind] in H.
  injection H as <- <-.
  split.
  - intros i Hi. pose proof Hi as Hi'.
    apply keep_rows_spec in Hi'. destruct Hi' as (Hsr & j & k & Hsc & Hcell).
    exists j, k. split; trivial.
    eapply keep_columns_spec; eauto 6.
  - intros j Hj. pose proof Hj as Hj'.
    eapply keep_columns_spec in Hj'; eauto.
    destruct Hj' as (Hsc & i & k & Hsr & Hcell).
    exists i, k. split; trivial.
    apply keep_rows_spec. eauto 6.
Qed.

(** ** Anthropometry lookup *)

Lemma mem_true_iff (s : string) (l : list string) : mem s l = true <-> In s l.
Proof.
  unfold mem. rewrite existsb_exists. split.
  - intros (x & Hx & E). apply String.eqb_eq in E. now subst.
  - intros H. exists s. split; trivial. apply String.eqb_refl.
Qed.

Lemma nonzero_nil_iff (m : list bool) :
  nonzero m = [] <-> forall i, nth_error m i <> Some true.
Proof.
  split.
  - intros E i H. apply In_nonzero in H. now rewrite E in H.
  - intros H. destruct (nonzero m) as [|i l] eqn:E; trivial.
    exfalso. apply (H i), In_nonzero. rewrite E. now left.
Qed.

Lemma nonzero_singleton (m : list bool) (i : nat) :
  nth_error m i = Some true ->
  (forall i', nth_error m i' = Some true -> i' = i) ->
  nonzero m = [i].
Proof.
  intros Hi Huniq.
  pose proof (nonzero_sorted m) as Hs.
  assert (Hin : forall x, In x (nonzero m) -> x = i)
    by (intros x Hx; apply Huniq, In_nonzero, Hx).
  assert (Hi' : In i (nonzero m)) by now apply In_nonzero.
  destruct (nonzero m) as [|a [|b l]].
  - destruct Hi'.
  - f_equal. apply Hin. now left.
  - exfalso. inversion Hs as [|? ? _ Hall]; subst.
    apply Forall_inv in Hall.
    rewrite (Hin a), (Hin b) in Hall by (simpl; auto). lia.
Qed.

Lemma isnan_astype (cast : Q -> Q) (l : list measurement) :
  forallb isnan (map (astype_measurement cast) l) = forallb isnan l.
Proof.
  induction l as [|[|q] l IH]; simpl; trivial.
Qed.

Lemma is_empty_app (A : Type) (l l' : list A) :
  is_empty (l ++ l') = is_empty l && is_empty l'.
Proof. destruct l; reflexivity. Qed.

Lemma is_empty_when (A : Type) (b : bool) (x : A) : is_empty (when b [x]) = negb b.
Proof. destruct b; reflexivity. Qed.

(** A valid side and a non-empty selection of known names always append
    at least one array. *)
Lemma select_data_not_empty (row : subject) (side : string) (select : list string) :
  mem side ["left"; "right"; "both"]%string = true ->
  forallb (fun s => mem s select_all) select = true ->
  select <> [] ->
  is_empty (select_data row side select) = false.
Proof.
  intros Hside Hknown Hne.
  destruct select as [|name select]; [congruence|].
  rewrite forallb_forall in Hknown.
  assert (Hname := Hknown name (or_introl eq_refl)).
  apply mem_true_iff in Hname. apply mem_true_iff in Hside.
  assert (Hm : forall s, s = name -> mem s (name :: select) = true)
    by (intros s ->; apply mem_true_iff; now left).
  unfold select_data. rewrite !is_empty_app, !is_empty_when.
  simpl in Hname, Hside.
  destruct Hside as [<-|[<-|[<-|[]]]];
    destruct Hname as [E|[E|[E|[E|[E|[E|[]]]]]]];
    rewrite (Hm _ E);
    cbn [String.eqb Ascii.eqb Bool.eqb startswith String.prefix orb andb negb];
    rewrite ?andb_false_r; reflexivity.
Qed.

(** C10: a side that is not 'left', 'right' or 'both', the default None
    included, raises the 'unknown side selector' error whatever the table,
    the subject and the selection are. *)
Theorem anthropomorphic_data_side_checked_first
    (cast : Q -> Q) (anth : list subject) (subject_id : Z)
    (side : option string) (select : selection) :
  side <> Some "left"%string -> side <> Some "right"%string ->
  side <> Some "both"%string ->
  anthropomorphic_data cast anth subject_id side select
  = Raise (ValueError UnknownSideSelector).
Proof.
  intros Hl Hr Hb. unfold anthropomorphic_data.
  destruct side as [side|]; trivial.
  destruct (mem side ["left"; "right"; "both"]%string) eqn:E; trivial.
  apply mem_true_iff in E. simpl in E.
  destruct E as [<-|[<-|[<-|[]]]]; congruence.
Qed.

(** The default side, with a selection that holds no pinna field. *)
Lemma anthropomorphic_data_side_checked_first_witness :
  anthropomorphic_data (fun q => q)
    [{| id := 3; X := [Num 1]; D := []; theta := [];
        WeightKilograms := Num 70; age := Num 30; sex := "F" |}]
    3 None (SelectOne "weight")
  = Raise (ValueError UnknownSideSelector).
Proof.
  apply anthropomorphic_data_side_checked_first; discriminate.
Defined.

(** The index array of line 284. *)
Lemma subject_idx_one_subject (row : subject) (subject_id : Z) :
  subject_idx [row] subject_id = [].
Proof. reflexivity. Qed.

Lemma subject_idx_absent (anth : list subject) (subject_id : Z) :
  (forall row, In row anth -> id row <> subject_id) ->
  subject_idx anth subject_id = [].
Proof.
  intros Habsent.
  assert (E : nonzero (map (fun row => Z.eqb (id row) subject_id) anth) = []).
  { apply nonzero_nil_iff. intros i Hi.
    rewrite nth_error_map in Hi.
    destruct (nth_error anth i) as [row|] eqn:Hrow; [|discriminate].
    injection Hi as Hi. apply Z.eqb_eq in Hi.
    apply nth_error_In in Hrow. now apply Habsent in Hrow. }
  unfold subject_idx. destruct anth as [|r [|r' anth]]; trivial.
Qed.

Lemma subject_idx_stored_once
    (anth : list subject) (subject_id : Z) (i : nat) (row : subject) :
  length anth <> 1 ->
  nth_error anth i = Some row -> id row = subject_id ->
  (forall i' row', nth_error anth i' = Some row' -> id row' = subject_id -> i' = i) ->
  subject_idx anth subject_id = [i].
Proof.
  intros Hlen Hrow Hid Huniq.
  assert (E : nonzero (map (fun row => Z.eqb (id row) subject_id) anth) = [i]).
  { apply nonzero_singleton.
    - rewrite nth_error_map, Hrow. simpl. f_equal. now apply Z.eqb_eq.
    - intros i' Hi'. rewrite nth_error_map in Hi'.
      destruct (nth_error anth i') as [row'|] eqn:Hrow'; [|discriminate].
      injection Hi' as Hi'. apply Z.eqb_eq in Hi'. eauto. }
  unfold subject_idx. destruct anth as [|r [|r' anth]]; trivial.
  now contradiction Hlen.
Qed.

Lemma unknown_select_empty (select : list string) :
  forallb (fun s => mem s select_all) select = true ->
  is_empty (filter (fun s => negb (mem s select_all)) select) = true.
Proof.
  intros Hknown. rewrite forallb_forall in Hknown.
  destruct (filter _ _) as [|s l] eqn:E; trivial.
  assert (Hs : In s (filter (fun s => negb (mem s select_all)) select))
    by (rewrite E; now left).
  apply filter_In in Hs. destruct Hs as [Hin Hs].
  rewrite (Hknown s Hin) in Hs. discriminate.
Qed.

(** The arrays that lines 288-307 append for a valid side, concatenated:
    the head and torso measurements, the pinna sizes and angles of the
    left ear, those of the right ear, the weight, the age and the code of
    the sex, each one only when its name is selected. *)
Lemma select_data_fields (row : subject) (side : string) (select : list string) :
  mem side ["left"; "right"; "both"]%string = true ->
  let selected name := existsb (String.eqb name) select in
  let left := String.eqb side "left" || String.eqb side "both" in
  let right := String.eqb side "right" || String.eqb side "both" in
  concat (select_data row side select)
  = (if selected "head-torso"%string then X row else [])
    ++ (if left && selected "pinna-size"%string then firstn 8 (D row) else [])
    ++ (if left && selected "pinna-angle"%string then firstn 2 (theta row) else [])
    ++ (if right && selected "pinna-size"%string then skipn 8 (D row) else [])
    ++ (if right && selected "pinna-angle"%string then skipn 2 (theta row) else [])
    ++ (if selected "weight"%string then [WeightKilograms row] else [])
    ++ (if selected "age"%string then [age row] else [])
    ++ (if selected "sex"%string
        then [if String.eqb (sex row) "M" then Num 0
              else if String.eqb (sex row) "F" then Num 1 else NaN]
        else []).
Proof.
  intros Hside selected left right. subst selected left right. cbv beta.
  apply mem_true_iff in Hside. simpl in Hside.
  unfold select_data.
  change (fun name => existsb (String.eqb name) select) with (fun name => mem name select).
  repeat match goal with
         | |- context [existsb (String.eqb ?name) select] =>
             change (existsb (String.eqb name) select) with (mem name select)
         end.
  generalize (mem "head-torso" select), (mem "pinna-size" select),
    (mem "pinna-angle" select), (mem "weight" select), (mem "age" select),
    (mem "sex" select).
  intros b1 b2 b3 b4 b5 b6.
  destruct Hside as [<-|[<-|[<-|[]]]];
    destruct b1, b2, b3, b4, b5, b6; reflexivity.
Qed.

(** C9: with a valid side and a selection of known names, the lookup in a
    table of one subject raises the 'no anthropomorphic measurements'
    error for every id, the id of the stored subject included.  In every
    table, an id that no subject has raises that error.  In a table that
    does not hold exactly one subject, for an id stored once and a
    non-empty selection, the lookup raises the 'no data available' error
    when every selected field is NaN and returns the selected fields cast
    to the dtype otherwise: the head and torso measurements, the sizes and
    angles of the left pinna, those of the right pinna, the weight, the
    age and the sex as 0, 1 or NaN, in that order. *)
Theorem anthropomorphic_data_lookup
    (cast : Q -> Q) (anth : list subject) (subject_id : Z)
    (side : string) (select : selection) :
  mem side ["left"; "right"; "both"]%string = true ->
  forallb (fun s => mem s select_all) (selected_names select) = true ->
  (length anth = 1 ->
   anthropomorphic_data cast anth subject_id (Some side) select
   = Raise (ValueError NoMeasurements)) /\
  ((forall row, In row anth -> id row <> subject_id) ->
   anthropomorphic_data cast anth subject_id (Some side) select
   = Raise (ValueError NoMeasurements)) /\
  (forall i row,
     length anth <> 1 ->
     selected_names select <> [] ->
     nth_error anth i = Some row -> id row = subject_id ->
     (forall i' row', nth_error anth i' = Some row' -> id row' = subject_id -> i' = i) ->
     let selected name := existsb (String.eqb name) (selected_names select) in
     let left := String.eqb side "left" || String.eqb side "both" in
     let right := String.eqb side "right" || String.eqb side "both" in
     let fields :=
       (if selected "head-torso"%string then X row else [])
       ++ (if left && selected "pinna-size"%string then firstn 8 (D row) else [])
       ++ (if left && selected "pinna-angle"%string then firstn 2 (theta row) else [])
       ++ (if right && selected "pinna-size"%string then skipn 8 (D row) else [])
       ++ (if right && selected "pinna-angle"%string then skipn 2 (theta row) else [])
       ++ (if selected "weight"%string then [WeightKilograms row] else [])
       ++ (if selected "age"%string then [age row] else [])
       ++ (if selected "sex"%string
           then [if String.eqb (sex row) "M" then Num 0
                 else if String.eqb (sex row) "F" then Num 1 else NaN]
           else []) in
     (forallb isnan fields = true ->
      anthropomorphic_data cast anth subject_id (Some side) select
      = Raise (ValueError NoDataAvailable)) /\
     (forallb isnan fields = false ->
      anthropomorphic_data cast anth subject_id (Some side) select
      = Ok (map (astype_measurement cast) fields))).
Proof.
  intros Hside Hknown.
  pose proof (unknown_select_empty _ Hknown) as Hunknown.
  split; [|split].
  - intros Hlen. destruct anth as [|row [|row' anth]]; try discriminate Hlen.
    unfold anthropomorphic_data. cbv zeta. rewrite Hside, Hunknown. reflexivity.
  - intros Habsent.
    unfold anthropomorphic_data. cbv zeta. rewrite Hside, Hunknown. cbn [negb].
    now rewrite subject_idx_absent.
  - intros i row Hlen Hne Hrow Hid Huniq.
    pose proof (select_data_fields row side (selected_names select) Hside) as Efields.
    cbv zeta beta in Efields. cbv zeta beta.
    unfold anthropomorphic_data. cbv zeta. rewrite Hside, Hunknown. cbn [negb].
    rewrite (subject_idx_stored_once anth subject_id i row Hlen Hrow Hid Huniq).
    rewrite Hrow. unfold collect, hstack.
    rewrite (select_data_not_empty row side _ Hside Hknown Hne). cbn [bind].
    rewrite isnan_astype, Efields.
    split; intros ->; reflexivity.
Qed.

(** A table of one subject, asked for the weight of its subject; and a
    table of two subjects, the second without any measurement. *)
Lemma anthropomorphic_data_lookup_witness :
  let one :=
    [{| id := 3; X := [Num 1]; D := []; theta := [];
        WeightKilograms := Num 70; age := Num 30; sex := "F" |}] in
  let anth :=
    [{| id := 3; X := [Num 1]; D := []; theta := [];
        WeightKilograms := Num 70; age := Num 30; sex := "F" |};
     {| id := 8; X := [NaN]; D := []; theta := [];
        WeightKilograms := NaN; age := NaN; sex := "M" |}] in
  anthropomorphic_data (fun q => q) one 3 (Some "left"%string) (SelectOne "weight")
  = Raise (ValueError NoMeasurements) /\
  anthropomorphic_data (fun q => q) anth 5 (Some "left"%string) (SelectOne "weight")
  = Raise (ValueError NoMeasurements) /\
  anthropomorphic_data (fun q => q) anth 8 (Some "left"%string) (SelectOne "weight")
  = Raise (ValueError NoDataAvailable) /\
  anthropomorphic_data (fun q => q) anth 3 (Some "left"%string) (SelectOne "weight")
  = Ok [Num 70].
Proof.
  intros one anth.
  assert (Hne : selected_names (SelectOne "weight") <> []) by discriminate.
  assert (Hlen : length anth <> 1) by discriminate.
  split; [|split; [|split]].
  - apply (proj1 (anthropomorphic_data_lookup (fun q => q) one 3 "left"
                    (SelectOne "weight") eq_refl eq_refl)).
    reflexivity.
  - apply (proj1 (proj2 (anthropomorphic_data_lookup (fun q => q) anth 5 "left"
                           (SelectOne "weight") eq_refl eq_refl))).
    intros row [<-|[<-|[]]]; discriminate.
  - refine (proj1 (proj2 (proj2 (anthropomorphic_data_lookup (fun q => q) anth 8 "left"
                                   (SelectOne "weight") eq_refl eq_refl))
                         1 _ Hlen Hne eq_refl eq_refl _) eq_refl).
    intros [|[|[|i']]] row' H E; trivial; simpl in H;
      try discriminate; injection H as <-; discriminate.
  - refine (proj2 (proj2 (proj2 (anthropomorphic_data_lookup (fun q => q) anth 3 "left"
                                   (SelectOne "weight") eq_refl eq_refl))
                         0 _ Hlen Hne eq_refl eq_refl _) eq_refl).
    intros [|[|[|i']]] row' H E; trivial; simpl in H;
      try discriminate; injection H as <-; discriminate.
Defined.

(** ** Signal Materializer: arguments *)

Lemma canonical_side_suffix (side : string) :
  endswith (canonical_side side) "left" = endswith side "left".
Proof.
  unfold canonical_side.
  destruct (startswith side "mirrored"), (endswith side "left"); reflexivity.
Qed.

Lemma canonical_side_prefix (side : string) :
  startswith (canonical_side side) "mirrored" = startswith side "mirrored".
Proof.
  unfold canonical_side.
  destruct (startswith side "mirrored"), (endswith side "left"); reflexivity.
Qed.

Lemma magnitude_is_no_other_domain (domain : string) :
  startswith domain "magnitude" = true ->
  String.eqb domain "time" = false /\
  String.eqb domain "complex" = false.
Proof.
  intros H. split.
  - destruct (String.eqb_spec domain "time") as [->|]; [discriminate H | reflexivity].
  - destruct (String.eqb_spec domain "complex") as [->|]; [discriminate H | reflexivity].
Qed.

Lemma transform_canonical_domain (T : Type) (S : SignalOps T) (Db : DecibelOps T)
    (domain : string) (L : nat) (mask : mask3) (a : array4 T) :
  transform (canonical_domain domain) L mask a = transform domain L mask a.
Proof.
  unfold canonical_domain.
  destruct (startswith domain "magnitude") eqn:Hm; trivial.
  destruct (magnitude_is_no_other_domain domain Hm) as [Ht Hc].
  unfold transform. rewrite Ht, Hc, Hm.
  destruct (endswith domain "_db"); reflexivity.
Qed.

Lemma canonical_domain_complex (domain : string) :
  String.eqb (canonical_domain domain) "complex" = String.eqb domain "complex".
Proof.
  unfold canonical_domain.
  destruct (startswith domain "magnitude") eqn:Hm; trivial.
  destruct (magnitude_is_no_other_domain domain Hm) as [_ ->].
  destruct (endswith domain "_db"); reflexivity.
Qed.

(** C2, as the code has it: the side is not validated.  Every string is
    accepted; the left channel is read when it ends with 'left' and the
    right one otherwise, and the result is mirrored when it starts with
    'mirrored', so that a call returns what the call with the corresponding
    known side returns.  A domain string that starts with 'magnitude' is
    accepted as well, as magnitude_db when it ends with '_db' and as
    magnitude otherwise. *)
Theorem hrir_side_and_magnitude_accepted
    (T : Type) (S : SignalOps T) (Db : DecibelOps T)
    (self : datapoint) (file : sofa_file T) (side domain : string)
    (row_indices column_indices : option (list nat)) :
  hrir self file side domain row_indices column_indices
  = hrir self file (canonical_side side) (canonical_domain domain)
         row_indices column_indices.
Proof.
  unfold hrir, hrir_squeezed, read_hrirs.
  rewrite canonical_side_suffix, canonical_side_prefix, canonical_domain_complex.
  destruct (mapM _ (Data_IR file)); trivial. cbn [bind].
  destruct (map_sofa_position_order_to_matrix _); trivial. cbn [bind].
  destruct (scatter _ _ _); trivial. cbn [bind].
  destruct (replicate_pole _ _ 0 _ _); trivial. cbn [bind].
  destruct (replicate_pole _ _ _ _ _); trivial. cbn [bind].
  destruct (resolve_indices _ row_indices); trivial. cbn [bind].
  destruct (resolve_indices _ column_indices); trivial. cbn [bind].
  now rewrite transform_canonical_domain.
Qed.

(** The side 'front' is none of the four known sides; the call returns the
    right-ear responses of the whole grid. *)
Lemma hrir_unknown_side_returns :
  hrir spherical_float32 file_2x2 "front" "time" None None
  = Ok {| shape := [2; 2; 2];
          data := map (fun z => Some (Cast (Sample z)))
                      [11; 12; 13; 14; 15; 16; 17; 18]%Z |}.
Proof. vm_compute. reflexivity. Qed.

(** A domain that only starts with 'magnitude' returns magnitudes. *)
Example hrir_unknown_magnitude_domain_returns :
  hrir spherical_float32 file_2x2 "left" "magnitude_squared" (Some [0]) (Some [0])
  = hrir spherical_float32 file_2x2 "left" "magnitude" (Some [0]) (Some [0]) /\
  exists a, hrir spherical_float32 file_2x2 "left" "magnitude_squared" (Some [0]) (Some [0])
            = Ok a.
Proof. split; [|eexists]; vm_compute; reflexivity. Qed.

(** Any other unknown domain leaves the [ValueError] instance of line 235
    in [hrir]; nothing is raised until line 238 asks it for [astype]. *)
Example hrir_unknown_domain_attribute_error :
  hrir spherical_float32 file_2x2 "left" "loudness" None None = Raise AttributeError.
Proof. vm_compute. reflexivity. Qed.

(** ** Signal Materializer: squeezing *)

(** C7, as the code has it: after the cast, [np.squeeze] removes every axis
    of length one of the (rows, columns, radii, samples or bins) array, the
    last axis included when the responses have one sample. *)
Theorem hrir_squeezes_every_unit_axis
    (T : Type) (S : SignalOps T) (Db : DecibelOps T)
    (self : datapoint) (file : sofa_file T) (side domain : string)
    (row_indices column_indices : option (list nat))
    (g : grid) (rows : list nat) (a : ndarray (option T)) :
  hrir_squeezed self file side domain row_indices column_indices = Ok (g, rows, a) ->
  exists columns,
    resolve_indices (length (unique_row_angles g)) row_indices = Ok rows /\
    resolve_indices (length (unique_column_angles g)) column_indices = Ok columns /\
    shape a = filter (fun n => negb (n =? 1))
                [length rows; length columns; length (unique_radii g);
                 if String.eqb domain "time" then dim_N file else dim_N file / 2 + 1] /\
    forall n, In n (shape a) -> n <> 1.
Proof.
  unfold hrir_squeezed. intros H.
  bind_ok H as hrirs Eh. bind_ok H as g' Eg. bind_ok H as m0 E0.
  bind_ok H as m1 E1. bind_ok H as m2 E2.
  bind_ok H as rows' Er. bind_ok H as columns Ec. bind_ok H as value Et.
  destruct (_ && _); [discriminate H|].
  destruct value as [last_axis arr|]; [|discriminate H].
  injection H as <- <- <-.
  exists columns. split; [assumption|]. split; [assumption|].
  assert (Hlast : last_axis =
                  if String.eqb domain "time" then dim_N file else dim_N file / 2 + 1).
  { unfold transform in Et.
    destruct (String.eqb domain "time"); [now injection Et as <- _|].
    destruct (dim_N file =? 0); [discriminate Et|].
    destruct (String.eqb domain "complex"); [now injection Et as <- _|].
    destruct (startswith domain "magnitude").
    - destruct (endswith domain "_db"); now injection Et as <- _.
    - destruct (String.eqb domain "phase"); [now injection Et as <- _ | discriminate Et]. }
  split.
  - unfold squeeze. cbn [shape]. now rewrite Hlast.
  - intros n Hn. unfold squeeze in Hn. cbn [shape] in Hn.
    apply filter_In in Hn. destruct Hn as [_ Hn].
    apply negb_true_iff, Nat.eqb_neq in Hn. exact Hn.
Qed.

(** With one sample per response the four-dimensional (2, 2, 1, 1) array
    is returned with the shape (2, 2). *)
Lemma hrir_squeezes_every_unit_axis_witness :
  exists columns,
    resolve_indices 2 None = Ok [0; 1] /\
    resolve_indices 2 None = Ok columns /\
    [2; 2] = filter (fun n => negb (n =? 1)) [2; length columns; 1; 1] /\
    forall n, In n [2; 2] -> n <> 1.
Proof.
  apply (hrir_squeezes_every_unit_axis sym _ _ spherical_float32 file_2x2_one_sample
           "left" "time" None None
           {| unique_row_angles := [0; 90]%Q;
              unique_column_angles := [0; 45]%Q;
              unique_radii := [1]%Q;
              position_mask := [[[false]; [false]]; [[false]; [false]]];
              position_map := [(0, 0, 0); (0, 1, 0); (1, 0, 0); (1, 1, 0)];
              single_start_mask := None;
              start_pole_idx := 0;
              single_end_mask := None;
              end_pole_idx := 0 |}
           [0; 1]
           {| shape := [2; 2];
              data := map (fun z => Some (Cast (Sample z))) [1; 3; 5; 7]%Z |}).
  vm_compute. reflexivity.
Defined.

(** The axis of the samples has length one and is removed: the result has
    two axes, and not the shape (2, 2, 1) that keeps it. *)
Lemma hrir_squeeze_drops_sample_axis :
  exists g rows a,
    hrir_squeezed spherical_float32 file_2x2_one_sample "left" "time" None None
    = Ok (g, rows, a) /\
    dim_N file_2x2_one_sample = 1 /\
    shape a = [2; 2] /\
    shape a <> [2; 2; 1].
Proof.
  eexists _, _, _. split; [vm_compute; reflexivity|].
  split; [reflexivity|]. split; [reflexivity | discriminate].
Qed.

(** ** Signal Materializer: mirroring *)

(** With every row selected, the mirrored result of the spherical layout
    has the rows in reverse order, and that of the interaural layout has
    the columns in reverse order. *)
Example hrir_mirrored_whole_grid :
  hrir spherical_float32 file_2x2 "mirrored-left" "time" None None
  = Ok {| shape := [2; 2; 2];
          data := map (fun z => Some (Cast (Sample z))) [5; 6; 7; 8; 1; 2; 3; 4]%Z |} /\
  hrir interaural_float32 file_2x2 "mirrored-left" "time" None None
  = Ok {| shape := [2; 2; 2];
          data := map (fun z => Some (Cast (Sample z))) [3; 4; 1; 2; 7; 8; 5; 6]%Z |}.
Proof. split; vm_compute; reflexivity. Qed.

(** C6 at a selection of one row.  The axis of the rows has been squeezed
    away when the result is mirrored, so that the first axis holds the
    columns and the second the samples: the spherical layout returns the
    columns (elevations 0 and 45) in reverse order, and the interaural
    layout returns every response with its samples in reverse order. *)
Theorem hrir_mirrored_one_row :
  hrir spherical_float32 file_2x2 "left" "time" (Some [0]) None
  = Ok {| shape := [2; 2];
          data := map (fun z => Some (Cast (Sample z))) [1; 2; 3; 4]%Z |} /\
  hrir spherical_float32 file_2x2 "mirrored-left" "time" (Some [0]) None
  = Ok {| shape := [2; 2];
          data := map (fun z => Some (Cast (Sample z))) [3; 4; 1; 2]%Z |} /\
  hrir interaural_float32 file_2x2 "mirrored-left" "time" (Some [0]) None
  = Ok {| shape := [2; 2];
          data := map (fun z => Some (Cast (Sample z))) [2; 1; 4; 3]%Z |}.
Proof. repeat split; vm_compute; reflexivity. Qed.

(** One row and one column of the interaural layout leave a
    one-dimensional array, which [np.fliplr] refuses. *)
Example hrir_mirrored_one_cell_interaural :
  hrir interaural_float32 file_2x2 "mirrored-left" "time" (Some [0]) (Some [0])
  = Raise (ValueError InputTooFewDims).
Proof. vm_compute. reflexivity. Qed.

(** ** Mirroring of an array given by the blocks of its first axes *)

Lemma chunks_concat (A : Type) (size : nat) (blocks : list (list A)) :
  Forall (fun b => length b = size) blocks ->
  chunks size (length blocks) (concat blocks) = blocks.
Proof.
  induction 1 as [|b blocks Hb Hblocks IH]; simpl; trivial.
  rewrite firstn_app, skipn_app, Hb, Nat.sub_diag, firstn_all2, skipn_all2 by lia.
  simpl. now rewrite app_nil_r, IH.
Qed.

(** [np.flipud] reverses the order of the blocks of the first axis. *)
Lemma flipud_blocks (A : Type) (rest : list nat) (blocks : list (list A)) :
  Forall (fun b => length b = prod rest) blocks ->
  flipud {| shape := length blocks :: rest; data := concat blocks |}
  = Ok {| shape := length blocks :: rest; data := concat (rev blocks) |}.
Proof.
  intros H. unfold flipud. cbn [shape data]. now rewrite chunks_concat.
Qed.

(** [np.fliplr] reverses, in every block of the first axis, the order of the
    blocks of the second axis. *)
Lemma fliplr_blocks (A : Type) (m : nat) (rest : list nat) (rows : list (list (list A))) :
  Forall (fun row => length row = m /\ Forall (fun b => length b = prod rest) row) rows ->
  fliplr {| shape := length rows :: m :: rest; data := concat (map (@concat A) rows) |}
  = Ok {| shape := length rows :: m :: rest;
          data := concat (map (fun row => concat (rev row)) rows) |}.
Proof.
  intros H. unfold fliplr. cbn [shape data].
  assert (Hlen : Forall (fun b => length b = m * prod rest) (map (@concat A) rows)).
  { apply Forall_forall. intros b Hb. apply in_map_iff in Hb.
    destruct Hb as (row & <- & Hrow). rewrite Forall_forall in H.
    destruct (H row Hrow) as [<- Hblocks].
    clear -Hblocks. induction Hblocks as [|b row Hb _ IH]; simpl; trivial.
    rewrite length_app, IH, Hb. reflexivity. }
  rewrite <- (length_map (@concat A) rows) at 2.
  rewrite (chunks_concat _ _ _ Hlen), map_map.
  do 3 f_equal. apply map_ext_in. intros row Hrow.
  rewrite Forall_forall in H. destruct (H row Hrow) as [<- Hblocks].
  now rewrite chunks_concat.
Qed.

(** X22: the spherical mirroring of an array of at least two axes whose first
    axis is the axis of the rows: the rows are reversed, the first row
    staying in place when its azimuth is close to -180. *)
Lemma mirror_spherical_blocks (A : Type) (self : datapoint) (first : Q) (others : list Q)
    (n : nat) (rest : list nat) (block : list A) (blocks : list (list A)) :
  coordinates self = Spherical ->
  Forall (fun b => length b = prod (n :: rest)) (block :: blocks) ->
  mirror self (first :: others)
         {| shape := length (block :: blocks) :: n :: rest;
            data := concat (block :: blocks) |}
  = Ok {| shape := length (block :: blocks) :: n :: rest;
          data := if isclose first (-180)
                  then block ++ concat (rev blocks)
                  else concat (rev (block :: blocks)) |}.
Proof.
  intros Hs H. unfold mirror. rewrite Hs.
  destruct (isclose first (-180)).
  - unfold slice0. cbn [shape data bind].
    rewrite (chunks_concat _ _ _ H). cbn [firstn skipn concat length].
    rewrite app_nil_r.
    inversion H as [|? ? Hb Hblocks]; subst.
    rewrite (flipud_blocks _ (n :: rest) blocks Hblocks). cbn [bind].
    unfold row_stack, atleast_2d. cbn [shape data].
    replace (shape_eqb (n :: rest) (n :: rest)) with true; [reflexivity|].
    clear. generalize (n :: rest). intros l.
    induction l as [|x l IH]; simpl; trivial. now rewrite Nat.eqb_refl.
  - apply (flipud_blocks _ (n :: rest) (block :: blocks) H).
Qed.

(** X23: the interaural mirroring of an array whose first two axes are the rows
    and the columns: the columns of every row are reversed. *)
Lemma mirror_interaural_blocks (A : Type) (self : datapoint) (azimuths : list Q)
    (m : nat) (rest : list nat) (rows : list (list (list A))) :
  coordinates self = Interaural ->
  Forall (fun row => length row = m /\ Forall (fun b => length b = prod rest) row) rows ->
  mirror self azimuths
         {| shape := length rows :: m :: rest; data := concat (map (@concat A) rows) |}
  = Ok {| shape := length rows :: m :: rest;
          data := concat (map (fun row => concat (rev row)) rows) |}.
Proof.
  intros Hs H. unfold mirror. rewrite Hs. now apply fliplr_blocks.
Qed.

(** The azimuths 180 (stored as -180), -90, 0 and 90 in one column: the
    mirrored result holds the rows of -180, 90, 0 and -90, in this order. *)
Example hrir_mirrored_first_row_fixed :
  option_map unique_row_angles
    (match map_sofa_position_order_to_matrix (SourcePosition file_4x1) with
     | Ok g => Some g
     | Raise _ => None
     end) = Some [-180; -90; 0; 90]%Q /\
  hrir spherical_float32 file_4x1 "left" "time" None None
  = Ok {| shape := [4; 2];
          data := map (fun z => Some (Cast (Sample z))) [1; 2; 3; 4; 5; 6; 7; 8]%Z |} /\
  hrir spherical_float32 file_4x1 "mirrored-left" "time" None None
  = Ok {| shape := [4; 2];
          data := map (fun z => Some (Cast (Sample z))) [1; 2; 7; 8; 5; 6; 3; 4]%Z |}.
Proof. repeat split; vm_compute; reflexivity. Qed.

(** ** Signal Materializer: poles *)

(** One radius: every row has the response of the measured pole. *)
Example hrir_pole_one_radius :
  hrir spherical_float32 file_pole "left" "time" None (Some [1])
  = Ok {| shape := [2; 3];
          data := map (fun z => Some (Cast (Sample z))) [4; 5; 6; 4; 5; 6]%Z |}.
Proof. vm_compute. reflexivity. Qed.

(** C4 on grids with two radii.  The reconciler marks the pole of radius 1
    as shared, and computes the index of its source row over the flattened
    (rows, radii) slice: for the pole measured in row 1 it is 2, which is
    not a row of the grid, and the materializer stops with an IndexError;
    for the pole measured in row 0 the index is right, and the
    materializer stops because the mask over the radii does not broadcast
    against the (radii, samples) slice of the source row. *)
Theorem hrir_pole_two_radii :
  (exists g,
     map_sofa_position_order_to_matrix (SourcePosition file_pole_at_90_two_radii) = Ok g /\
     length (unique_row_angles g) = 2 /\
     single_end_mask g = Some [true; false] /\
     cell (position_mask g) 0 1 0 = Some false /\
     end_pole_idx g = 2) /\
  (forall side domain row_indices column_indices,
     hrir spherical_float32 file_pole_at_90_two_radii side domain
          row_indices column_indices = Raise IndexError) /\
  (forall side domain row_indices column_indices,
     hrir spherical_float32 file_pole_two_radii side domain
          row_indices column_indices = Raise (ValueError CannotBroadcast)).
Proof.
  split; [|split].
  - eexists. split; [vm_compute; reflexivity|]. repeat split.
  - intros side domain ri ci. unfold hrir, hrir_squeezed, read_hrirs.
    destruct (endswith side "left"); vm_compute; reflexivity.
  - intros side domain ri ci. unfold hrir, hrir_squeezed, read_hrirs.
    destruct (endswith side "left"); vm_compute; reflexivity.
Qed.

(** ** Position Reconciler *)

(** ** Updates of nested lists *)

Lemma length_update_nth (A : Type) (i : nat) (f : A -> A) (l : list A) :
  length (update_nth i f l) = length l.
Proof.
  revert i; induction l as [|x l IH]; intros [|i]; simpl; auto.
Qed.

Lemma nth_error_update_nth (A : Type) (i : nat) (f : A -> A) (l : list A) (i' : nat) :
  nth_error (update_nth i f l) i' =
  if i' =? i then option_map f (nth_error l i') else nth_error l i'.
Proof.
  revert i i'; induction l as [|x l IH]; intros [|i] [|i']; simpl; trivial;
    try apply IH; now destruct (i' =? i).
Qed.

Lemma Forall_update_nth (A : Type) (P : A -> Prop) (i : nat) (f : A -> A) (l : list A) :
  Forall P l -> (forall x, P x -> P (f x)) -> Forall P (update_nth i f l).
Proof.
  intros Hl Hf; revert i; induction Hl as [|x l Hx Hl IH]; intros [|i]; simpl;
    constructor; auto.
Qed.

Lemma Forall_map2 (A B C : Type) (P : C -> Prop) (f : A -> B -> C)
    (a : list A) (b : list B) :
  (forall i x y, nth_error a i = Some x -> nth_error b i = Some y -> P (f x y)) ->
  Forall P (map2 f a b).
Proof.
  revert b; induction a as [|x a IH]; intros [|y b] H; simpl; constructor.
  - apply (H 0); reflexivity.
  - apply IH. intros i x' y' Hx Hy. apply (H (S i)); assumption.
Qed.

Lemma cell_Some (A : Type) (m : list (list (list A))) (i j k : nat) (x : A) :
  cell m i j k = Some x <->
  exists row radii,
    nth_error m i = Some row /\ nth_error row j = Some radii /\ nth_error radii k = Some x.
Proof.
  unfold cell. split.
  - destruct (nth_error m i) as [row|] eqn:Hrow; [|discriminate].
    destruct (nth_error row j) as [radii|] eqn:Hradii; [|discriminate].
    intros H. exists row, radii. auto.
  - intros (row & radii & -> & -> & ->). reflexivity.
Qed.

Lemma cell_in_range (A : Type) (R C K : nat) (m : list (list (list A))) (i j k : nat) :
  mask_shape R C K m -> i < R -> j < C -> k < K -> exists x, cell m i j k = Some x.
Proof.
  intros [HR Hm] Hi Hj Hk. rewrite Forall_forall in Hm.
  destruct (nth_error m i) as [row|] eqn:Hrow.
  2:{ apply nth_error_None in Hrow. lia. }
  destruct (Hm row (nth_error_In _ _ Hrow)) as [HC Hrad].
  destruct (nth_error row j) as [radii|] eqn:Hradii.
  2:{ apply nth_error_None in Hradii. lia. }
  rewrite Forall_forall in Hrad. pose proof (Hrad radii (nth_error_In _ _ Hradii)) as HK.
  destruct (nth_error radii k) as [x|] eqn:Hx.
  2:{ apply nth_error_None in Hx. lia. }
  exists x. apply cell_Some. exists row, radii. auto.
Qed.

Lemma cell_set_cell (A : Type) (m : list (list (list A))) (i j k : nat) (x : A)
    (i' j' k' : nat) :
  cell (set_cell m i j k x) i' j' k' =
  if (i' =? i) && (j' =? j) && (k' =? k)
  then option_map (fun _ => x) (cell m i' j' k')
  else cell m i' j' k'.
Proof.
  unfold cell, set_cell. rewrite nth_error_update_nth.
  destruct (i' =? i), (nth_error m i') as [row|]; simpl; trivial.
  2:{ now destruct (_ && _). }
  rewrite nth_error_update_nth.
  destruct (j' =? j), (nth_error row j') as [radii|]; simpl; trivial.
  2:{ now destruct (k' =? k). }
  rewrite nth_error_update_nth.
  destruct (k' =? k); reflexivity.
Qed.

Lemma mask_shape_set_cell (A : Type) (R C K : nat) (m : list (list (list A)))
    (i j k : nat) (x : A) :
  mask_shape R C K m -> mask_shape R C K (set_cell m i j k x).
Proof.
  intros [HR Hm]. split.
  - unfold set_cell. now rewrite length_update_nth.
  - apply Forall_update_nth; trivial.
    intros row [HC Hrow]. split.
    + now rewrite length_update_nth.
    + apply Forall_update_nth; trivial.
      intros radii HK. now rewrite length_update_nth.
Qed.

Lemma mask_shape_np_full3 (A : Type) (R C K : nat) (b : A) :
  mask_shape R C K (np_full3 R C K b).
Proof.
  unfold np_full3. split; [apply repeat_length|].
  apply Forall_forall. intros row Hrow. apply repeat_spec in Hrow. subst row.
  split; [apply repeat_length|].
  apply Forall_forall. intros radii Hr. apply repeat_spec in Hr. subst radii.
  apply repeat_length.
Qed.

Lemma cell_np_full3 (A : Type) (R C K : nat) (b : A) (i j k : nat) :
  i < R -> j < C -> k < K -> cell (np_full3 R C K b) i j k = Some b.
Proof.
  intros Hi Hj Hk. unfold cell, np_full3.
  rewrite (nth_error_repeat _ Hi), (nth_error_repeat _ Hj). now apply nth_error_repeat.
Qed.

(** ** Scattering the occupied cells *)

Lemma triple_eq_dec (p q : nat * nat * nat) : {p = q} + {p <> q}.
Proof. repeat decide equality. Qed.

Lemma mask_shape_mark_occupied (R C K : nat) (pmap : list (nat * nat * nat)) (m : mask3) :
  mask_shape R C K m -> mask_shape R C K (mark_occupied pmap m).
Proof.
  revert m; induction pmap as [|[[i j] k] pmap IH]; intros m Hm; simpl; trivial.
  apply IH. now apply mask_shape_set_cell.
Qed.

Lemma cell_mark_occupied (pmap : list (nat * nat * nat)) (m : mask3) (i j k : nat) :
  cell (mark_occupied pmap m) i j k =
  if in_dec triple_eq_dec (i, j, k) pmap
  then option_map (fun _ => false) (cell m i j k)
  else cell m i j k.
Proof.
  revert m; induction pmap as [|[[i0 j0] k0] pmap IH]; intros m; simpl; trivial.
  rewrite IH, cell_set_cell.
  destruct (triple_eq_dec (i0, j0, k0) (i, j, k)) as [E|N].
  - injection E as -> -> ->. rewrite !Nat.eqb_refl. simpl.
    destruct (in_dec _ _ _); destruct (cell m i j k); reflexivity.
  - replace ((i =? i0) && (j =? j0) && (k =? k0)) with false.
    + destruct (in_dec _ _ _); reflexivity.
    + symmetry. apply not_true_iff_false. intros H.
      apply andb_true_iff in H. destruct H as [H Hk].
      apply andb_true_iff in H. destruct H as [Hi Hj].
      apply Nat.eqb_eq in Hi, Hj, Hk. subst. now apply N.
Qed.

(** ** Pole columns *)

Lemma length_fold_map2 (A : Type) (f : A -> A -> A) (d : A) (K : nat) (M : list (list A)) :
  Forall (fun r => length r = K) M ->
  length (fold_right (map2 f) (repeat d K) M) = K.
Proof.
  induction 1 as [|r M Hr HM IH]; simpl.
  - apply repeat_length.
  - rewrite length_map2, IH, Hr. apply Nat.min_id.
Qed.

Lemma column_shape (A : Type) (R C K : nat) (m : list (list (list A))) (j : nat) :
  mask_shape R C K m -> j < C ->
  length (column j m) = R /\ Forall (fun r => length r = K) (column j m).
Proof.
  intros [HR Hm] Hj. unfold column. split; [now rewrite length_map|].
  apply Forall_forall. intros radii Hin. apply in_map_iff in Hin.
  destruct Hin as (row & <- & Hrow). rewrite Forall_forall in Hm.
  destruct (Hm row Hrow) as [HC Hrad]. rewrite Forall_forall in Hrad.
  apply Hrad, nth_In. lia.
Qed.

Lemma length_single_mask (K : nat) (s : list (list bool)) :
  Forall (fun r => length r = K) s -> length (single_mask K s) = K.
Proof.
  intros Hs. unfold single_mask. rewrite length_map. apply length_fold_map2.
  apply Forall_forall. intros r Hr. apply in_map_iff in Hr.
  destruct Hr as (r0 & <- & Hr0). rewrite length_map.
  rewrite Forall_forall in Hs. now apply Hs.
Qed.

Lemma resolve_pole_spec (R C K : nat) (angle pole : Q) (j : nat) (m m' : mask3)
    (single : option (list bool)) (idx : nat) :
  mask_shape R C K m -> j < C ->
  resolve_pole K angle pole j m = (m', single, idx) ->
  mask_shape R C K m' /\
  (forall s, single = Some s -> length s = K) /\
  forall i j' k b,
    cell m i j' k = Some b ->
    cell m' i j' k = Some (if (j' =? j) && shared single k then false else b).
Proof.
  intros Hshape Hj. unfold resolve_pole.
  destruct (isclose angle pole).
  2:{ intros [= <- <- <-]. split; trivial. split; [discriminate|].
      intros i j' k b ->. simpl. now rewrite andb_false_r. }
  intros [= <- <- <-].
  destruct (column_shape _ R C K m j Hshape Hj) as [Hlen Hcol].
  pose proof (length_single_mask K _ Hcol) as Hsingle.
  set (single := single_mask K (column j m)) in *.
  destruct Hshape as [HR Hm].
  split; [|split].
  - split.
    + unfold assign_column, where_false. rewrite length_map2, length_map, Hlen, HR.
      apply Nat.min_id.
    + apply Forall_map2. intros i row radii Hrow Hradii.
      rewrite Forall_forall in Hm.
      destruct (Hm row (nth_error_In _ _ Hrow)) as [HC Hrad].
      split; [now rewrite length_update_nth|].
      apply Forall_update_nth; trivial. intros _ _.
      unfold where_false in Hradii. rewrite nth_error_map in Hradii.
      destruct (nth_error (column j m) i) as [old|] eqn:Hold; [|discriminate].
      injection Hradii as <-. rewrite length_map2, Hsingle.
      rewrite Forall_forall in Hcol. rewrite (Hcol old (nth_error_In _ _ Hold)).
      apply Nat.min_id.
  - now intros s [= <-].
  - intros i j' k b Hcell. apply cell_Some in Hcell.
    destruct Hcell as (row & radii & Hrow & Hradii & Hb).
    apply cell_Some. unfold assign_column, where_false, column.
    exists (update_nth j (fun _ => map2 (fun (c b : bool) => if c then false else b)
                                      single (nth j row [])) row).
    rewrite nth_error_map2, Hrow, !nth_error_map, Hrow. cbn [option_map].
    rewrite nth_error_update_nth, Hradii.
    destruct (j' =? j) eqn:Ej.
    + apply Nat.eqb_eq in Ej. subst j'. cbn [option_map andb].
      eexists. split; [reflexivity|]. split; [reflexivity|].
      rewrite (nth_error_nth _ _ [] Hradii), nth_error_map2, Hb.
      assert (Hk : k < length single).
      { rewrite Hsingle. rewrite Forall_forall in Hm.
        destruct (Hm row (nth_error_In _ _ Hrow)) as [_ Hrad].
        rewrite Forall_forall in Hrad.
        rewrite <- (Hrad radii (nth_error_In _ _ Hradii)).
        eapply nth_error_lt; eauto. }
      rewrite (nth_error_nth' _ false Hk). reflexivity.
    + exists radii. cbn [andb]. auto.
Qed.

(** ** Unique values and their indices *)

Lemma first_true_spec (m : list bool) (i : nat) :
  first_true m = Some i ->
  nth_error m i = Some true /\ forall i', i' < i -> nth_error m i' = Some false.
Proof.
  revert i; induction m as [|b m IH]; intros i; simpl; [discriminate|].
  destruct b.
  - intros [= <-]. split; trivial. lia.
  - destruct (first_true m) as [i0|]; [|discriminate].
    intros [= <-]. destruct (IH i0 eq_refl) as [H1 H2]. split; trivial.
    intros [|i'] Hi'; simpl; trivial. apply H2. lia.
Qed.

Lemma first_true_exists (m : list bool) (i : nat) :
  nth_error m i = Some true -> exists i0, first_true m = Some i0.
Proof.
  revert i; induction m as [|b m IH]; intros [|i] H; simpl in *; try discriminate.
  - injection H as ->. eauto.
  - destruct b; eauto. destruct (IH i H) as [i0 ->]. simpl. eauto.
Qed.

Lemma argmax_spec (m : list bool) (i : nat) :
  nth_error m i = Some true -> nth_error m (argmax m) = Some true.
Proof.
  intros H. unfold argmax. destruct (first_true_exists m i H) as [i0 E].
  rewrite E. now apply first_true_spec.
Qed.

Lemma insert_unique_mem (x y : Q) (l : list Q) :
  Qmem y (insert_unique x l) <-> (x == y)%Q \/ Qmem y l.
Proof.
  unfold Qmem. induction l as [|z l IH]; simpl.
  - split.
    + intros (y' & [<-|[]] & E). now left.
    + intros [E|(y' & [] & _)]. exists x. auto.
  - destruct (Qcompare_spec x z) as [E|L|G]; simpl.
    + split; [auto|]. intros [Exy|H]; trivial.
      exists z. split; [now left|]. now rewrite <- E.
    + split.
      * intros (y' & [<-|Hin] & E); [now left | right; eauto].
      * intros [E|(y' & Hin & E)]; [exists x | exists y']; simpl; auto.
    + split.
      * intros (y' & [<-|Hin] & E).
        -- right. exists z. simpl. auto.
        -- destruct (proj1 IH (ex_intro _ y' (conj Hin E))) as [E'|(y'' & Hin' & E')];
             [now left | right; eauto].
      * intros [E|(y' & [<-|Hin] & E)].
        -- destruct (proj2 IH (or_introl E)) as (y' & Hin & E'). exists y'. auto.
        -- exists z. auto.
        -- destruct (proj2 IH (or_intror (ex_intro _ y' (conj Hin E)))) as (y'' & Hin' & E').
           exists y''. auto.
Qed.

Lemma np_unique_mem (y : Q) (l : list Q) : Qmem y (np_unique l) <-> Qmem y l.
Proof.
  induction l as [|x l IH]; simpl; [reflexivity|].
  rewrite insert_unique_mem, IH. unfold Qmem. split.
  - intros [E|(y' & Hin & E)]; [exists x | exists y']; simpl; auto.
  - intros (y' & [<-|Hin] & E); [now left | right; eauto].
Qed.

Lemma insert_unique_sorted (x : Q) (l : list Q) :
  StronglySorted Qlt l -> StronglySorted Qlt (insert_unique x l).
Proof.
  induction 1 as [|z l Hl IH Hz]; simpl.
  - repeat constructor.
  - destruct (Qcompare_spec x z) as [E|L|G].
    + now constructor.
    + constructor; [now constructor|].
      constructor; trivial.
      rewrite Forall_forall in *. intros y Hy. eapply Qlt_trans; eauto.
    + constructor; trivial.
      rewrite Forall_forall in *. intros y Hy.
      assert (Hmem : Qmem y (insert_unique x l)) by (exists y; split; [trivial | reflexivity]).
      apply insert_unique_mem in Hmem.
      destruct Hmem as [E|(y' & Hin & E)].
      * now rewrite <- E.
      * rewrite <- E. auto.
Qed.

Lemma np_unique_sorted (l : list Q) : StronglySorted Qlt (np_unique l).
Proof.
  induction l as [|x l IH]; simpl; [constructor | now apply insert_unique_sorted].
Qed.

Lemma sorted_nth_lt (l : list Q) (i i' : nat) (x x' : Q) :
  StronglySorted Qlt l -> i < i' ->
  nth_error l i = Some x -> nth_error l i' = Some x' -> (x < x')%Q.
Proof.
  intros Hl; revert i i'; induction Hl as [|z l Hl IH Hz]; intros [|i] [|i'] Hlt Hx Hx';
    simpl in *; try discriminate; try lia.
  - injection Hx as <-. rewrite Forall_forall in Hz. apply Hz.
    eapply nth_error_In; eauto.
  - apply (IH i i'); trivial. lia.
Qed.

(** In a sorted array of unique values, equal numbers have equal index. *)
Lemma sorted_nth_inj (l : list Q) (i i' : nat) (x x' : Q) :
  StronglySorted Qlt l ->
  nth_error l i = Some x -> nth_error l i' = Some x' -> (x == x')%Q -> i = i'.
Proof.
  intros Hl Hx Hx' E.
  destruct (Nat.lt_trichotomy i i') as [L|[->|L]]; trivial; exfalso.
  - pose proof (sorted_nth_lt l i i' x x' Hl L Hx Hx') as H. rewrite E in H.
    now apply Qlt_irrefl in H.
  - pose proof (sorted_nth_lt l i' i x' x Hl L Hx' Hx) as H. rewrite E in H.
    now apply Qlt_irrefl in H.
Qed.

(** [np.argmax(x == unique)] finds the value. *)
Lemma index_of_spec (x : Q) (l : list Q) :
  In x l ->
  exists y, nth_error (np_unique l) (index_of x (np_unique l)) = Some y /\ (y == x)%Q.
Proof.
  intros Hin.
  assert (Hmem : Qmem x (np_unique l))
    by (apply np_unique_mem; exists x; split; [trivial | reflexivity]).
  destruct Hmem as (y & Hy & E).
  apply In_nth_error in Hy. destruct Hy as [i Hi].
  assert (Hm : nth_error (map (Qeq_bool x) (np_unique l)) i = Some true).
  { rewrite nth_error_map, Hi. simpl. f_equal. apply Qeq_bool_iff. now symmetry. }
  apply argmax_spec in Hm. unfold index_of.
  rewrite nth_error_map in Hm.
  destruct (nth_error (np_unique l) (argmax _)) as [y'|]; [|discriminate].
  exists y'. split; trivial. injection Hm as Hm. apply Qeq_bool_iff in Hm. now symmetry.
Qed.

(** The cells and the mask of a grid the reconciler returns. *)
Lemma reconciler_grid_spec (positions : list (Q * Q * Q)) (g : grid) :
  map_sofa_position_order_to_matrix positions = Ok g ->
  let R := length (unique_row_angles g) in
  let C := length (unique_column_angles g) in
  let K := length (unique_radii g) in
  (length (position_map g) = length positions /\
   forall idx p,
     nth_error positions idx = Some p ->
     exists i j k,
       nth_error (position_map g) idx = Some (i, j, k) /\
       forall i' j' k',
         cell_matches g (quantised p) i' j' k' <-> (i', j', k') = (i, j, k)) /\
  mask_shape R C K (position_mask g) /\
  forall i j k,
    i < R -> j < C -> k < K ->
    (occupied g i j k \/ pole_marked g j k ->
     cell (position_mask g) i j k = Some false) /\
    (~ (occupied g i j k \/ pole_marked g j k) ->
     cell (position_mask g) i j k = Some true).
Proof.
  unfold map_sofa_position_order_to_matrix. intros H.
  set (q := map _ positions) in H.
  set (rows := np_unique (map (fun p => fst (fst p)) q)) in H.
  set (columns := np_unique (map (fun p => snd (fst p)) q)) in H.
  set (radii := np_unique (map snd q)) in H.
  set (pmap := map _ q) in H.
  set (mask0 := mark_occupied pmap _) in H.
  destruct (rev columns) as [|last_column rest] eqn:Hrev; [discriminate H|].
  destruct (resolve_pole _ last_column 90 _ mask0)
    as [[mask1 single_end] end_idx] eqn:Hend.
  destruct (resolve_pole _ (hd 0%Q columns) (-90) 0 mask1)
    as [[mask2 single_start] start_idx] eqn:Hstart.
  injection H as <-. unfold occupied, pole_marked, cell_matches. cbn -[nth_error cell].
  assert (HC : 0 < length columns).
  { destruct columns; [discriminate Hrev | simpl; lia]. }
  assert (Hshape0 : mask_shape (length rows) (length columns) (length radii) mask0).
  { apply mask_shape_mark_occupied, mask_shape_np_full3. }
  assert (HC1 : length columns - 1 < length columns) by lia.
  destruct (resolve_pole_spec _ _ _ _ _ _ _ _ _ _ Hshape0 HC1 Hend)
    as (Hshape1 & _ & Hcell1).
  destruct (resolve_pole_spec _ _ _ _ _ _ _ _ _ _ Hshape1 HC Hstart)
    as (Hshape2 & _ & Hcell2).
  split; [split|split]; trivial.
  - unfold pmap, q. now rewrite !length_map.
  - intros idx [[a b] r] Hp.
    assert (Hq : nth_error q idx = Some (quantised (a, b, r))).
    { unfold q. rewrite nth_error_map, Hp. reflexivity. }
    set (a' := wrap_closed_open_interval a (-180) 180) in *.
    change (quantised (a, b, r)) with (a', b, r) in *.
    assert (Ha : In a' (map (fun p => fst (fst p)) q)).
    { apply in_map_iff. exists (a', b, r). split; trivial. eapply nth_error_In; eauto. }
    assert (Hb : In b (map (fun p => snd (fst p)) q)).
    { apply in_map_iff. exists (a', b, r). split; trivial. eapply nth_error_In; eauto. }
    assert (Hr : In r (map snd q)).
    { apply in_map_iff. exists (a', b, r). split; trivial. eapply nth_error_In; eauto. }
    destruct (index_of_spec _ _ Ha) as (x & Hx & Ex).
    destruct (index_of_spec _ _ Hb) as (y & Hy & Ey).
    destruct (index_of_spec _ _ Hr) as (z & Hz & Ez).
    fold rows in Hx. fold columns in Hy. fold radii in Hz.
    exists (index_of a' rows), (index_of b columns), (index_of r radii).
    split.
    + unfold pmap. rewrite nth_error_map, Hq. reflexivity.
    + intros i' j' k'. cbn [fst snd]. split.
      * intros (x' & y' & z' & Hx' & Hy' & Hz' & Ex' & Ey' & Ez').
        f_equal; [f_equal|].
        -- eapply (sorted_nth_inj rows); eauto using np_unique_sorted.
           now rewrite Ex', Ex.
        -- eapply (sorted_nth_inj columns); eauto using np_unique_sorted.
           now rewrite Ey', Ey.
        -- eapply (sorted_nth_inj radii); eauto using np_unique_sorted.
           now rewrite Ez', Ez.
      * intros [= -> -> ->]. exists x, y, z. auto 10.
  - intros i j k Hi Hj Hk.
    destruct (cell_in_range _ _ _ _ mask0 i j k Hshape0 Hi Hj Hk) as [b0 Hb0].
    pose proof (Hcell1 _ _ _ _ Hb0) as Hb1.
    pose proof (Hcell2 _ _ _ _ Hb1) as Hb2.
    rewrite Hb2.
    unfold mask0 in Hb0. rewrite cell_mark_occupied, cell_np_full3 in Hb0 by assumption.
    destruct (in_dec triple_eq_dec (i, j, k) pmap) as [Hocc|Hocc];
      injection Hb0 as <-;
      destruct (Nat.eqb_spec j (length columns - 1)), (shared single_end k),
               (Nat.eqb_spec j 0), (shared single_start k);
      cbn [andb];
      (split;
       [ intros Hp; first [reflexivity | exfalso; intuition (congruence || lia)]
       | intros Hn; first [reflexivity | exfalso; apply Hn; intuition (congruence || lia)] ]).
Qed.

Lemma insert_unique_not_nil (x : Q) (l : list Q) : insert_unique x l <> [].
Proof.
  destruct l as [|y l]; simpl; [discriminate|].
  destruct (x ?= y)%Q; discriminate.
Qed.

(** The reconciler returns a grid for every file with a measurement. *)
Lemma reconciler_returns (positions : list (Q * Q * Q)) :
  positions <> [] -> exists g, map_sofa_position_order_to_matrix positions = Ok g.
Proof.
  intros Hne. unfold map_sofa_position_order_to_matrix.
  destruct positions as [|p positions]; [congruence|].
  set (q := map _ (p :: positions)).
  set (columns := np_unique (map (fun p => snd (fst p)) q)).
  assert (Hcol : columns <> []) by apply insert_unique_not_nil.
  destruct (rev columns) as [|last_column rest] eqn:Hrev.
  - apply (f_equal (@rev Q)) in Hrev. rewrite rev_involutive in Hrev. contradiction.
  - destruct (resolve_pole _ last_column 90 _ _) as [[mask1 single_end] end_idx].
    destruct (resolve_pole _ _ (-90) 0 mask1) as [[mask2 single_start] start_idx].
    eexists. reflexivity.
Qed.

(** ** Poles of a grid with one radius *)

Lemma count_present_one_radius (s : list (list bool)) :
  Forall (fun r => length r = 1) s ->
  fold_right (map2 Nat.add) (repeat 0 1)
             (map (map (fun b : bool => if b then 0 else 1)) s)
  = [length (filter negb (concat s))].
Proof.
  induction 1 as [|r s Hr Hs IH]; trivial.
  destruct r as [|b [|? ?]]; try discriminate Hr.
  cbn [map fold_right concat app]. rewrite IH. destruct b; reflexivity.
Qed.

Lemma nth_error_concat_singletons (A : Type) (s : list (list A)) (i : nat) :
  Forall (fun r => length r = 1) s ->
  nth_error (concat s) i =
  match nth_error s i with
  | Some r => nth_error r 0
  | None => None
  end.
Proof.
  intros H; revert i; induction H as [|r s Hr Hs IH]; intros i.
  - now destruct i.
  - destruct r as [|b [|? ?]]; try discriminate Hr.
    destruct i; simpl; trivial; apply IH.
Qed.

(** Exactly one element of [bs] is False, at index [i0]. *)
Lemma only_false (bs : list bool) (i0 : nat) :
  nth_error bs i0 = Some false ->
  (forall i, nth_error bs i = Some false -> i = i0) ->
  length (filter negb bs) = 1 /\ first_true (map negb bs) = Some i0.
Proof.
  revert i0; induction bs as [|b bs IH]; intros i0 H0 Huniq.
  - now destruct i0.
  - destruct i0 as [|i0]; simpl in H0.
    + injection H0 as ->. simpl. split; trivial. f_equal.
      destruct (filter negb bs) as [|x l] eqn:E; trivial. exfalso.
      assert (Hx : In x (filter negb bs)) by (rewrite E; now left).
      apply filter_In in Hx. destruct Hx as [Hx Hneg].
      destruct x; [discriminate Hneg|].
      apply In_nth_error in Hx. destruct Hx as [i Hi].
      specialize (Huniq (S i) Hi). discriminate Huniq.
    + destruct b.
      * destruct (IH i0 H0) as [Hc Hf].
        { intros i Hi. specialize (Huniq (S i) Hi). now injection Huniq. }
        simpl. rewrite Hf. auto.
      * specialize (Huniq 0 eq_refl). discriminate Huniq.
Qed.

Lemma cell_column_one_radius (A : Type) (R C : nat) (m : list (list (list A))) (i j : nat) :
  mask_shape R C 1 m -> j < C ->
  nth_error (concat (column j m)) i = cell m i j 0.
Proof.
  intros Hshape Hj.
  destruct (column_shape _ R C 1 m j Hshape Hj) as [_ Hcol].
  rewrite (nth_error_concat_singletons _ _ _ Hcol).
  unfold column, cell. rewrite nth_error_map.
  destruct (nth_error m i) as [row|] eqn:Hrow; trivial. cbn [option_map].
  destruct Hshape as [_ Hm]. rewrite Forall_forall in Hm.
  destruct (Hm row (nth_error_In _ _ Hrow)) as [HC _].
  rewrite (nth_error_nth' row []) by lia. reflexivity.
Qed.

(** With one radius, a pole column in which exactly one row, [i0], has a
    measurement is recorded as shared, with [i0] as its source row. *)
Lemma resolve_pole_one_radius (R C : nat) (angle pole : Q) (j : nat) (m m' : mask3)
    (single : option (list bool)) (idx i0 : nat) :
  mask_shape R C 1 m -> j < C ->
  isclose angle pole = true ->
  resolve_pole 1 angle pole j m = (m', single, idx) ->
  cell m i0 j 0 = Some false ->
  (forall i, cell m i j 0 = Some false -> i = i0) ->
  single = Some [true] /\ idx = i0.
Proof.
  intros Hshape Hj Hclose H H0 Huniq. unfold resolve_pole in H.
  rewrite Hclose in H. injection H as _ <- <-.
  destruct (column_shape _ R C 1 m j Hshape Hj) as [_ Hcol].
  destruct (only_false (concat (column j m)) i0) as [Hcount Hfirst].
  - now rewrite (cell_column_one_radius _ R C m i0 j Hshape Hj).
  - intros i Hi. apply Huniq.
    now rewrite <- (cell_column_one_radius _ R C m i j Hshape Hj).
  - split.
    + unfold single_mask. rewrite (count_present_one_radius _ Hcol), Hcount. reflexivity.
    + unfold flat_argmax_present, argmax. now rewrite Hfirst.
Qed.

Lemma where_last_repeat (T : Type) (flag : bool) (x y : list T) :
  length x = length y ->
  where_last (repeat flag (length y)) x y = if flag then x else y.
Proof.
  unfold where_last. revert x; induction y as [|b y IH]; intros [|a x] H;
    try discriminate H.
  - now destruct flag.
  - simpl. rewrite IH by (simpl in H; lia). now destruct flag.
Qed.

(** With one radius, the replication of a shared pole writes the response of
    the source row to the pole column of every row, and leaves the matrix
    as it is when the pole is not shared. *)
Lemma replicate_pole_one_radius (T : Type) (R C L : nat) (flag : bool)
    (pole_idx j : nat) (m : array4 T) :
  mask_shape R C 1 m ->
  (forall i j' ir, cell m i j' 0 = Some ir -> length ir = L) ->
  pole_idx < R -> j < C ->
  exists m',
    replicate_pole (Some [flag]) pole_idx j L m = Ok m' /\
    mask_shape R C 1 m' /\
    forall i j', i < R -> j' < C ->
      cell m' i j' 0 = if (j' =? j) && flag then cell m pole_idx j 0 else cell m i j' 0.
Proof.
  intros Hshape HL Hp Hj. unfold replicate_pole.
  destruct (cell_in_range _ R C 1 m pole_idx j 0 Hshape Hp Hj ltac:(lia)) as [src Hsrc].
  pose proof Hsrc as Hsrc'. apply cell_Some in Hsrc'.
  destruct Hsrc' as (prow & pradii & Hprow & Hpradii & Hsrc0).
  rewrite Hprow. unfold where_pole. cbn [length Nat.eqb hd bind].
  eexists. split; [reflexivity|].
  assert (Hone : forall radii : list (list T), length radii = 1 ->
                 exists ir, radii = [ir]).
  { intros [|ir [|? ?]] E; try discriminate E. eauto. }
  destruct Hshape as [HR Hm]. rewrite Forall_forall in Hm.
  assert (Hpr : pradii = [src]).
  { destruct (Hm prow (nth_error_In _ _ Hprow)) as [_ Hrad]. rewrite Forall_forall in Hrad.
    destruct (Hone pradii (Hrad pradii (nth_error_In _ _ Hpradii))) as [ir ->].
    simpl in Hsrc0. now injection Hsrc0 as ->. }
  rewrite (nth_error_nth _ _ [] Hpradii), Hpr.
  assert (Hslice : forall i row,
            nth_error m i = Some row ->
            exists tgt, nth j row [] = [tgt] /\ nth_error row j = Some [tgt] /\
                        length tgt = L).
  { intros i row Hrow. destruct (Hm row (nth_error_In _ _ Hrow)) as [HC Hrad].
    rewrite Forall_forall in Hrad.
    destruct (nth_error row j) as [radii|] eqn:Hradii.
    2:{ apply nth_error_None in Hradii. lia. }
    destruct (Hone radii (Hrad radii (nth_error_In _ _ Hradii))) as [tgt ->].
    exists tgt. split; [apply (nth_error_nth _ _ [] Hradii)|]. split; trivial.
    apply (HL i j). apply cell_Some. exists row, [tgt]. auto. }
  assert (HsrcL : length src = L) by (apply (HL pole_idx j); exact Hsrc).
  split.
  - split.
    + unfold assign_column, column. now rewrite length_map2, !length_map, Nat.min_id.
    + apply Forall_map2. intros i row radii Hrow Hradii.
      destruct (Hm row (nth_error_In _ _ Hrow)) as [HC Hrad].
      split; [now rewrite length_update_nth|].
      apply Forall_update_nth; trivial. intros _ _.
      unfold column in Hradii. rewrite !nth_error_map, Hrow in Hradii.
      cbn [option_map] in Hradii. injection Hradii as <-.
      destruct (Hslice i row Hrow) as (tgt & -> & _). reflexivity.
  - intros i j' Hi Hj'.
    destruct (nth_error m i) as [row|] eqn:Hrow.
    2:{ apply nth_error_None in Hrow. lia. }
    destruct (Hslice i row Hrow) as (tgt & Hnth & Hrowj & Htgt).
    unfold cell at 1. unfold assign_column, column.
    rewrite nth_error_map2, Hrow, !nth_error_map, Hrow. cbn [option_map].
    rewrite nth_error_update_nth, Hnth. cbn [map2].
    rewrite <- Htgt, where_last_repeat by congruence.
    unfold cell at 2. rewrite Hrow.
    destruct (j' =? j) eqn:Ej; cbn [andb].
    + apply Nat.eqb_eq in Ej. subst j'. rewrite Hrowj. cbn [option_map nth_error].
      destruct flag; [now rewrite Hsrc | reflexivity].
    + reflexivity.
Qed.

Lemma index_of_in_range (x : Q) (l : list Q) :
  In x l -> index_of x (np_unique l) < length (np_unique l).
Proof.
  intros H. destruct (index_of_spec x l H) as (y & Hy & _).
  eapply nth_error_lt; eauto.
Qed.

(** X7: with one radius, when the last column angle is close to 90 and exactly
    one row, [i0], has a measurement in that column, the reconciler records
    the pole as shared with [i0] as its source row, and no row is missing
    in that column. *)
Lemma reconciler_pole_one_radius (positions : list (Q * Q * Q)) (g : grid) (i0 : nat) :
  map_sofa_position_order_to_matrix positions = Ok g ->
  length (unique_radii g) = 1 ->
  isclose (last_column_angle g) 90 = true ->
  occupied g i0 (length (unique_column_angles g) - 1) 0 ->
  (forall i, occupied g i (length (unique_column_angles g) - 1) 0 -> i = i0) ->
  single_end_mask g = Some [true] /\
  end_pole_idx g = i0 /\
  forall i, i < length (unique_row_angles g) ->
            cell (position_mask g) i (length (unique_column_angles g) - 1) 0 = Some false.
Proof.
  intros H HK Hclose Hocc Huniq.
  destruct (reconciler_grid_spec positions g H) as (_ & _ & Hmask).
  assert (Hend : single_end_mask g = Some [true] /\ end_pole_idx g = i0).
  { clear Hmask. revert H HK Hclose Hocc Huniq.
    unfold map_sofa_position_order_to_matrix, last_column_angle, occupied.
    set (q := map _ positions).
    set (rows := np_unique (map (fun p => fst (fst p)) q)).
    set (columns := np_unique (map (fun p => snd (fst p)) q)).
    set (radii := np_unique (map snd q)).
    set (pmap := map _ q).
    set (mask0 := mark_occupied pmap _).
    destruct (rev columns) as [|last_column rest] eqn:Hrev; [discriminate|].
    destruct (resolve_pole _ last_column 90 _ mask0)
      as [[mask1 single_end] end_idx] eqn:Hend.
    destruct (resolve_pole _ (hd 0%Q columns) (-90) 0 mask1)
      as [[mask2 single_start] start_idx] eqn:Hstart.
    intros [= <-]. cbn -[nth_error cell]. rewrite Hrev. cbn [hd].
    intros HK Hclose Hocc Huniq. rewrite HK in Hend.
    assert (HC : 0 < length columns).
    { destruct columns; [discriminate Hrev | simpl; lia]. }
    assert (Hshape0 : mask_shape (length rows) (length columns) 1 mask0).
    { rewrite <- HK. apply mask_shape_mark_occupied, mask_shape_np_full3. }
    assert (Hrange : forall i j k, In (i, j, k) pmap ->
                       i < length rows /\ j < length columns /\ k < length radii).
    { intros i j k Hin. unfold pmap in Hin. apply in_map_iff in Hin.
      destruct Hin as ([[a b] r] & [= <- <- <-] & Hin).
      repeat split; apply index_of_in_range.
      - apply (in_map (fun p => fst (fst p)) _ _ Hin).
      - apply (in_map (fun p => snd (fst p)) _ _ Hin).
      - apply (in_map snd _ _ Hin). }
    assert (Hcell0 : forall i, cell mask0 i (length columns - 1) 0 = Some false <->
                               In (i, length columns - 1, 0) pmap).
    { intros i. unfold mask0. rewrite cell_mark_occupied.
      destruct (in_dec triple_eq_dec _ pmap) as [Hin|Hnin].
      - destruct (Hrange _ _ _ Hin) as (Hi & Hj & Hk).
        rewrite cell_np_full3 by assumption. simpl. tauto.
      - split; [|contradiction]. intros Hc.
        assert (Hi : i < length rows).
        { apply cell_Some in Hc. destruct Hc as (row & _ & Hrow & _).
          apply nth_error_lt in Hrow. unfold np_full3 in Hrow.
          now rewrite repeat_length in Hrow. }
        rewrite cell_np_full3 in Hc by lia. discriminate Hc. }
    assert (HC1 : length columns - 1 < length columns) by lia.
    apply (resolve_pole_one_radius _ _ _ _ _ _ _ _ _ i0 Hshape0 HC1 Hclose Hend).
    - now apply Hcell0.
    - intros i Hi. apply Huniq. now apply Hcell0. }
  destruct Hend as [Hsingle Hidx]. split; [exact Hsingle|]. split; [exact Hidx|].
  intros i Hi.
  assert (HC : 0 < length (unique_column_angles g)).
  { revert H. unfold map_sofa_position_order_to_matrix.
    set (columns := np_unique _).
    destruct (rev columns) as [|last_column rest] eqn:Hrev; [discriminate|].
    destruct (resolve_pole _ _ _ _ _) as [[mask1 single_end] end_idx].
    destruct (resolve_pole _ _ _ _ _) as [[mask2 single_start] start_idx].
    intros [= <-]. cbn. fold columns.
    destruct columns; [discriminate Hrev | simpl; lia]. }
  apply (Hmask i (length (unique_column_angles g) - 1) 0); try lia.
  right. left. split; trivial. rewrite Hsingle. reflexivity.
Qed.

(** ** Decibels *)

Lemma flatten4_map4 (A B : Type) (f : A -> B) (a : array4 A) :
  flatten4 (map4 f a) = map f (flatten4 a).
Proof.
  unfold flatten4, map4. now rewrite <- !concat_map.
Qed.

Lemma In_unmasked (A : Type) (x : A) (l : list (option A)) :
  In x (unmasked l) <-> In (Some x) l.
Proof.
  unfold unmasked. rewrite in_flat_map. split.
  - intros ([y|] & Hin & Hx); simpl in Hx; [|contradiction].
    destruct Hx as [<-|[]]. exact Hin.
  - intros H. exists (Some x). split; [exact H | now left].
Qed.

Lemma log10_le (x y : R) : (0 < x)%R -> (x <= y)%R -> (log10 x <= log10 y)%R.
Proof.
  intros Hx [Hlt | ->]; [|apply Rle_refl].
  unfold log10. apply Rmult_le_compat_r.
  - left. apply Rinv_0_lt_compat. rewrite <- ln_1. apply ln_increasing; lra.
  - left. now apply ln_increasing.
Qed.

Lemma xle_xmax (x lo : xreal) : xle lo x \/ xle x lo -> xle lo (xmax x lo).
Proof.
  destruct x as [x| | |], lo as [l| | |]; simpl; try tauto; intros _.
  - apply Rmax_r.
  - apply Rle_refl.
Qed.

Lemma xlog10_monotone (a b y : xreal) :
  xle a b -> xlog10 a = Some y -> exists y', xlog10 b = Some y' /\ xle y y'.
Proof.
  destruct a as [x| | |], b as [x'| | |]; simpl; intros Hle E;
    try contradiction; try discriminate E.
  - destruct (Rlt_dec 0 x) as [Hx|_]; [|discriminate E]. injection E as <-.
    destruct (Rlt_dec 0 x') as [_|N]; [|exfalso; apply N; lra].
    eexists. split; [reflexivity|]. simpl. now apply log10_le.
  - destruct (Rlt_dec 0 x) as [Hx|_]; [|discriminate E]. injection E as <-.
    eexists. split; [reflexivity|]. exact I.
  - injection E as <-. eexists. split; [reflexivity|]. exact I.
Qed.

Lemma xmul_twenty_monotone (a b : xreal) :
  xle a b -> xle (xmul (Finite 20) a) (xmul (Finite 20) b).
Proof.
  assert (H20 : (0 < 20)%R) by lra.
  destruct a as [x| | |], b as [x'| | |]; simpl; try tauto; intros Hle;
    unfold xmul_inf; destruct (Rlt_dec 0 20) as [_|N]; try (exfalso; exact (N H20));
    simpl; trivial.
  apply Rmult_le_compat_l; lra.
Qed.

(** Exact arithmetic on the extended reals satisfies the order laws. *)
Lemma monotone_decibels_reals (res : R) :
  @monotone_decibels xreal (real_decibel res) xle (fun x => x).
Proof.
  split; [|split; [|split]]; cbn [np_clip_min np_log10 np_mul twenty real_decibel].
  - exact xle_xmax.
  - exact xlog10_monotone.
  - exact xmul_twenty_monotone.
  - trivial.
Qed.

(** C8, as the code has it: an element of the magnitude_db result is
    masked where its magnitude is masked or the magnitude clipped at
    floor = max(magnitude) * resolution lies outside the domain of the
    logarithm, and is 20 log10 of the clipped magnitude elsewhere, so that
    no element is the logarithm of zero.  When the floor itself is inside
    the domain, every magnitude comparable with it gives an unmasked
    element, which after the cast is at least the cast of 20 log10(floor),
    in every arithmetic that satisfies the order laws. *)
Theorem magnitude_db_floor (T : Type) (Db : DecibelOps T)
    (le : T -> T -> Prop) (cast : T -> T) (magnitudes : array4 (option T)) :
  monotone_decibels le cast ->
  let floor := np_mul (np_max (unmasked (flatten4 magnitudes))) resolution in
  let decibels := map (option_map cast) (flatten4 (magnitude_db magnitudes)) in
  length decibels = length (flatten4 magnitudes) /\
  forall i,
    (nth_error (flatten4 magnitudes) i = Some None ->
     nth_error decibels i = Some None) /\
    (forall x, nth_error (flatten4 magnitudes) i = Some (Some x) ->
       nth_error decibels i
       = Some (option_map (fun y => cast (np_mul twenty y))
                          (np_log10 (np_clip_min x floor))) /\
       forall log_floor,
         np_log10 floor = Some log_floor -> le floor x \/ le x floor ->
         exists y, nth_error decibels i = Some (Some y) /\
                   le (cast (np_mul twenty log_floor)) y).
Proof.
  intros (Hclip & Hlog & Hmul & Hcast) floor decibels.
  unfold decibels, magnitude_db. fold floor. rewrite flatten4_map4, map_map.
  split; [apply length_map|].
  intros i. rewrite nth_error_map. split.
  - intros ->. reflexivity.
  - intros x ->. cbn [option_map decibel].
    assert (E : option_map cast (option_map (np_mul twenty) (np_log10 (np_clip_min x floor)))
                = option_map (fun y => cast (np_mul twenty y))
                             (np_log10 (np_clip_min x floor)))
      by now destruct (np_log10 (np_clip_min x floor)).
    rewrite E. split; [reflexivity|].
    intros log_floor Hfloor Hcmp.
    destruct (Hlog _ _ _ (Hclip x floor Hcmp) Hfloor) as (y' & -> & Hy').
    eexists. split; [reflexivity|]. cbn [option_map]. auto.
Qed.

(** A spectrum with one non-zero bin in exact arithmetic, at the
    resolution of float32: the zero bin gets the value of the floor. *)
Lemma magnitude_db_floor_witness :
  let magnitudes := [[[[Some (Finite 0); Some (Finite 1); None]]]] in
  let decibels :=
    map (option_map (fun x : xreal => x))
        (flatten4 (@magnitude_db xreal (real_decibel (/ 1000000)) magnitudes)) in
  exists y, nth_error decibels 0 = Some (Some y) /\
            xle (Finite (20 * log10 (Rmax 0 1 * / 1000000))) y.
Proof.
  intros magnitudes decibels.
  assert (Hfloor : (0 < Rmax 0 1 * / 1000000)%R).
  { apply Rmult_lt_0_compat; [|apply Rinv_0_lt_compat; lra].
    eapply Rlt_le_trans; [|apply Rmax_r]. lra. }
  destruct (magnitude_db_floor xreal (real_decibel (/ 1000000)) xle (fun x => x) magnitudes
              (monotone_decibels_reals (/ 1000000))) as [_ H].
  destruct (H 0) as [_ H0]. destruct (H0 (Finite 0) eq_refl) as [_ Hbound].
  assert (Hlog : xlog10 (Finite (Rmax 0 1 * / 1000000))
                  = Some (Finite (log10 (Rmax 0 1 * / 1000000)))).
  { cbn. destruct (Rlt_dec 0 (Rmax 0 1 * / 1000000)) as [_|N];
      [reflexivity | contradiction]. }
  assert (Hcmp : xle (Finite 0) (Finite (Rmax 0 1 * / 1000000))).
  { cbn. lra. }
  exact (Hbound _ Hlog (or_intror Hcmp)).
Defined.

(** A spectrum whose bins are all zero: the floor is zero as well, the
    clipped magnitudes are outside the domain of the logarithm and every
    element of the result is masked, so that there is no finite minimum
    value. *)
Lemma magnitude_db_of_zeros :
  flatten4 (@magnitude_db xreal (real_decibel (/ 1000000))
              [[[[Some (Finite 0); Some (Finite 0)]]]])
  = [None; None] /\
  ~ (exists d, In (Some (Finite d)) [@None xreal; None]).
Proof.
  split; [|intros [d [E|[E|[]]]]; discriminate E].
  unfold magnitude_db. rewrite flatten4_map4.
  cbn [np_max np_mul np_clip_min np_log10 resolution twenty real_decibel decibel
       flatten4 concat app unmasked flat_map fold_right xmax xmul map option_map].
  assert (E : Rmax 0 (Rmax 0 0 * / 1000000) = 0%R).
  { rewrite (Rmax_left 0 0) by lra. rewrite Rmult_0_l. apply Rmax_left. lra. }
  rewrite E. unfold xlog10.
  destruct (Rlt_dec 0 0) as [L|_]; [lra | reflexivity].
Qed.

(** * Further properties *)

(** ** Grid Selector, continued *)

Lemma hrir_select_angles_stable_witness :
  (forall i, In i [0] ->
     exists j k, In j [0] /\
       cell [[[false]; [true]]; [[false]; [false]]; [[true]; [true]]] i j k = Some false) /\
  (forall j, In j [0] ->
     exists i k, In i [0] /\
       cell [[[false]; [true]]; [[false]; [false]]; [[true]; [true]]] i j k = Some false).
Proof.
  apply (hrir_select_angles_stable (Some [0; 90]%Q) None [0; 45; 90]%Q [0; 30]%Q
           [[[false]; [true]]; [[false]; [false]]; [[true]; [true]]] 1 [0] [0]).
  - split; [reflexivity | repeat constructor].
  - reflexivity.
Defined.

(** Two strictly ascending lists with the same elements are equal. *)
Lemma sorted_same_elements (l l' : list nat) :
  StronglySorted lt l -> StronglySorted lt l' ->
  (forall x, In x l <-> In x l') -> l = l'.
Proof.
  intros Hl; revert l'; induction Hl as [|a l Hl IH Ha]; intros l' Hl' Hiff.
  - destruct l' as [|b l']; trivial. destruct (proj2 (Hiff b) (or_introl eq_refl)).
  - destruct Hl' as [|b l' Hl' Hb].
    + destruct (proj1 (Hiff a) (or_introl eq_refl)).
    + rewrite Forall_forall in Ha, Hb.
      assert (E : a = b).
      { destruct (proj1 (Hiff a) (or_introl eq_refl)) as [->|Hin]; trivial.
        destruct (proj2 (Hiff b) (or_introl eq_refl)) as [->|Hin']; trivial.
        specialize (Ha _ Hin'). specialize (Hb _ Hin). lia. }
      subst b. f_equal. apply IH; trivial.
      intros x. split; intros Hx.
      * destruct (proj1 (Hiff x) (or_intror Hx)) as [->|Hin]; trivial.
        specialize (Ha _ Hx). lia.
      * destruct (proj2 (Hiff x) (or_intror Hx)) as [->|Hin]; trivial.
        specialize (Hb _ Hx). lia.
Qed.

Lemma select_indices_some_candidate (angles : option (list Q)) (all_angles : list Q)
    (sel : list bool) :
  select_indices angles all_angles = Ok sel -> all_angles <> [] ->
  exists i, nth_error sel i = Some true.
Proof.
  destruct angles as [requested|]; simpl.
  - destruct (any _) eqn:E; [|discriminate]. intros [= <-] _.
    unfold any in E. apply existsb_exists in E. destruct E as (b & Hb & ->).
    apply In_nth_error in Hb. exact Hb.
  - intros [= <-] Hne. exists 0. destruct all_angles; [congruence | reflexivity].
Qed.

(** X3: on a grid without a missing cell the pruning drops nothing: the
    selector returns the candidate indices of both axes. *)
Theorem hrir_select_angles_dense
    (row_angles column_angles : option (list Q))
    (all_row_angles all_column_angles : list Q) (position_mask : mask3)
    (K : nat) (select_row select_column : list bool) :
  mask_shape (length all_row_angles) (length all_column_angles) (S K) position_mask ->
  (forall i j k, cell position_mask i j k <> Some true) ->
  all_row_angles <> [] -> all_column_angles <> [] ->
  select_indices row_angles all_row_angles = Ok select_row ->
  select_indices column_angles all_column_angles = Ok select_column ->
  hrir_select_angles row_angles column_angles all_row_angles all_column_angles
                     position_mask
  = Ok (nonzero select_row, nonzero select_column).
Proof.
  intros Hshape Hdense Hrows Hcols Hr Hc.
  destruct (select_indices_some_candidate _ _ _ Hr Hrows) as [i0 Hi0].
  destruct (select_indices_some_candidate _ _ _ Hc Hcols) as [j0 Hj0].
  pose proof (select_indices_length _ _ _ Hr) as Hlr.
  pose proof (select_indices_length _ _ _ Hc) as Hlc.
  assert (Hcell : forall i j, nth_error select_row i = Some true ->
                              nth_error select_column j = Some true ->
                              cell position_mask i j 0 = Some false).
  { intros i j Hi Hj. apply nth_error_lt in Hi, Hj.
    destruct (cell_in_range _ _ _ _ position_mask i j 0 Hshape) as [b Hb]; try lia.
    destruct b; [now apply Hdense in Hb | exact Hb]. }
  unfold hrir_select_angles. rewrite Hr, Hc. cbn [bind].
  rewrite (select_mask_ok _ _ _ _ _ _ Hshape Hlr Hlc). cbn [bind].
  do 2 f_equal.
  - apply sorted_same_elements.
    + apply bool_filter_sorted, nonzero_sorted.
    + apply nonzero_sorted.
    + intros i. rewrite keep_rows_spec, In_nonzero. split; [tauto|].
      intros Hi. split; trivial. exists j0, 0. auto.
  - apply sorted_same_elements.
    + apply bool_filter_sorted, nonzero_sorted.
    + apply nonzero_sorted.
    + intros j. rewrite (keep_columns_spec _ _ _ _ _ _ _ Hshape Hlc), In_nonzero.
      split; [tauto|]. intros Hj. split; trivial. exists i0, 0. auto.
Qed.

(** A dense 2 x 2 x 1 grid, one row requested. *)
Lemma hrir_select_angles_dense_witness :
  hrir_select_angles (Some [90]%Q) None [0; 90]%Q [0; 45]%Q
                     [[[false]; [false]]; [[false]; [false]]]
  = Ok ([1], [0; 1]).
Proof.
  apply (hrir_select_angles_dense (Some [90]%Q) None [0; 90]%Q [0; 45]%Q
           [[[false]; [false]]; [[false]; [false]]] 0 [false; true] [true; true]).
  - split; [reflexivity | repeat constructor].
  - intros [|[|[|i]]] [|[|[|j]]] [|[|k]]; discriminate.
  - discriminate.
  - discriminate.
  - reflexivity.
  - reflexivity.
Defined.

(** ** Position Reconciler, continued *)

(** The constituents of a returned grid. *)
Lemma reconciler_inv (positions : list (Q * Q * Q)) (g : grid) :
  map_sofa_position_order_to_matrix positions = Ok g ->
  let R := length (unique_row_angles g) in
  let C := length (unique_column_angles g) in
  let K := length (unique_radii g) in
  unique_row_angles g = np_unique (map (fun p => fst (fst (quantised p))) positions) /\
  unique_column_angles g = np_unique (map (fun p => snd (fst (quantised p))) positions) /\
  unique_radii g = np_unique (map (fun p => snd (quantised p)) positions) /\
  0 < C /\
  exists mask0 mask1,
    mask_shape R C K mask0 /\
    (forall i j k, cell mask0 i j k = Some false <-> occupied g i j k) /\
    resolve_pole K (last_column_angle g) 90 (C - 1) mask0
    = (mask1, single_end_mask g, end_pole_idx g) /\
    resolve_pole K (hd 0%Q (unique_column_angles g)) (-90) 0 mask1
    = (position_mask g, single_start_mask g, start_pole_idx g).
Proof.
  unfold map_sofa_position_order_to_matrix, last_column_angle, occupied.
  set (q := map _ positions).
  set (rows := np_unique (map (fun p => fst (fst p)) q)).
  set (columns := np_unique (map (fun p => snd (fst p)) q)).
  set (radii := np_unique (map snd q)).
  set (pmap := map _ q).
  set (mask0 := mark_occupied pmap _).
  destruct (rev columns) as [|last_column rest] eqn:Hrev; [discriminate|].
  destruct (resolve_pole _ last_column 90 _ mask0)
    as [[mask1 single_end] end_idx] eqn:Hend.
  destruct (resolve_pole _ (hd 0%Q columns) (-90) 0 mask1)
    as [[mask2 single_start] start_idx] eqn:Hstart.
  intros [= <-]. cbn -[nth_error cell]. rewrite Hrev. cbn [hd].
  assert (Hq : q = map quantised positions).
  { unfold q. apply map_ext. now intros [[a b] r]. }
  split; [unfold rows; now rewrite Hq, map_map|].
  split; [unfold columns; now rewrite Hq, map_map|].
  split; [unfold radii; now rewrite Hq, map_map|].
  split; [destruct columns; [discriminate Hrev | simpl; lia]|].
  exists mask0, mask1.
  assert (Hrange : forall i j k, In (i, j, k) pmap ->
                     i < length rows /\ j < length columns /\ k < length radii).
  { intros i j k Hin. unfold pmap in Hin. apply in_map_iff in Hin.
    destruct Hin as ([[a b] r] & [= <- <- <-] & Hin).
    repeat split; apply index_of_in_range.
    - apply (in_map (fun p => fst (fst p)) _ _ Hin).
    - apply (in_map (fun p => snd (fst p)) _ _ Hin).
    - apply (in_map snd _ _ Hin). }
  split; [apply mask_shape_mark_occupied, mask_shape_np_full3|].
  split; [|split; assumption].
  intros i j k. unfold mask0. rewrite cell_mark_occupied.
  destruct (in_dec triple_eq_dec _ pmap) as [Hin|Hnin].
  - destruct (Hrange _ _ _ Hin) as (Hi & Hj & Hk).
    rewrite cell_np_full3 by assumption. simpl. tauto.
  - split; [|contradiction]. intros Hc. exfalso.
    pose proof Hc as Hc'. apply cell_Some in Hc'.
    destruct Hc' as (row & rad & Hrow & Hrad & Hb). unfold np_full3 in Hrow.
    pose proof (nth_error_lt _ _ _ _ Hrow) as Hi. rewrite repeat_length in Hi.
    apply nth_error_In, repeat_spec in Hrow. subst row.
    pose proof (nth_error_lt _ _ _ _ Hrad) as Hj. rewrite repeat_length in Hj.
    apply nth_error_In, repeat_spec in Hrad. subst rad.
    apply nth_error_In, repeat_spec in Hb. discriminate Hb.
Qed.

(** X5: the reconciler raises IndexError exactly for a file without
    measurements, and returns a grid for every other file. *)
Theorem reconciler_returns_iff (positions : list (Q * Q * Q)) :
  (map_sofa_position_order_to_matrix positions = Raise IndexError <-> positions = []) /\
  ((exists g, map_sofa_position_order_to_matrix positions = Ok g) <-> positions <> []).
Proof.
  destruct positions as [|p positions].
  - split; split; trivial; [intros [g E]; discriminate E | congruence].
  - destruct (reconciler_returns (p :: positions)) as [g E]; [discriminate|].
    rewrite E. split; split; try discriminate; eauto.
Qed.

(** X6: the three arrays of unique values are strictly ascending and hold
    exactly the values of the wrapped, rounded positions. *)
Theorem reconciler_unique_angles (positions : list (Q * Q * Q)) (g : grid) :
  map_sofa_position_order_to_matrix positions = Ok g ->
  (StronglySorted Qlt (unique_row_angles g) /\
   StronglySorted Qlt (unique_column_angles g) /\
   StronglySorted Qlt (unique_radii g)) /\
  forall x,
    (Qmem x (unique_row_angles g) <->
     exists p, In p positions /\ (fst (fst (quantised p)) == x)%Q) /\
    (Qmem x (unique_column_angles g) <->
     exists p, In p positions /\ (snd (fst (quantised p)) == x)%Q) /\
    (Qmem x (unique_radii g) <->
     exists p, In p positions /\ (snd (quantised p) == x)%Q).
Proof.
  intros H. destruct (reconciler_inv positions g H) as (-> & -> & -> & _).
  split; [repeat split; apply np_unique_sorted|].
  assert (Hmem : forall (f : Q * Q * Q -> Q) x,
            Qmem x (np_unique (map f positions)) <->
            exists p, In p positions /\ (f p == x)%Q).
  { intros f x. rewrite np_unique_mem. unfold Qmem. split.
    - intros (y & Hy & E). apply in_map_iff in Hy. destruct Hy as (p & <- & Hp). eauto.
    - intros (p & Hp & E). exists (f p). split; trivial. now apply in_map. }
  intros x. repeat split; apply Hmem.
Qed.

Lemma reconciler_unique_angles_witness :
  StronglySorted Qlt [-180; -90; 0; 90]%Q /\
  (Qmem (-180) [-180; -90; 0; 90]%Q <->
   exists p, In p (SourcePosition file_4x1) /\ (fst (fst (quantised p)) == -180)%Q).
Proof.
  assert (H : map_sofa_position_order_to_matrix (SourcePosition file_4x1)
              = Ok {| unique_row_angles := [-180; -90; 0; 90]%Q;
                      unique_column_angles := [0]%Q;
                      unique_radii := [1]%Q;
                      position_mask := [[[false]]; [[false]]; [[false]]; [[false]]];
                      position_map := [(0, 0, 0); (1, 0, 0); (2, 0, 0); (3, 0, 0)];
                      single_start_mask := None;
                      start_pole_idx := 0;
                      single_end_mask := None;
                      end_pole_idx := 0 |}) by (vm_compute; reflexivity).
  destruct (reconciler_unique_angles _ _ H) as ((Hs & _) & Hm).
  split; [exact Hs | exact (proj1 (Hm (-180)%Q))].
Defined.

Lemma reconciler_pole_one_radius_witness :
  exists g,
    map_sofa_position_order_to_matrix (SourcePosition file_pole) = Ok g /\
    single_end_mask g = Some [true] /\
    end_pole_idx g = 0 /\
    forall i, i < 2 -> cell (position_mask g) i 1 0 = Some false.
Proof.
  exists grid_of_file_pole.
  assert (H : map_sofa_position_order_to_matrix (SourcePosition file_pole)
              = Ok grid_of_file_pole) by (vm_compute; reflexivity).
  split; [exact H|].
  refine (reconciler_pole_one_radius (SourcePosition file_pole) grid_of_file_pole 0
            H eq_refl eq_refl _ _).
  - right. now left.
  - intros i [E|[E|[E|[]]]]; injection E; congruence.
Defined.

(** ** Shared poles *)

Lemma no_false (bs : list bool) (i : nat) :
  length (filter negb bs) = 0 -> nth_error bs i <> Some false.
Proof.
  intros H Hi. apply nth_error_In in Hi.
  assert (Hin : In false (filter negb bs)) by (apply filter_In; auto).
  destruct (filter negb bs); [destruct Hin | discriminate H].
Qed.

Lemma only_false_conv (bs : list bool) :
  length (filter negb bs) = 1 ->
  exists i0, nth_error bs i0 = Some false /\
             forall i, nth_error bs i = Some false -> i = i0.
Proof.
  induction bs as [|b bs IH]; [discriminate|]. destruct b; simpl; intros H.
  - destruct (IH H) as (i0 & H0 & Huniq). exists (S i0). split; trivial.
    intros [|i] Hi; [discriminate Hi|]. f_equal. now apply Huniq.
  - exists 0. split; trivial. intros [|i] Hi; trivial.
    exfalso. injection H as H. now apply (no_false bs i H).
Qed.

Lemma resolve_pole_one_radius_conv (R C : nat) (angle pole : Q) (j : nat) (m m' : mask3)
    (single : option (list bool)) (idx : nat) :
  mask_shape R C 1 m -> j < C ->
  resolve_pole 1 angle pole j m = (m', single, idx) ->
  shared single 0 = true ->
  isclose angle pole = true /\
  cell m idx j 0 = Some false /\
  forall i, cell m i j 0 = Some false -> i = idx.
Proof.
  intros Hshape Hj H Hshared. unfold resolve_pole in H.
  destruct (isclose angle pole); [|injection H as _ <- _; discriminate Hshared].
  injection H as _ <- <-. split; trivial.
  destruct (column_shape _ R C 1 m j Hshape Hj) as [_ Hcol].
  unfold shared, single_mask in Hshared.
  rewrite (count_present_one_radius _ Hcol) in Hshared. simpl in Hshared.
  apply Nat.eqb_eq in Hshared.
  destruct (only_false_conv _ Hshared) as (i0 & H0 & Huniq).
  destruct (only_false _ i0 H0 Huniq) as [_ Hfirst].
  unfold flat_argmax_present, argmax. rewrite Hfirst.
  split.
  - now rewrite <- (cell_column_one_radius _ R C m i0 j Hshape Hj).
  - intros i Hi. apply Huniq.
    now rewrite (cell_column_one_radius _ R C m i j Hshape Hj).
Qed.

(** X8: with one radius, a pole the reconciler records as shared is a column
    close to 90 with a measurement in exactly one row, and that row is the
    recorded source row. *)
Theorem reconciler_shared_pole_source (positions : list (Q * Q * Q)) (g : grid) :
  map_sofa_position_order_to_matrix positions = Ok g ->
  length (unique_radii g) = 1 ->
  shared (single_end_mask g) 0 = true ->
  isclose (last_column_angle g) 90 = true /\
  occupied g (end_pole_idx g) (length (unique_column_angles g) - 1) 0 /\
  forall i, occupied g i (length (unique_column_angles g) - 1) 0 -> i = end_pole_idx g.
Proof.
  intros H HK Hshared.
  destruct (reconciler_inv positions g H)
    as (_ & _ & _ & HC & mask0 & mask1 & Hshape0 & Hocc & Hend & _).
  rewrite HK in *.
  assert (HC1 : length (unique_column_angles g) - 1 < length (unique_column_angles g))
    by lia.
  destruct (resolve_pole_one_radius_conv _ _ _ _ _ _ _ _ _ Hshape0 HC1 Hend Hshared)
    as (Hclose & Hsrc & Huniq).
  split; trivial. split.
  - now apply Hocc.
  - intros i Hi. apply Huniq. now apply Hocc.
Qed.

Lemma reconciler_shared_pole_source_witness :
  isclose (last_column_angle grid_of_file_pole) 90 = true /\
  occupied grid_of_file_pole 0 1 0 /\
  forall i, occupied grid_of_file_pole i 1 0 -> i = 0.
Proof.
  assert (H : map_sofa_position_order_to_matrix (SourcePosition file_pole)
              = Ok grid_of_file_pole) by (vm_compute; reflexivity).
  exact (reconciler_shared_pole_source (SourcePosition file_pole) grid_of_file_pole
           H eq_refl eq_refl).
Defined.

(** A column angle cannot be close to both poles. *)
Lemma isclose_poles_disjoint (c : Q) :
  isclose c (-90) = true -> isclose c 90 = false.
Proof.
  unfold isclose, rtol, atol. intros H.
  destruct (Qle_bool (Qabs (c - 90)) _) eqn:E; trivial. exfalso.
  apply Qle_bool_iff in H, E.
  apply Qabs_Qle_condition in H, E.
  change (Qabs (-90)) with 90%Q in H. change (Qabs 90) with 90%Q in E.
  destruct H as [H1 H2], E as [E1 E2]. Lqa.lra.
Qed.

Lemma rev_hd_singleton (A : Type) (d : A) (l : list A) :
  length l = 1 -> hd d (rev l) = hd d l.
Proof. destruct l as [|x [|y l]]; try discriminate. reflexivity. Qed.

(** X9: with one radius, when the first column angle is close to -90 and
    exactly one row, [i0], has a measurement in that column, the reconciler
    records the start pole as shared with [i0] as its source row, and no
    row is missing in that column. *)
Theorem reconciler_start_pole_one_radius
    (positions : list (Q * Q * Q)) (g : grid) (i0 : nat) :
  map_sofa_position_order_to_matrix positions = Ok g ->
  length (unique_radii g) = 1 ->
  isclose (hd 0%Q (unique_column_angles g)) (-90) = true ->
  occupied g i0 0 0 ->
  (forall i, occupied g i 0 0 -> i = i0) ->
  single_start_mask g = Some [true] /\
  start_pole_idx g = i0 /\
  forall i, i < length (unique_row_angles g) ->
            cell (position_mask g) i 0 0 = Some false.
Proof.
  intros H HK Hclose Hocc0 Huniq.
  destruct (reconciler_grid_spec positions g H) as (_ & _ & Hmask).
  destruct (reconciler_inv positions g H)
    as (_ & _ & _ & HC & mask0 & mask1 & Hshape0 & Hocc & Hend & Hstart).
  rewrite HK in *.
  assert (HC1 : length (unique_column_angles g) - 1 < length (unique_column_angles g))
    by lia.
  destruct (resolve_pole_spec _ _ _ _ _ _ _ _ _ _ Hshape0 HC1 Hend)
    as (Hshape1 & _ & Hcell1).
  assert (Hsame : forall i b, cell mask0 i 0 0 = Some b -> cell mask1 i 0 0 = Some b).
  { intros i b Hb. rewrite (Hcell1 _ _ _ _ Hb).
    destruct (Nat.eqb_spec 0 (length (unique_column_angles g) - 1)) as [E|_];
      [|reflexivity].
    assert (Hone : length (unique_column_angles g) = 1) by lia.
    unfold last_column_angle in Hend. rewrite (rev_hd_singleton _ _ _ Hone) in Hend.
    unfold resolve_pole in Hend.
    rewrite (isclose_poles_disjoint _ Hclose) in Hend. injection Hend as _ <- _.
    reflexivity. }
  assert (Hiff : forall i, cell mask1 i 0 0 = Some false <-> occupied g i 0 0).
  { intros i. rewrite <- Hocc. split; intros Hc.
    - destruct (cell mask0 i 0 0) as [b|] eqn:Hb.
      + rewrite (Hsame i b Hb) in Hc. exact Hc.
      + exfalso. apply cell_Some in Hc. destruct Hc as (row & rad & Hrow & Hrad & Hx).
        destruct (cell_in_range _ _ _ _ mask0 i 0 0 Hshape0) as [x Hx']; try lia.
        * apply nth_error_lt in Hrow. destruct Hshape1 as [<- _]. exact Hrow.
        * congruence.
    - now apply Hsame. }
  destruct (resolve_pole_one_radius _ _ _ _ _ _ _ _ _ i0 Hshape1 HC Hclose Hstart)
    as [Hsingle Hidx].
  - now apply Hiff.
  - intros i Hi. apply Huniq. now apply Hiff.
  - split; [exact Hsingle|]. split; [exact Hidx|].
    intros i Hi. apply (Hmask i 0 0); try lia.
    right. right. split; trivial. rewrite Hsingle. reflexivity.
Qed.

Lemma reconciler_start_pole_one_radius_witness :
  exists g,
    map_sofa_position_order_to_matrix [(0, -90, 1); (0, 0, 1); (90, 0, 1)]%Q = Ok g /\
    single_start_mask g = Some [true] /\
    start_pole_idx g = 0 /\
    forall i, i < 2 -> cell (position_mask g) i 0 0 = Some false.
Proof.
  pose (g := {| unique_row_angles := [0; 90]%Q;
                unique_column_angles := [-90; 0]%Q;
                unique_radii := [1]%Q;
                position_mask := [[[false]; [false]]; [[false]; [false]]];
                position_map := [(0, 0, 0); (0, 1, 0); (1, 1, 0)];
                single_start_mask := Some [true];
                start_pole_idx := 0;
                single_end_mask := None;
                end_pole_idx := 0 |}).
  exists g.
  assert (H : map_sofa_position_order_to_matrix [(0, -90, 1); (0, 0, 1); (90, 0, 1)]%Q
              = Ok g) by (vm_compute; reflexivity).
  split; [exact H|].
  refine (reconciler_start_pole_one_radius _ g 0 H eq_refl eq_refl _ _).
  - now left.
  - intros i [E|[E|[E|[]]]]; injection E; congruence.
Defined.

(** ** The pole flags, for every radius *)







(** ** Signal Materializer, continued *)

Lemma transform_time (T : Type) (S : SignalOps T) (Db : DecibelOps T) (L : nat)
    (mask : mask3) (a : array4 T) :
  transform "time" L mask a = Ok (MaskedArray L (masked_where mask a)).
Proof. reflexivity. Qed.

(** The steps of [hrir_squeezed] before the domain transform do not depend
    on the domain: when a call in the time domain returns, the call in
    another domain reaches the transform with the same selection. *)
Lemma hrir_squeezed_reaches_transform
    (T : Type) (S : SignalOps T) (Db : DecibelOps T)
    (self : datapoint) (file : sofa_file T) (side domain : string)
    (row_indices column_indices : option (list nat))
    (g : grid) (rows : list nat) (a : ndarray (option T)) :
  hrir_squeezed self file side "time" row_indices column_indices = Ok (g, rows, a) ->
  exists (mask : mask3) (matrix : array4 T) (columns : list nat),
    hrir_squeezed self file side domain row_indices column_indices
    = (value <- transform domain (dim_N file) mask matrix ;;
       if String.eqb domain "complex" && negb (dtype_complex self)
       then Raise (ValueError ComplexNeedsComplexDtype)
       else
         match value with
         | ValueErrorInstance => Raise AttributeError
         | MaskedArray last_axis arr =>
             Ok (g, rows,
                 squeeze {| shape := [length rows; length columns;
                                      length (unique_radii g); last_axis];
                            data := map (option_map astype) (flatten4 arr) |})
         end).
Proof.
  unfold hrir_squeezed. intros H.
  bind_ok H as hrirs Eh. bind_ok H as g' Eg. bind_ok H as m0 E0.
  bind_ok H as m1 E1. bind_ok H as m2 E2.
  bind_ok H as rows' Er. bind_ok H as columns Ec.
  rewrite transform_time in H. cbn [bind] in H.
  change (String.eqb "time" "complex") with false in H. cbn [andb] in H.
  injection H as <- <- _.
  cbn [bind]. rewrite E0. cbn [bind]. rewrite E1. cbn [bind]. rewrite E2. cbn [bind].
  rewrite Er. cbn [bind]. rewrite Ec. cbn [bind].
  eexists _, _, columns. reflexivity.
Qed.

(** X19: in the complex domain a data point whose dtype is not complex never
    returns a result; when the same call in the time domain returns and
    the responses are not empty, the error is the one that asks for a
    complex dtype. *)
Theorem hrir_complex_needs_complex_dtype
    (T : Type) (S : SignalOps T) (Db : DecibelOps T)
    (self : datapoint) (file : sofa_file T) (side : string)
    (row_indices column_indices : option (list nat)) :
  dtype_complex self = false ->
  (forall a, hrir self file side "complex" row_indices column_indices <> Ok a) /\
  (forall x, hrir_squeezed self file side "time" row_indices column_indices = Ok x ->
             dim_N file <> 0 ->
             hrir self file side "complex" row_indices column_indices
             = Raise (ValueError ComplexNeedsComplexDtype)).
Proof.
  intros Hdtype. split.
  - intros a H. unfold hrir in H.
    destruct (hrir_squeezed _ _ _ _ _ _) as [[[g rows] arr]|e] eqn:E; [|discriminate H].
    clear H. unfold hrir_squeezed in E.
    bind_ok E as hrirs Eh. bind_ok E as g' Eg. bind_ok E as m0 E0.
    bind_ok E as m1 E1. bind_ok E as m2 E2.
    bind_ok E as rows' Er. bind_ok E as columns Ec. bind_ok E as value Et.
    rewrite Hdtype in E. discriminate E.
  - intros [[g rows] arr] Htime HL. unfold hrir.
    destruct (hrir_squeezed_reaches_transform T S Db self file side "complex"
                row_indices column_indices g rows arr Htime)
      as (mask & matrix & columns & ->).
    unfold transform. cbn [String.eqb Ascii.eqb Bool.eqb].
    apply Nat.eqb_neq in HL. rewrite HL, Hdtype. reflexivity.
Qed.

Lemma hrir_complex_needs_complex_dtype_witness :
  (forall a, hrir spherical_float32 file_2x2 "left" "complex" None None <> Ok a) /\
  hrir spherical_float32 file_2x2 "left" "complex" None None
  = Raise (ValueError ComplexNeedsComplexDtype).
Proof.
  destruct (hrir_complex_needs_complex_dtype sym _ _ spherical_float32 file_2x2
              "left" None None eq_refl) as [Hnever Herr].
  split; [exact Hnever|].
  destruct (hrir_squeezed spherical_float32 file_2x2 "left" "time" None None)
    as [x|e] eqn:E; [|vm_compute in E; discriminate E].
  apply (Herr x eq_refl). discriminate.
Defined.

(** X20: for an unknown domain the materializer never returns a result; when
    the same call in the time domain returns and the responses are not
    empty, it ends with the AttributeError of the cast of line 238. *)
Theorem hrir_unknown_domain_never_returns
    (T : Type) (S : SignalOps T) (Db : DecibelOps T)
    (self : datapoint) (file : sofa_file T) (side domain : string)
    (row_indices column_indices : option (list nat)) :
  unknown_domain domain ->
  (forall a, hrir self file side domain row_indices column_indices <> Ok a) /\
  (forall x, hrir_squeezed self file side "time" row_indices column_indices = Ok x ->
             dim_N file <> 0 ->
             hrir self file side domain row_indices column_indices = Raise AttributeError).
Proof.
  intros (Ht & Hc & Hp & Hm).
  assert (Htransform : forall L mask matrix v,
            transform domain L mask matrix = Ok v -> v = ValueErrorInstance).
  { intros L mask matrix v. unfold transform. rewrite Ht, Hc, Hp, Hm.
    destruct (L =? 0); [discriminate | now intros [= <-]]. }
  split.
  - intros a H. unfold hrir in H.
    destruct (hrir_squeezed _ _ _ _ _ _) as [[[g rows] arr]|e] eqn:E; [|discriminate H].
    clear H. unfold hrir_squeezed in E.
    bind_ok E as hrirs Eh. bind_ok E as g' Eg. bind_ok E as m0 E0.
    bind_ok E as m1 E1. bind_ok E as m2 E2.
    bind_ok E as rows' Er. bind_ok E as columns Ec. bind_ok E as value Et.
    apply Htransform in Et. subst value.
    destruct (_ && _); discriminate E.
  - intros [[g rows] arr] Htime HL. unfold hrir.
    destruct (hrir_squeezed_reaches_transform T S Db self file side domain
                row_indices column_indices g rows arr Htime)
      as (mask & matrix & columns & ->).
    unfold transform. rewrite Ht, Hc, Hp, Hm.
    apply Nat.eqb_neq in HL. rewrite HL. reflexivity.
Qed.

Lemma hrir_unknown_domain_never_returns_witness :
  (forall a, hrir spherical_float32 file_2x2 "left" "loudness" None None <> Ok a) /\
  hrir spherical_float32 file_2x2 "left" "loudness" None None = Raise AttributeError.
Proof.
  assert (Hd : unknown_domain "loudness") by (repeat split).
  destruct (hrir_unknown_domain_never_returns sym _ _ spherical_float32 file_2x2
              "left" "loudness" None None Hd) as [Hnever Herr].
  split; [exact Hnever|].
  destruct (hrir_squeezed spherical_float32 file_2x2 "left" "time" None None)
    as [x|e] eqn:E; [|vm_compute in E; discriminate E].
  apply (Herr x eq_refl). discriminate.
Defined.

(** ** Signal Materializer: contents *)

Lemma array_shape_cell (T : Type) (R C K L : nat) (m : array4 T) (i j k : nat)
    (ir : list T) :
  array_shape R C K L m -> cell m i j k = Some ir -> length ir = L.
Proof.
  intros [_ H] Hc. apply cell_Some in Hc. destruct Hc as (row & radii & Hr & Hd & Hi).
  rewrite Forall_forall in H. pose proof (H _ (nth_error_In _ _ Hr)) as H1.
  rewrite Forall_forall in H1. pose proof (H1 _ (nth_error_In _ _ Hd)) as H2.
  rewrite Forall_forall in H2. exact (H2 _ (nth_error_In _ _ Hi)).
Qed.

Lemma array_shape_intro (T : Type) (R C K L : nat) (m : array4 T) :
  length m = R ->
  (forall i row, nth_error m i = Some row ->
     length row = C /\
     forall j radii, nth_error row j = Some radii ->
       length radii = K /\
       forall k ir, nth_error radii k = Some ir -> length ir = L) ->
  array_shape R C K L m.
Proof.
  intros HR H. split; [split; trivial|]; apply Forall_forall; intros row Hrow;
    apply In_nth_error in Hrow; destruct Hrow as [i Hrow];
    destruct (H i row Hrow) as [HC Hrad].
  - split; trivial. apply Forall_forall. intros radii Hin.
    apply In_nth_error in Hin. destruct Hin as [j Hj]. now apply (Hrad j).
  - apply Forall_forall. intros radii Hin.
    apply In_nth_error in Hin. destruct Hin as [j Hj].
    destruct (Hrad j radii Hj) as [_ Hir].
    apply Forall_forall. intros ir Hin.
    apply In_nth_error in Hin. destruct Hin as [k Hk]. now apply (Hir k).
Qed.

Lemma array_shape_elim (T : Type) (R C K L : nat) (m : array4 T) :
  array_shape R C K L m ->
  length m = R /\
  forall i row, nth_error m i = Some row ->
     length row = C /\
     forall j radii, nth_error row j = Some radii ->
       length radii = K /\
       forall k ir, nth_error radii k = Some ir -> length ir = L.
Proof.
  intros [[HR Hm] HL]. split; trivial. intros i row Hrow.
  rewrite Forall_forall in Hm, HL.
  destruct (Hm row (nth_error_In _ _ Hrow)) as [HC Hrad].
  pose proof (HL row (nth_error_In _ _ Hrow)) as HL1.
  split; trivial. intros j radii Hj.
  rewrite Forall_forall in Hrad, HL1.
  split; [exact (Hrad radii (nth_error_In _ _ Hj))|].
  pose proof (HL1 radii (nth_error_In _ _ Hj)) as HL2.
  intros k ir Hk. rewrite Forall_forall in HL2.
  exact (HL2 ir (nth_error_In _ _ Hk)).
Qed.

Lemma nth_error_concat_regular (A : Type) (n : nat) (ls : list (list A)) (i j : nat) :
  Forall (fun x => length x = n) ls -> j < n ->
  nth_error (concat ls) (i * n + j) =
  match nth_error ls i with Some x => nth_error x j | None => None end.
Proof.
  intros H Hj. revert i; induction H as [|x ls Hx Hls IH]; intros i.
  - simpl. now destruct (i * n + j), i.
  - destruct i as [|i]; simpl.
    + rewrite nth_error_app1 by lia. reflexivity.
    + rewrite nth_error_app2 by lia.
      replace (n + i * n + j - length x) with (i * n + j) by lia. apply IH.
Qed.

Lemma length_concat_regular (A : Type) (n : nat) (ls : list (list A)) :
  Forall (fun x => length x = n) ls -> length (concat ls) = length ls * n.
Proof.
  induction 1 as [|x ls Hx Hls IH]; simpl; trivial.
  rewrite length_app, IH, Hx. reflexivity.
Qed.

Lemma Forall_concat (A : Type) (P : A -> Prop) (ls : list (list A)) :
  Forall (Forall P) ls -> Forall P (concat ls).
Proof.
  induction 1 as [|x ls Hx Hls IH]; simpl; [constructor|].
  apply Forall_app. auto.
Qed.

Lemma array_shape_levels (T : Type) (R C K L : nat) (m : array4 T) :
  array_shape R C K L m ->
  length m = R /\
  Forall (fun row => length row = C) m /\
  Forall (fun radii => length radii = K) (concat m) /\
  Forall (fun ir => length ir = L) (concat (concat m)).
Proof.
  intros [[HR Hm] HL]. split; trivial. split; [|split].
  - eapply Forall_impl; [|exact Hm]. now intros row [HC _].
  - apply Forall_concat. eapply Forall_impl; [|exact Hm]. now intros row [_ H].
  - apply Forall_concat, Forall_concat. exact HL.
Qed.

(** The row-major buffer of an array of shape (R, C, K, L) holds the
    element (a, b, k, l) at offset ((a C + b) K + k) L + l. *)
Lemma nth_error_flatten4 (T : Type) (R C K L : nat) (m : array4 T) (a b k l : nat) :
  array_shape R C K L m -> b < C -> k < K -> l < L ->
  nth_error (flatten4 m) (flat_index C K L a b k l) =
  match cell m a b k with Some ir => nth_error ir l | None => None end.
Proof.
  intros Hshape Hb Hk Hl.
  destruct (array_shape_levels _ _ _ _ _ _ Hshape) as (_ & H1 & H2 & H3).
  unfold flatten4, flat_index, cell.
  rewrite (nth_error_concat_regular _ L _ _ _ H3 Hl).
  rewrite (nth_error_concat_regular _ K _ _ _ H2 Hk).
  rewrite (nth_error_concat_regular _ C _ _ _ H1 Hb).
  destruct (nth_error m a) as [row|]; trivial.
Qed.

Lemma length_flatten4 (T : Type) (R C K L : nat) (m : array4 T) :
  array_shape R C K L m -> length (flatten4 m) = R * C * K * L.
Proof.
  intros Hshape.
  destruct (array_shape_levels _ _ _ _ _ _ Hshape) as (HR & H1 & H2 & H3).
  unfold flatten4.
  rewrite (length_concat_regular _ L _ H3), (length_concat_regular _ K _ H2),
    (length_concat_regular _ C _ H1), HR. reflexivity.
Qed.

Lemma array_shape_mask_shape (T : Type) (R C K L : nat) (m : array4 T) :
  array_shape R C K L m -> mask_shape R C K m.
Proof. now intros [H _]. Qed.

Lemma mask_shape_elim (A : Type) (R C K : nat) (m : list (list (list A))) :
  mask_shape R C K m ->
  length m = R /\
  forall i row, nth_error m i = Some row ->
     length row = C /\
     forall j radii, nth_error row j = Some radii -> length radii = K.
Proof.
  intros [HR Hm]. split; trivial. intros i row Hrow. rewrite Forall_forall in Hm.
  destruct (Hm row (nth_error_In _ _ Hrow)) as [HC Hrad]. split; trivial.
  intros j radii Hj. rewrite Forall_forall in Hrad.
  exact (Hrad radii (nth_error_In _ _ Hj)).
Qed.

Lemma mask_shape_intro (A : Type) (R C K : nat) (m : list (list (list A))) :
  length m = R ->
  (forall i row, nth_error m i = Some row ->
     length row = C /\
     forall j radii, nth_error row j = Some radii -> length radii = K) ->
  mask_shape R C K m.
Proof.
  intros HR H. split; trivial. apply Forall_forall. intros row Hrow.
  apply In_nth_error in Hrow. destruct Hrow as [i Hrow].
  destruct (H i row Hrow) as [HC Hrad]. split; trivial.
  apply Forall_forall. intros radii Hin.
  apply In_nth_error in Hin. destruct Hin as [j Hj]. now apply (Hrad j).
Qed.

(** [m[rows][:, columns]] holds at (a, b) the cell of row [rows[a]] and
    column [columns[b]]. *)
Lemma cell_select (A : Type) (R C K : nat) (m : list (list (list A)))
    (rows columns : list nat) (a b k i j : nat) :
  mask_shape R C K m ->
  nth_error rows a = Some i -> nth_error columns b = Some j ->
  i < R -> j < C ->
  cell (select rows columns m) a b k = cell m i j k.
Proof.
  intros Hshape Ha Hb Hi Hj.
  destruct (mask_shape_elim _ _ _ _ _ Hshape) as [HR Hm].
  unfold select, take, cell. rewrite !nth_error_map, Ha. cbn [option_map].
  rewrite nth_error_map, Hb. cbn [option_map].
  destruct (nth_error m i) as [row|] eqn:Hrow.
  2:{ apply nth_error_None in Hrow. lia. }
  rewrite (nth_error_nth _ _ [] Hrow).
  destruct (Hm i row Hrow) as [HC _].
  destruct (nth_error row j) as [radii|] eqn:Hradii.
  2:{ apply nth_error_None in Hradii. lia. }
  now rewrite (nth_error_nth _ _ [] Hradii).
Qed.

Lemma select_shape (A : Type) (R C K : nat) (m : list (list (list A)))
    (rows columns : list nat) :
  mask_shape R C K m ->
  Forall (fun i => i < R) rows -> Forall (fun j => j < C) columns ->
  mask_shape (length rows) (length columns) K (select rows columns m).
Proof.
  intros Hshape Hrows Hcols.
  destruct (mask_shape_elim _ _ _ _ _ Hshape) as [HR Hm].
  rewrite Forall_forall in Hrows, Hcols.
  apply mask_shape_intro.
  - unfold select, take. now rewrite !length_map.
  - intros a srow Ha. unfold select, take in Ha. rewrite !nth_error_map in Ha.
    destruct (nth_error rows a) as [i|] eqn:Hi; [|discriminate Ha].
    cbn [option_map] in Ha. injection Ha as <-.
    split; [now rewrite length_map|].
    intros b radii Hb. rewrite nth_error_map in Hb.
    destruct (nth_error columns b) as [j|] eqn:Hj; [|discriminate Hb].
    cbn [option_map] in Hb. injection Hb as <-.
    pose proof (Hrows i (nth_error_In _ _ Hi)) as Hi'.
    pose proof (Hcols j (nth_error_In _ _ Hj)) as Hj'.
    destruct (nth_error m i) as [row|] eqn:Hrow.
    2:{ apply nth_error_None in Hrow. lia. }
    rewrite (nth_error_nth _ _ [] Hrow).
    destruct (Hm i row Hrow) as [HC Hrad].
    destruct (nth_error row j) as [radii|] eqn:Hradii.
    2:{ apply nth_error_None in Hradii. lia. }
    rewrite (nth_error_nth _ _ [] Hradii). now apply (Hrad j).
Qed.

Lemma cell_masked_where (T : Type) (mask : mask3) (m : array4 T) (a b k : nat) :
  cell (masked_where mask m) a b k =
  match cell mask a b k, cell m a b k with
  | Some c, Some ir => Some (map (fun x => if c then None else Some x) ir)
  | _, _ => None
  end.
Proof.
  unfold masked_where, cell. rewrite nth_error_map2.
  destruct (nth_error mask a) as [mrow|]; trivial.
  destruct (nth_error m a) as [row|].
  2:{ destruct (nth_error mrow b) as [mr|]; trivial. now destruct (nth_error mr k). }
  rewrite nth_error_map2.
  destruct (nth_error mrow b) as [mr|]; trivial.
  destruct (nth_error row b) as [radii|].
  2:{ now destruct (nth_error mr k). }
  rewrite nth_error_map2. reflexivity.
Qed.

Lemma masked_where_shape (T : Type) (R C K L : nat) (mask : mask3) (m : array4 T) :
  mask_shape R C K mask -> array_shape R C K L m ->
  array_shape R C K L (masked_where mask m).
Proof.
  intros Hmask Hm.
  destruct (mask_shape_elim _ _ _ _ _ Hmask) as [HR Hk].
  destruct (array_shape_elim _ _ _ _ _ _ Hm) as [HR' Hk'].
  unfold masked_where. apply array_shape_intro.
  - rewrite length_map2. lia.
  - intros i row Hrow. rewrite nth_error_map2 in Hrow.
    destruct (nth_error mask i) as [mrow|] eqn:Hmrow; [|discriminate Hrow].
    destruct (nth_error m i) as [row'|] eqn:Hrow'; [|discriminate Hrow].
    injection Hrow as <-.
    destruct (Hk i mrow Hmrow) as [HC Hrad]. destruct (Hk' i row' Hrow') as [HC' Hrad'].
    split; [rewrite length_map2; lia|].
    intros j radii Hj. rewrite nth_error_map2 in Hj.
    destruct (nth_error mrow j) as [mr|] eqn:Hmr; [|discriminate Hj].
    destruct (nth_error row' j) as [radii'|] eqn:Hradii'; [|discriminate Hj].
    injection Hj as <-.
    pose proof (Hrad j mr Hmr) as HK. destruct (Hrad' j radii' Hradii') as [HK' HL].
    split; [rewrite length_map2; lia|].
    intros k ir Hir. rewrite nth_error_map2 in Hir.
    destruct (nth_error mr k) as [c|]; [|discriminate Hir].
    destruct (nth_error radii' k) as [ir'|] eqn:Hir'; [|discriminate Hir].
    injection Hir as <-. rewrite length_map. now apply (HL k).
Qed.

Lemma select_array_shape (T : Type) (R C K L : nat) (m : array4 T)
    (rows columns : list nat) :
  array_shape R C K L m ->
  Forall (fun i => i < R) rows -> Forall (fun j => j < C) columns ->
  array_shape (length rows) (length columns) K L (select rows columns m).
Proof.
  intros Hm Hrows Hcols.
  pose proof (select_shape _ _ _ _ _ _ _ (array_shape_mask_shape _ _ _ _ _ _ Hm)
                Hrows Hcols) as Hsel.
  destruct (mask_shape_elim _ _ _ _ _ Hsel) as [HR Hk].
  apply array_shape_intro; trivial.
  intros a row Ha. destruct (Hk a row Ha) as [HC Hrad]. split; trivial.
  intros b radii Hb. split; [now apply (Hrad b)|].
  intros k ir Hir.
  assert (Hc : cell (select rows columns m) a b k = Some ir).
  { apply cell_Some. eauto. }
  destruct (nth_error rows a) as [i|] eqn:Hi.
  2:{ apply nth_error_None in Hi. apply nth_error_lt in Ha. lia. }
  destruct (nth_error columns b) as [j|] eqn:Hj.
  2:{ apply nth_error_None in Hj. apply nth_error_lt in Hb. lia. }
  rewrite Forall_forall in Hrows, Hcols.
  rewrite (cell_select _ R C K m rows columns a b k i j) in Hc;
    eauto using array_shape_mask_shape, nth_error_In.
  eapply array_shape_cell; eauto.
Qed.

Lemma resolve_indices_in_range (n : nat) (indices : option (list nat)) (l : list nat) :
  resolve_indices n indices = Ok l -> Forall (fun i => i < n) l.
Proof.
  destruct indices as [given|]; simpl.
  - destruct (forallb _ given) eqn:E; [|discriminate]. intros [= <-].
    rewrite forallb_forall in E. apply Forall_forall. intros i Hi.
    now apply Nat.ltb_lt, E.
  - intros [= <-]. apply Forall_forall. intros i Hi. apply in_seq in Hi. lia.
Qed.

(** *** Scattering the responses *)

Lemma array_shape_set_cell (T : Type) (R C K L : nat) (m : array4 T) (i j k : nat)
    (ir : list T) :
  array_shape R C K L m -> length ir = L -> array_shape R C K L (set_cell m i j k ir).
Proof.
  intros [Hm HL] Hir. split; [now apply mask_shape_set_cell|].
  unfold set_cell. apply Forall_update_nth; trivial. intros row Hrow.
  apply Forall_update_nth; trivial. intros radii Hradii.
  apply Forall_update_nth; trivial.
Qed.

Lemma array_shape_np_full3 (T : Type) (R C K L : nat) (x : T) :
  array_shape R C K L (np_full3 R C K (repeat x L)).
Proof.
  split; [apply mask_shape_np_full3|]. unfold np_full3.
  apply Forall_forall. intros row Hrow. apply repeat_spec in Hrow. subst row.
  apply Forall_forall. intros radii Hr. apply repeat_spec in Hr. subst radii.
  apply Forall_forall. intros ir Hir. apply repeat_spec in Hir. subst ir.
  apply repeat_length.
Qed.

Lemma scatter_shape (T : Type) (R C K L : nat) (pmap : list (nat * nat * nat))
    (hrirs : list (list T)) (m : array4 T) :
  array_shape R C K L m -> Forall (fun ir => length ir = L) hrirs ->
  array_shape R C K L
    (fold_left (fun m '((i, j, k), ir) => set_cell m i j k ir) (combine pmap hrirs) m).
Proof.
  revert hrirs m; induction pmap as [|[[i j] k] pmap IH]; intros [|ir hrirs] m Hm Hh;
    simpl; trivial.
  inversion Hh; subst. apply IH; trivial. now apply array_shape_set_cell.
Qed.

Lemma scatter_untouched (T : Type) (pmap : list (nat * nat * nat))
    (hrirs : list (list T)) (m : array4 T) (i j k : nat) :
  ~ In (i, j, k) pmap ->
  cell (fold_left (fun m '((i, j, k), ir) => set_cell m i j k ir) (combine pmap hrirs) m)
       i j k
  = cell m i j k.
Proof.
  revert hrirs m; induction pmap as [|[[i0 j0] k0] pmap IH]; intros [|ir hrirs] m Hn;
    simpl; trivial.
  rewrite IH by (intros Hin; apply Hn; now right).
  rewrite cell_set_cell.
  destruct (Nat.eqb_spec i i0), (Nat.eqb_spec j j0), (Nat.eqb_spec k k0); simpl; trivial.
  subst. exfalso. apply Hn. now left.
Qed.

(** After [hrir_matrix[position_map] = hrirs] a cell holds the response of
    the last measurement mapped to it. *)
Lemma scatter_last (T : Type) (pmap : list (nat * nat * nat))
    (hrirs : list (list T)) (m : array4 T) (idx i j k : nat) (ir : list T) :
  nth_error pmap idx = Some (i, j, k) ->
  (forall idx', idx < idx' -> nth_error pmap idx' <> Some (i, j, k)) ->
  nth_error hrirs idx = Some ir ->
  cell m i j k <> None ->
  cell (fold_left (fun m '((i, j, k), ir) => set_cell m i j k ir) (combine pmap hrirs) m)
       i j k
  = Some ir.
Proof.
  revert hrirs m idx; induction pmap as [|[[i0 j0] k0] pmap IH];
    intros [|ir0 hrirs] m [|idx] Hp Hlast Hir Hc; try discriminate.
  - simpl in Hp, Hir. injection Hp as -> -> ->. injection Hir as ->. simpl.
    rewrite scatter_untouched.
    + rewrite cell_set_cell, !Nat.eqb_refl. simpl.
      destruct (cell m i j k); [reflexivity | congruence].
    + intros Hin. apply In_nth_error in Hin. destruct Hin as [n Hn].
      apply (Hlast (S n)); [lia | exact Hn].
  - simpl in Hp, Hir. simpl. apply (IH hrirs _ idx); trivial.
    + intros idx' Hlt. apply (Hlast (S idx')). lia.
    + rewrite cell_set_cell. destruct (_ && _); trivial.
      destruct (cell m i j k); [discriminate | congruence].
Qed.

Lemma scatter_broadcast_free (T : Type) (m : array4 T) (pmap : list (nat * nat * nat))
    (hrirs : list (list T)) (m' : array4 T) :
  length hrirs = length pmap ->
  scatter m pmap hrirs = Ok m' ->
  m' = fold_left (fun m '((i, j, k), ir) => set_cell m i j k ir) (combine pmap hrirs) m.
Proof.
  intros Hlen. unfold scatter. rewrite Hlen, Nat.eqb_refl. now intros [= <-].
Qed.

(** *** Reading the responses *)

Lemma mapM_nth (A B : Type) (f : A -> result B) (l : list A) (ys : list B) :
  mapM f l = Ok ys ->
  length ys = length l /\
  forall i x, nth_error l i = Some x ->
    exists y, f x = Ok y /\ nth_error ys i = Some y.
Proof.
  revert ys; induction l as [|x l IH]; intros ys H; simpl in H.
  - injection H as <-. split; trivial. intros [|i] x Hx; discriminate Hx.
  - bind_ok H as y Ey. bind_ok H as ys' Eys. injection H as <-.
    destruct (IH ys' eq_refl) as [Hlen Hnth]. split; [simpl; now rewrite Hlen|].
    intros [|i] x' Hx'; simpl in Hx'.
    + injection Hx' as <-. exists y. auto.
    + apply (Hnth i x' Hx').
Qed.

Lemma read_hrirs_spec (T : Type) (file : sofa_file T) (side : string)
    (hrirs : list (list T)) :
  read_hrirs file side = Ok hrirs ->
  well_formed file ->
  length hrirs = length (SourcePosition file) /\
  Forall (fun ir => length ir = dim_N file) hrirs /\
  forall idx ir l, nth_error hrirs idx = Some ir ->
    sample file side idx l = nth_error ir l.
Proof.
  unfold read_hrirs. intros H [Hlen HN].
  destruct (mapM_nth _ _ _ _ _ H) as [Hl Hnth]. split; [congruence|]. split.
  - apply Forall_forall. intros ir Hin. apply In_nth_error in Hin.
    destruct Hin as [idx Hidx].
    destruct (nth_error (Data_IR file) idx) as [meas|] eqn:Hm.
    2:{ apply nth_error_None in Hm. apply nth_error_lt in Hidx. lia. }
    destruct (Hnth idx meas Hm) as (y & Hy & Hy'). cbv beta in Hy.
    destruct (nth_error meas (if endswith side "left" then 0 else 1)) as [ir'|] eqn:Hir;
      [|discriminate Hy].
    injection Hy as Hy. subst y. rewrite Hidx in Hy'. injection Hy' as Hy'. subst ir'.
    rewrite Forall_forall in HN. pose proof (HN meas (nth_error_In _ _ Hm)) as HN'.
    rewrite Forall_forall in HN'. exact (HN' ir (nth_error_In _ _ Hir)).
  - intros idx ir l Hidx. unfold sample.
    destruct (nth_error (Data_IR file) idx) as [meas|] eqn:Hm.
    2:{ apply nth_error_None in Hm. apply nth_error_lt in Hidx. lia. }
    destruct (Hnth idx meas Hm) as (y & Hy & Hy'). cbv beta in Hy.
    destruct (nth_error meas (if endswith side "left" then 0 else 1)) as [ir'|] eqn:Hir;
      [|discriminate Hy].
    injection Hy as Hy. subst y. rewrite Hidx in Hy'. now injection Hy' as ->.
Qed.

(** *** Replicating a pole *)

Lemma length_where_last (T : Type) (cond : list bool) (x y : list T) :
  length (where_last cond x y) = Nat.min (length cond) (Nat.min (length x) (length y)).
Proof. unfold where_last. now rewrite length_map2, length_combine. Qed.

Lemma map2_where_flag (T : Type) (L : nat) (flag : bool) (source t : list (list T)) :
  length source = length t ->
  (forall k s, nth_error source k = Some s -> length s = L) ->
  (forall k x, nth_error t k = Some x -> length x = L) ->
  map2 (where_last (repeat flag L)) source t = if flag then source else t.
Proof.
  revert t; induction source as [|s source IH]; intros [|x t] Hlen Hs Ht;
    try discriminate Hlen.
  - now destruct flag.
  - simpl. pose proof (Hs 0 s eq_refl) as Hs0. pose proof (Ht 0 x eq_refl) as Hx0.
    rewrite IH.
    + rewrite <- Hx0 at 1. rewrite where_last_repeat by congruence. now destruct flag.
    + simpl in Hlen. lia.
    + intros k s' Hk. apply (Hs (S k)). exact Hk.
    + intros k x' Hk. apply (Ht (S k)). exact Hk.
Qed.

Lemma where_pole_spec (T : Type) (K L : nat) (single : option (list bool))
    (source : list (list T)) (target v : list (list (list T))) :
  length source = K ->
  (forall k s, nth_error source k = Some s -> length s = L) ->
  (forall i t, nth_error target i = Some t ->
     length t = K /\ forall k x, nth_error t k = Some x -> length x = L) ->
  where_pole single L source target = Ok v ->
  length v = length target /\
  forall i t, nth_error target i = Some t ->
    exists t', nth_error v i = Some t' /\
      length t' = K /\
      (forall k x, nth_error t' k = Some x -> length x = L) /\
      (single = None -> t' = t) /\
      (forall flag, single = Some [flag] -> t' = if flag then source else t).
Proof.
  intros Hsrc HsrcL Htgt. unfold where_pole.
  destruct single as [cond|].
  2:{ intros [= <-]. split; trivial. intros i t Ht. exists t.
      destruct (Htgt i t Ht) as [HK HL]. repeat split; trivial. discriminate. }
  assert (Hgen : forall c : list bool, length c = L ->
            length (map (map2 (where_last c) source) target) = length target /\
            forall i t, nth_error target i = Some t ->
              exists t', nth_error (map (map2 (where_last c) source) target) i = Some t' /\
                length t' = K /\
                (forall k x, nth_error t' k = Some x -> length x = L) /\
                t' = map2 (where_last c) source t).
  { intros c Hc. split; [apply length_map|]. intros i t Ht.
    destruct (Htgt i t Ht) as [HK HL].
    exists (map2 (where_last c) source t). rewrite nth_error_map, Ht.
    split; trivial. split; [rewrite length_map2; lia|]. split; trivial.
    intros k x Hx. rewrite nth_error_map2 in Hx.
    destruct (nth_error source k) as [s|] eqn:Hs; [|discriminate Hx].
    destruct (nth_error t k) as [y|] eqn:Hy; [|discriminate Hx].
    injection Hx as <-. rewrite length_where_last, Hc, (HsrcL k s Hs), (HL k y Hy).
    lia. }
  destruct (length cond =? 1) eqn:E1.
  - intros [= <-]. destruct (Hgen (repeat (hd false cond) L) (repeat_length _ _))
      as [Hlen Hnth].
    split; trivial. intros i t Ht.
    destruct (Hnth i t Ht) as (t' & Ht' & HK' & HL' & Heq).
    exists t'. repeat split; trivial; [discriminate|].
    intros flag [= ->]. rewrite Heq. cbn [hd].
    destruct (Htgt i t Ht) as [HK HL].
    apply map2_where_flag; trivial. congruence.
  - destruct (length cond =? L) eqn:E2; [|discriminate].
    apply Nat.eqb_eq in E2. intros [= <-].
    destruct (Hgen cond E2) as [Hlen Hnth].
    split; trivial. intros i t Ht.
    destruct (Hnth i t Ht) as (t' & Ht' & HK' & HL' & Heq).
    exists t'. repeat split; trivial; [discriminate|].
    intros flag [= ->]. discriminate E1.
Qed.

Lemma cell_assign_column (A : Type) (j : nat) (v : list (list A))
    (m : list (list (list A))) (i j' k : nat) :
  length v = length m ->
  cell (assign_column j v m) i j' k =
  if j' =? j
  then match nth_error m i, nth_error v i with
       | Some row, Some radii =>
           match nth_error row j with Some _ => nth_error radii k | None => None end
       | _, _ => None
       end
  else cell m i j' k.
Proof.
  intros Hlen. unfold assign_column, cell. rewrite nth_error_map2.
  destruct (nth_error m i) as [row|] eqn:Hrow.
  2:{ now destruct (j' =? j). }
  destruct (nth_error v i) as [radii|] eqn:Hv.
  2:{ apply nth_error_None in Hv. apply nth_error_lt in Hrow. lia. }
  rewrite nth_error_update_nth.
  destruct (Nat.eqb_spec j' j) as [->|_]; trivial.
  now destruct (nth_error row j).
Qed.

(** Replicating a pole keeps the shape of the matrix and the cells outside
    the pole column; a pole that is not shared leaves the column as it
    is, and with one radius a shared pole puts the cell of the source row
    in every row of the column. *)
Lemma replicate_pole_cells (T : Type) (R C K L : nat) (single : option (list bool))
    (pole_idx j : nat) (m m' : array4 T) :
  array_shape R C K L m -> j < C ->
  replicate_pole single pole_idx j L m = Ok m' ->
  array_shape R C K L m' /\
  (forall i j' k, j' <> j -> cell m' i j' k = cell m i j' k) /\
  (single = None -> forall i k, cell m' i j k = cell m i j k) /\
  (forall flag, single = Some [flag] ->
     forall i k, i < R ->
       cell m' i j k = if flag then cell m pole_idx j k else cell m i j k).
Proof.
  intros Hshape Hj. unfold replicate_pole.
  destruct (array_shape_elim _ _ _ _ _ _ Hshape) as [HR Hm].
  destruct (nth_error m pole_idx) as [prow|] eqn:Hprow; [|discriminate].
  destruct (Hm _ _ Hprow) as [HCp Hradp].
  destruct (nth_error prow j) as [source|] eqn:Hsource.
  2:{ apply nth_error_None in Hsource. lia. }
  rewrite (nth_error_nth _ _ [] Hsource).
  destruct (Hradp _ _ Hsource) as [HKs HLs].
  intros H. bind_ok H as v Ev. injection H as <-.
  assert (Htgt : forall i t, nth_error (column j m) i = Some t ->
            length t = K /\ forall k x, nth_error t k = Some x -> length x = L).
  { intros i t Ht. unfold column in Ht. rewrite nth_error_map in Ht.
    destruct (nth_error m i) as [row|] eqn:Hrow; [|discriminate Ht].
    injection Ht as <-. destruct (Hm _ _ Hrow) as [HC Hrad].
    destruct (nth_error row j) as [radii|] eqn:Hradii.
    2:{ apply nth_error_None in Hradii. lia. }
    rewrite (nth_error_nth _ _ [] Hradii). now apply (Hrad j). }
  destruct (where_pole_spec _ K L single source (column j m) v HKs HLs Htgt Ev)
    as [Hlen Hv].
  assert (Hlen' : length v = length m) by (unfold column in Hlen; now rewrite length_map in Hlen).
  assert (Hcol : forall i row, nth_error m i = Some row ->
            exists radii, nth_error row j = Some radii /\
                          nth_error (column j m) i = Some radii).
  { intros i row Hrow. destruct (Hm _ _ Hrow) as [HC _].
    destruct (nth_error row j) as [radii|] eqn:Hradii.
    2:{ apply nth_error_None in Hradii. lia. }
    exists radii. split; trivial. unfold column.
    now rewrite nth_error_map, Hrow, <- (nth_error_nth _ _ [] Hradii). }
  split; [|split; [|split]].
  - apply array_shape_intro.
    + unfold assign_column. rewrite length_map2. lia.
    + intros i row' Hrow'. unfold assign_column in Hrow'.
      rewrite nth_error_map2 in Hrow'.
      destruct (nth_error m i) as [row|] eqn:Hrow; [|discriminate Hrow'].
      destruct (nth_error v i) as [radii_v|] eqn:Hvi; [|discriminate Hrow'].
      injection Hrow' as <-. destruct (Hm _ _ Hrow) as [HC Hrad].
      split; [now rewrite length_update_nth|].
      intros j' radii' Hj'. rewrite nth_error_update_nth in Hj'.
      destruct (j' =? j).
      * destruct (nth_error row j') as [old|]; [|discriminate Hj'].
        injection Hj' as <-.
        destruct (Hcol i row Hrow) as (radii & _ & Hci).
        destruct (Hv i radii Hci) as (t' & Ht' & HK' & HL' & _).
        rewrite Hvi in Ht'. injection Ht' as <-. auto.
      * now apply (Hrad j').
  - intros i j' k Hne. rewrite cell_assign_column by trivial.
    destruct (Nat.eqb_spec j' j); [contradiction | reflexivity].
  - intros -> i k. rewrite cell_assign_column, Nat.eqb_refl by trivial.
    unfold cell. destruct (nth_error m i) as [row|] eqn:Hrow; trivial.
    destruct (Hcol i row Hrow) as (radii & Hradii & Hci).
    destruct (Hv i radii Hci) as (t' & Ht' & _ & _ & Heq & _).
    rewrite Ht', Hradii, (Heq eq_refl). reflexivity.
  - intros flag -> i k Hi. rewrite cell_assign_column, Nat.eqb_refl by trivial.
    unfold cell. rewrite Hprow, Hsource.
    destruct (nth_error m i) as [row|] eqn:Hrow.
    2:{ apply nth_error_None in Hrow. lia. }
    destruct (Hcol i row Hrow) as (radii & Hradii & Hci).
    destruct (Hv i radii Hci) as (t' & Ht' & _ & _ & _ & Heq).
    rewrite Ht', Hradii, (Heq flag eq_refl). now destruct flag.
Qed.

(** *** The poles of a grid with one radius *)

Lemma occupied_in_range (positions : list (Q * Q * Q)) (g : grid) (i j k : nat) :
  map_sofa_position_order_to_matrix positions = Ok g ->
  occupied g i j k ->
  i < length (unique_row_angles g) /\ j < length (unique_column_angles g) /\
  k < length (unique_radii g).
Proof.
  intros H Hocc.
  destruct (reconciler_inv positions g H)
    as (_ & _ & _ & _ & mask0 & _ & Hshape0 & Hiff & _).
  apply Hiff in Hocc. apply cell_Some in Hocc.
  destruct Hocc as (row & radii & Hrow & Hradii & Hb).
  destruct (mask_shape_elim _ _ _ _ _ Hshape0) as [HR Hm].
  destruct (Hm _ _ Hrow) as [HC Hrad]. pose proof (Hrad _ _ Hradii) as HK.
  apply nth_error_lt in Hrow, Hradii, Hb. lia.
Qed.

Lemma single_one_radius (s : list bool) :
  length s = 1 -> exists flag, s = [flag].
Proof. destruct s as [|flag [|? ?]]; try discriminate. eauto. Qed.

Lemma reconciler_poles_one_radius (positions : list (Q * Q * Q)) (g : grid) :
  map_sofa_position_order_to_matrix positions = Ok g ->
  length (unique_radii g) = 1 ->
  let C := length (unique_column_angles g) in
  (single_end_mask g = None \/ exists flag, single_end_mask g = Some [flag]) /\
  (single_start_mask g = None \/ exists flag, single_start_mask g = Some [flag]) /\
  (shared (single_end_mask g) 0 = true ->
   isclose (last_column_angle g) 90 = true /\
   occupied g (end_pole_idx g) (C - 1) 0 /\
   forall i, occupied g i (C - 1) 0 -> i = end_pole_idx g) /\
  (shared (single_start_mask g) 0 = true ->
   isclose (hd 0%Q (unique_column_angles g)) (-90) = true /\
   occupied g (start_pole_idx g) 0 0 /\
   forall i, occupied g i 0 0 -> i = start_pole_idx g).
Proof.
  intros H HK C.
  destruct (reconciler_inv positions g H)
    as (_ & _ & _ & HC & mask0 & mask1 & Hshape0 & Hocc & Hend & Hstart).
  fold C in HC, Hend, Hshape0. rewrite HK in *.
  assert (HC1 : C - 1 < C) by lia.
  destruct (resolve_pole_spec _ _ _ _ _ _ _ _ _ _ Hshape0 HC1 Hend)
    as (Hshape1 & Hlen_end & Hcell1).
  destruct (resolve_pole_spec _ _ _ _ _ _ _ _ _ _ Hshape1 HC Hstart)
    as (_ & Hlen_start & _).
  split; [|split; [|split]].
  - destruct (single_end_mask g) as [s|]; [right|now left].
    destruct (single_one_radius s (Hlen_end s eq_refl)) as [flag ->]. eauto.
  - destruct (single_start_mask g) as [s|]; [right|now left].
    destruct (single_one_radius s (Hlen_start s eq_refl)) as [flag ->]. eauto.
  - intros Hshared.
    destruct (resolve_pole_one_radius_conv _ _ _ _ _ _ _ _ _ Hshape0 HC1 Hend Hshared)
      as (Hclose & Hsrc & Huniq).
    split; trivial. split; [now apply Hocc|].
    intros i Hi. apply Huniq. now apply Hocc.
  - intros Hshared.
    destruct (resolve_pole_one_radius_conv _ _ _ _ _ _ _ _ _ Hshape1 HC Hstart Hshared)
      as (Hclose & Hsrc & Huniq).
    assert (Hsame : forall i b, cell mask0 i 0 0 = Some b -> cell mask1 i 0 0 = Some b).
    { intros i b Hb. rewrite (Hcell1 _ _ _ _ Hb).
      destruct (Nat.eqb_spec 0 (C - 1)) as [E|_]; [|reflexivity].
      assert (Hone : length (unique_column_angles g) = 1) by (unfold C in *; lia).
      unfold last_column_angle in Hend. rewrite (rev_hd_singleton _ _ _ Hone) in Hend.
      unfold resolve_pole in Hend.
      rewrite (isclose_poles_disjoint _ Hclose) in Hend. injection Hend as _ <- _.
      reflexivity. }
    assert (Hiff : forall i, cell mask1 i 0 0 = Some false <-> occupied g i 0 0).
    { intros i. rewrite <- Hocc. split; intros Hc.
      - destruct (cell mask0 i 0 0) as [b|] eqn:Hb.
        + rewrite (Hsame i b Hb) in Hc. exact Hc.
        + exfalso. apply cell_Some in Hc. destruct Hc as (row & rad & Hrow & Hrad & Hx).
          destruct (cell_in_range _ _ _ _ mask0 i 0 0 Hshape0) as [x Hx']; try lia.
          * apply nth_error_lt in Hrow. destruct Hshape1 as [<- _]. exact Hrow.
          * congruence.
      - now apply Hsame. }
    split; trivial. split; [now apply Hiff|].
    intros i Hi. apply Huniq. now apply Hiff.
Qed.

(** *** The array of the time domain *)

Lemma hrir_time_inv (T : Type) (S : SignalOps T) (Db : DecibelOps T)
    (self : datapoint) (file : sofa_file T) (side : string)
    (row_indices column_indices : option (list nat))
    (g : grid) (rows columns : list nat) (a : ndarray (option T)) :
  hrir self file side "time" row_indices column_indices = Ok a ->
  startswith side "mirrored" = false ->
  well_formed file ->
  map_sofa_position_order_to_matrix (SourcePosition file) = Ok g ->
  let R := length (unique_row_angles g) in
  let C := length (unique_column_angles g) in
  let K := length (unique_radii g) in
  let L := dim_N file in
  resolve_indices R row_indices = Ok rows ->
  resolve_indices C column_indices = Ok columns ->
  exists hrirs m0 m1 m2,
    read_hrirs file side = Ok hrirs /\
    m0 = fold_left (fun m '((i, j, k), ir) => set_cell m i j k ir)
                   (combine (position_map g) hrirs)
                   (np_full3 R C K (repeat np_empty L)) /\
    array_shape R C K L m0 /\
    replicate_pole (single_start_mask g) (start_pole_idx g) 0 L m0 = Ok m1 /\
    replicate_pole (single_end_mask g) (end_pole_idx g) (C - 1) L m1 = Ok m2 /\
    shape a = filter (fun n => negb (n =? 1)) [length rows; length columns; K; L] /\
    data a = map (option_map astype)
                 (flatten4 (masked_where (select rows columns (position_mask g))
                                         (select rows columns m2))).
Proof.
  intros H Hside Hwf Hg R C K L Hrows Hcols.
  unfold hrir in H. bind_ok H as r Er. destruct r as [[g' rows'] a'].
  rewrite Hside in H. injection H as ->.
  unfold hrir_squeezed in Er.
  bind_ok Er as hrirs Eh. rewrite Hg in Er. cbn [bind] in Er.
  fold R C K L in Er.
  bind_ok Er as m0 E0. bind_ok Er as m1 E1. bind_ok Er as m2 E2.
  rewrite Hrows, Hcols in Er. cbn [bind] in Er.
  rewrite transform_time in Er. cbn [bind] in Er.
  change (String.eqb "time" "complex") with false in Er. cbn [andb] in Er.
  injection Er as <- <- <-.
  destruct (read_hrirs_spec _ _ _ _ Eh Hwf) as (Hlen & HL & _).
  destruct (reconciler_grid_spec _ _ Hg) as ((Hpm & _) & _).
  apply scatter_broadcast_free in E0; [|congruence].
  exists hrirs, m0, m1, m2.
  split; trivial. split; trivial. split; [|auto].
  subst m0. apply scatter_shape; trivial. apply array_shape_np_full3.
Qed.

Lemma masked_entry (T : Type) (f : T -> T) (R C K L : nat) (mask : mask3) (m : array4 T)
    (rows columns : list nat) (a b k l i j : nat) :
  mask_shape R C K mask -> array_shape R C K L m ->
  Forall (fun i => i < R) rows -> Forall (fun j => j < C) columns ->
  nth_error rows a = Some i -> nth_error columns b = Some j -> k < K -> l < L ->
  exists c ir x,
    cell mask i j k = Some c /\ cell m i j k = Some ir /\ nth_error ir l = Some x /\
    nth_error (map (option_map f)
                   (flatten4 (masked_where (select rows columns mask)
                                           (select rows columns m))))
              (flat_index (length columns) K L a b k l)
    = Some (if c then None else Some (f x)).
Proof.
  intros Hmask Hm Hrows Hcols Ha Hb Hk Hl.
  pose proof Hrows as Hrows'. pose proof Hcols as Hcols'.
  rewrite Forall_forall in Hrows', Hcols'.
  pose proof (Hrows' i (nth_error_In _ _ Ha)) as Hi.
  pose proof (Hcols' j (nth_error_In _ _ Hb)) as Hj.
  destruct (cell_in_range _ _ _ _ mask i j k Hmask Hi Hj Hk) as [c Hc].
  destruct (cell_in_range _ _ _ _ m i j k (array_shape_mask_shape _ _ _ _ _ _ Hm) Hi Hj Hk)
    as [ir Hir].
  pose proof (array_shape_cell _ _ _ _ _ _ _ _ _ _ Hm Hir) as HL.
  destruct (nth_error ir l) as [x|] eqn:Hx.
  2:{ apply nth_error_None in Hx. lia. }
  exists c, ir, x. repeat split; trivial.
  rewrite nth_error_map.
  rewrite (nth_error_flatten4 _ (length rows) (length columns) K L).
  - rewrite cell_masked_where.
    rewrite (cell_select _ R C K mask rows columns a b k i j),
            (cell_select _ R C K m rows columns a b k i j), Hc, Hir;
      eauto using array_shape_mask_shape.
    rewrite nth_error_map, Hx. cbn [option_map]. now destruct c.
  - apply masked_where_shape.
    + now apply (select_shape _ R C K).
    + now apply (select_array_shape _ R C K L).
  - eapply nth_error_lt; eauto.
  - exact Hk.
  - exact Hl.
Qed.

(** X15: in the time domain the array holds one element per selected row,
    selected column, radius and sample, in row-major order, and an element
    is masked exactly when its cell holds no measurement and does not lie
    in the column of a shared pole. *)
Theorem hrir_time_masks_missing_cells
    (T : Type) (S : SignalOps T) (Db : DecibelOps T)
    (self : datapoint) (file : sofa_file T) (side : string)
    (row_indices column_indices : option (list nat))
    (g : grid) (rows columns : list nat) (a : ndarray (option T)) :
  hrir self file side "time" row_indices column_indices = Ok a ->
  startswith side "mirrored" = false ->
  well_formed file ->
  map_sofa_position_order_to_matrix (SourcePosition file) = Ok g ->
  let K := length (unique_radii g) in
  let L := dim_N file in
  resolve_indices (length (unique_row_angles g)) row_indices = Ok rows ->
  resolve_indices (length (unique_column_angles g)) column_indices = Ok columns ->
  length (data a) = length rows * length columns * K * L /\
  forall a' b k l i j,
    nth_error rows a' = Some i -> nth_error columns b = Some j -> k < K -> l < L ->
    exists v,
      nth_error (data a) (flat_index (length columns) K L a' b k l) = Some v /\
      (v = None <-> ~ (occupied g i j k \/ pole_marked g j k)).
Proof.
  intros H Hside Hwf Hg K L Hrows Hcols.
  destruct (hrir_time_inv _ _ _ _ _ _ _ _ _ _ _ _ H Hside Hwf Hg Hrows Hcols)
    as (hrirs & m0 & m1 & m2 & _ & _ & Hshape0 & E1 & E2 & _ & Hdata).
  destruct (reconciler_grid_spec _ _ Hg) as (_ & Hmask & Hcells).
  destruct (reconciler_inv _ _ Hg) as (_ & _ & _ & HC & _).
  destruct (replicate_pole_cells _ _ _ _ _ _ _ _ _ _ Hshape0 HC E1) as (Hshape1 & _).
  assert (HC1 : length (unique_column_angles g) - 1 < length (unique_column_angles g))
    by lia.
  destruct (replicate_pole_cells _ _ _ _ _ _ _ _ _ _ Hshape1 HC1 E2) as (Hshape2 & _).
  pose proof (resolve_indices_in_range _ _ _ Hrows) as Hrin.
  pose proof (resolve_indices_in_range _ _ _ Hcols) as Hcin.
  split.
  - rewrite Hdata, length_map.
    apply (length_flatten4 _ (length rows) (length columns) K L).
    apply masked_where_shape.
    + now apply (select_shape _ _ _ _ _ _ _ Hmask).
    + now apply (select_array_shape _ _ _ _ _ _ _ _ Hshape2).
  - intros a' b k l i j Ha Hb Hk Hl.
    destruct (masked_entry _ astype _ _ _ _ _ _ _ _ a' b k l i j
                Hmask Hshape2 Hrin Hcin Ha Hb Hk Hl)
      as (c & ir & x & Hc & _ & _ & Hentry).
    rewrite Hdata. eexists. split; [exact Hentry|].
    rewrite Forall_forall in Hrin, Hcin.
    pose proof (Hrin i (nth_error_In _ _ Ha)) as Hi.
    pose proof (Hcin j (nth_error_In _ _ Hb)) as Hj.
    destruct (Hcells i j k Hi Hj Hk) as [Hpresent Hmissing].
    destruct c; split; intros Hv; try discriminate Hv; trivial.
    + intros Hp. apply Hpresent in Hp. congruence.
    + exfalso. apply Hmissing in Hv. congruence.
Qed.

Lemma replicate_pole_step (T : Type) (R C L : nat) (single : option (list bool))
    (pole_idx j : nat) (m m' : array4 T) :
  array_shape R C 1 L m -> j < C ->
  replicate_pole single pole_idx j L m = Ok m' ->
  (single = None \/ exists flag, single = Some [flag]) ->
  forall i j', i < R ->
    cell m' i j' 0 =
    if (j' =? j) && shared single 0 then cell m pole_idx j 0 else cell m i j' 0.
Proof.
  intros Hshape Hj H Hsingle i j' Hi.
  destruct (replicate_pole_cells _ _ _ _ _ _ _ _ _ _ Hshape Hj H)
    as (_ & Hother & Hnone & Hflag).
  destruct (Nat.eqb_spec j' j) as [->|Hne]; cbn [andb].
  - destruct Hsingle as [->|[flag ->]].
    + now apply Hnone.
    + now apply Hflag.
  - now apply Hother.
Qed.

Lemma replicate_pole_none (T : Type) (R C K L : nat) (pole_idx j : nat)
    (m m' : array4 T) :
  array_shape R C K L m -> j < C ->
  replicate_pole None pole_idx j L m = Ok m' ->
  forall i j' k, cell m' i j' k = cell m i j' k.
Proof.
  intros Hshape Hj H i j' k.
  destruct (replicate_pole_cells _ _ _ _ _ _ _ _ _ _ Hshape Hj H)
    as (_ & Hother & Hnone & _).
  destruct (Nat.eq_dec j' j) as [->|Hne]; auto.
Qed.

(** The matrix after lines 207 and 208, for a grid without a pole or with
    one radius: a cell with a measurement keeps its response, and with one
    radius the cells of a shared pole hold the response of the cell of the
    source row. *)
Lemma hrir_matrix_cells (T : Type) (positions : list (Q * Q * Q)) (g : grid) (L : nat)
    (m0 m1 m2 : array4 T) :
  map_sofa_position_order_to_matrix positions = Ok g ->
  let R := length (unique_row_angles g) in
  let C := length (unique_column_angles g) in
  let K := length (unique_radii g) in
  array_shape R C K L m0 ->
  replicate_pole (single_start_mask g) (start_pole_idx g) 0 L m0 = Ok m1 ->
  replicate_pole (single_end_mask g) (end_pole_idx g) (C - 1) L m1 = Ok m2 ->
  (K = 1 \/ (single_start_mask g = None /\ single_end_mask g = None) ->
   forall i j k, occupied g i j k -> cell m2 i j k = cell m0 i j k) /\
  (K = 1 ->
   forall i, i < R ->
     (shared (single_end_mask g) 0 = true ->
      cell m2 i (C - 1) 0 = cell m0 (end_pole_idx g) (C - 1) 0) /\
     (shared (single_start_mask g) 0 = true ->
      cell m2 i 0 0 = cell m0 (start_pole_idx g) 0 0)).
Proof.
  intros Hg R C K Hshape0 E1 E2.
  destruct (reconciler_inv _ _ Hg) as (_ & _ & _ & HC & _). fold C in HC.
  assert (HC1 : C - 1 < C) by lia.
  destruct (replicate_pole_cells _ _ _ _ _ _ _ _ _ _ Hshape0 HC E1) as (Hshape1 & _).
  assert (Hone : K = 1 ->
            (forall i j, i < R ->
               cell m1 i j 0 =
               if (j =? 0) && shared (single_start_mask g) 0
               then cell m0 (start_pole_idx g) 0 0 else cell m0 i j 0) /\
            (forall i j, i < R ->
               cell m2 i j 0 =
               if (j =? C - 1) && shared (single_end_mask g) 0
               then cell m1 (end_pole_idx g) (C - 1) 0 else cell m1 i j 0) /\
            (forall i j, occupied g i j 0 -> cell m1 i j 0 = cell m0 i j 0) /\
            (forall i j, occupied g i j 0 -> cell m2 i j 0 = cell m1 i j 0)).
  { intros HK. fold K in Hshape0, Hshape1. rewrite HK in Hshape0, Hshape1.
    destruct (reconciler_poles_one_radius _ _ Hg HK) as (Hfe & Hfs & Hend & Hstart).
    fold C in Hend.
    pose proof (replicate_pole_step _ _ _ _ _ _ _ _ _ Hshape0 HC E1 Hfs) as Hs1.
    pose proof (replicate_pole_step _ _ _ _ _ _ _ _ _ Hshape1 HC1 E2 Hfe) as Hs2.
    split; [exact Hs1|]. split; [exact Hs2|]. split.
    - intros i j Hocc. destruct (occupied_in_range _ _ _ _ _ Hg Hocc) as (Hi & _).
      rewrite (Hs1 i j Hi).
      destruct (Nat.eqb_spec j 0) as [->|_]; cbn [andb]; trivial.
      destruct (shared (single_start_mask g) 0) eqn:Hsh; trivial.
      destruct (Hstart eq_refl) as (_ & _ & Huniq). now rewrite (Huniq i Hocc).
    - intros i j Hocc. destruct (occupied_in_range _ _ _ _ _ Hg Hocc) as (Hi & _).
      rewrite (Hs2 i j Hi).
      destruct (Nat.eqb_spec j (C - 1)) as [->|_]; cbn [andb]; trivial.
      destruct (shared (single_end_mask g) 0) eqn:Hsh; trivial.
      destruct (Hend eq_refl) as (_ & _ & Huniq). now rewrite (Huniq i Hocc). }
  split.
  - intros [HK|[Hs He]] i j k Hocc.
    + destruct (Hone HK) as (_ & _ & H1 & H2).
      destruct (occupied_in_range _ _ _ _ _ Hg Hocc) as (_ & _ & Hk).
      fold K in Hk. assert (k = 0) by lia. subst k.
      now rewrite (H2 i j Hocc), (H1 i j Hocc).
    + rewrite Hs in E1. rewrite He in E2.
      rewrite (replicate_pole_none _ _ _ _ _ _ _ _ _ Hshape1 HC1 E2).
      apply (replicate_pole_none _ _ _ _ _ _ _ _ _ Hshape0 HC E1).
  - intros HK i Hi.
    destruct (Hone HK) as (Hs1 & Hs2 & H1 & H2).
    destruct (reconciler_poles_one_radius _ _ Hg HK) as (_ & _ & Hend & Hstart).
    fold C in Hend. split.
    + intros Hsh. rewrite (Hs2 i (C - 1) Hi), Nat.eqb_refl, Hsh. cbn [andb].
      destruct (Hend Hsh) as (_ & Hocc & _). now apply H1.
    + intros Hsh. rewrite (Hs2 i 0 Hi).
      destruct (Nat.eqb_spec 0 (C - 1)) as [E|_]; cbn [andb].
      * destruct (shared (single_end_mask g) 0) eqn:Hshe.
        -- exfalso. destruct (Hend eq_refl) as (Hclose & _).
           destruct (Hstart Hsh) as (Hclose' & _).
           unfold last_column_angle in Hclose.
           rewrite (rev_hd_singleton _ 0%Q (unique_column_angles g)) in Hclose
             by (unfold C in *; lia).
           rewrite (isclose_poles_disjoint _ Hclose') in Hclose. discriminate Hclose.
        -- rewrite (Hs1 i 0 Hi), Hsh. reflexivity.
      * rewrite (Hs1 i 0 Hi), Hsh. reflexivity.
Qed.

Lemma scatter_cell_last (T : Type) (positions : list (Q * Q * Q)) (g : grid)
    (L : nat) (x0 : T) (hrirs : list (list T)) (idx i j k : nat) :
  map_sofa_position_order_to_matrix positions = Ok g ->
  length hrirs = length positions ->
  last_at g idx i j k ->
  exists ir,
    nth_error hrirs idx = Some ir /\
    cell (fold_left (fun m '((i, j, k), ir) => set_cell m i j k ir)
                    (combine (position_map g) hrirs)
                    (np_full3 (length (unique_row_angles g))
                              (length (unique_column_angles g))
                              (length (unique_radii g)) (repeat x0 L)))
         i j k
    = Some ir.
Proof.
  intros Hg Hlen [Hidx Hlast].
  destruct (reconciler_grid_spec _ _ Hg) as ((Hpm & _) & _).
  destruct (nth_error hrirs idx) as [ir|] eqn:Hir.
  2:{ apply nth_error_None in Hir. apply nth_error_lt in Hidx. lia. }
  exists ir. split; trivial.
  apply (scatter_last _ _ _ _ idx); trivial.
  destruct (occupied_in_range _ _ i j k Hg (nth_error_In _ _ Hidx)) as (Hi & Hj & Hk).
  rewrite cell_np_full3 by assumption. discriminate.
Qed.

(** X16: in the time domain, for a grid without a shared pole or with one
    radius, the element of a selected cell with a measurement is sample
    [l], cast to the dtype, of the last measurement mapped to the cell,
    read at receiver 0 when the side ends with 'left' and at receiver 1
    otherwise. *)
Theorem hrir_time_measured_cells
    (T : Type) (S : SignalOps T) (Db : DecibelOps T)
    (self : datapoint) (file : sofa_file T) (side : string)
    (row_indices column_indices : option (list nat))
    (g : grid) (rows columns : list nat) (a : ndarray (option T)) :
  hrir self file side "time" row_indices column_indices = Ok a ->
  startswith side "mirrored" = false ->
  well_formed file ->
  map_sofa_position_order_to_matrix (SourcePosition file) = Ok g ->
  let K := length (unique_radii g) in
  let L := dim_N file in
  resolve_indices (length (unique_row_angles g)) row_indices = Ok rows ->
  resolve_indices (length (unique_column_angles g)) column_indices = Ok columns ->
  K = 1 \/ (single_start_mask g = None /\ single_end_mask g = None) ->
  forall a' b l i j k idx,
    nth_error rows a' = Some i -> nth_error columns b = Some j -> l < L ->
    last_at g idx i j k ->
    exists x,
      sample file side idx l = Some x /\
      nth_error (data a) (flat_index (length columns) K L a' b k l)
      = Some (Some (astype x)).
Proof.
  intros H Hside Hwf Hg K L Hrows Hcols Hpoles a' b l i j k idx Ha Hb Hl Hlast.
  destruct (hrir_time_inv _ _ _ _ _ _ _ _ _ _ _ _ H Hside Hwf Hg Hrows Hcols)
    as (hrirs & m0 & m1 & m2 & Eh & Em0 & Hshape0 & E1 & E2 & _ & Hdata).
  destruct (reconciler_grid_spec _ _ Hg) as (_ & Hmask & Hcells).
  destruct (reconciler_inv _ _ Hg) as (_ & _ & _ & HC & _).
  destruct (replicate_pole_cells _ _ _ _ _ _ _ _ _ _ Hshape0 HC E1) as (Hshape1 & _).
  assert (HC1 : length (unique_column_angles g) - 1 < length (unique_column_angles g))
    by lia.
  destruct (replicate_pole_cells _ _ _ _ _ _ _ _ _ _ Hshape1 HC1 E2) as (Hshape2 & _).
  pose proof (resolve_indices_in_range _ _ _ Hrows) as Hrin.
  pose proof (resolve_indices_in_range _ _ _ Hcols) as Hcin.
  destruct (read_hrirs_spec _ _ _ _ Eh Hwf) as (Hlen & _ & Hsample).
  assert (Hocc : occupied g i j k) by (destruct Hlast as [Hidx _]; eapply nth_error_In; eauto).
  destruct (occupied_in_range _ _ _ _ _ Hg Hocc) as (Hi & Hj & Hk).
  destruct (masked_entry _ astype _ _ _ _ _ _ _ _ a' b k l i j
              Hmask Hshape2 Hrin Hcin Ha Hb Hk Hl)
    as (c & ir & x & Hc & Hir & Hx & Hentry).
  destruct (Hcells i j k Hi Hj Hk) as [Hpresent _].
  rewrite Hpresent in Hc by (now left). injection Hc as <-.
  destruct (hrir_matrix_cells _ _ _ _ _ _ _ Hg Hshape0 E1 E2) as [Hkeep _].
  rewrite (Hkeep Hpoles i j k Hocc) in Hir.
  destruct (scatter_cell_last _ _ _ L np_empty hrirs idx i j k Hg Hlen Hlast)
    as (ir' & Hir' & Hcell).
  assert (Hcell0 : cell m0 i j k = Some ir') by (rewrite Em0; exact Hcell).
  rewrite Hcell0 in Hir. injection Hir as ->.
  exists x. split.
  - rewrite (Hsample idx ir l Hir'). exact Hx.
  - rewrite Hdata. exact Hentry.
Qed.

(** X17: in the time domain, for a grid with one radius, every selected row
    holds in the column of a shared pole the response of the last
    measurement at the source row of that pole. *)
Theorem hrir_time_shared_pole
    (T : Type) (S : SignalOps T) (Db : DecibelOps T)
    (self : datapoint) (file : sofa_file T) (side : string)
    (row_indices column_indices : option (list nat))
    (g : grid) (rows columns : list nat) (a : ndarray (option T)) :
  hrir self file side "time" row_indices column_indices = Ok a ->
  startswith side "mirrored" = false ->
  well_formed file ->
  map_sofa_position_order_to_matrix (SourcePosition file) = Ok g ->
  let C := length (unique_column_angles g) in
  let L := dim_N file in
  resolve_indices (length (unique_row_angles g)) row_indices = Ok rows ->
  resolve_indices C column_indices = Ok columns ->
  length (unique_radii g) = 1 ->
  forall a' b l i j idx,
    nth_error rows a' = Some i -> nth_error columns b = Some j -> l < L ->
    (j = C - 1 /\ shared (single_end_mask g) 0 = true /\
     last_at g idx (end_pole_idx g) j 0) \/
    (j = 0 /\ shared (single_start_mask g) 0 = true /\
     last_at g idx (start_pole_idx g) j 0) ->
    exists x,
      sample file side idx l = Some x /\
      nth_error (data a) (flat_index (length columns) 1 L a' b 0 l)
      = Some (Some (astype x)).
Proof.
  intros H Hside Hwf Hg C L Hrows Hcols HK a' b l i j idx Ha Hb Hl Hpole.
  destruct (hrir_time_inv _ _ _ _ _ _ _ _ _ _ _ _ H Hside Hwf Hg Hrows Hcols)
    as (hrirs & m0 & m1 & m2 & Eh & Em0 & Hshape0 & E1 & E2 & _ & Hdata).
  destruct (reconciler_grid_spec _ _ Hg) as (_ & Hmask & Hcells).
  destruct (reconciler_inv _ _ Hg) as (_ & _ & _ & HC & _). fold C in HC.
  destruct (replicate_pole_cells _ _ _ _ _ _ _ _ _ _ Hshape0 HC E1) as (Hshape1 & _).
  assert (HC1 : C - 1 < C) by lia.
  destruct (replicate_pole_cells _ _ _ _ _ _ _ _ _ _ Hshape1 HC1 E2) as (Hshape2 & _).
  pose proof (resolve_indices_in_range _ _ _ Hrows) as Hrin.
  pose proof (resolve_indices_in_range _ _ _ Hcols) as Hcin.
  destruct (read_hrirs_spec _ _ _ _ Eh Hwf) as (Hlen & _ & Hsample).
  assert (Hi : i < length (unique_row_angles g)).
  { rewrite Forall_forall in Hrin. apply Hrin. eapply nth_error_In; eauto. }
  assert (Hj : j < C).
  { rewrite Forall_forall in Hcin. apply Hcin. eapply nth_error_In; eauto. }
  assert (Hk : 0 < length (unique_radii g)) by lia.
  destruct (masked_entry _ astype _ _ _ _ _ _ _ _ a' b 0 l i j
              Hmask Hshape2 Hrin Hcin Ha Hb Hk Hl)
    as (c & ir & x & Hc & Hir & Hx & Hentry).
  rewrite HK in Hentry.
  destruct (Hcells i j 0 Hi Hj Hk) as [Hpresent _].
  destruct (hrir_matrix_cells _ _ _ _ _ _ _ Hg Hshape0 E1 E2) as [_ Hshared].
  destruct (Hshared HK i Hi) as [Hend Hstart].
  assert (Hsrc : exists i0, last_at g idx i0 j 0 /\ cell m2 i j 0 = cell m0 i0 j 0 /\
                            pole_marked g j 0).
  { destruct Hpole as [(-> & Hsh & Hlast)|(-> & Hsh & Hlast)].
    - exists (end_pole_idx g). split; trivial. split; [now apply Hend|].
      left. auto.
    - exists (start_pole_idx g). split; trivial. split; [now apply Hstart|].
      right. auto. }
  destruct Hsrc as (i0 & Hlast & Hcell & Hmarked).
  rewrite Hpresent in Hc by (now right). injection Hc as <-.
  destruct (scatter_cell_last _ _ _ L np_empty hrirs idx i0 j 0 Hg Hlen Hlast)
    as (ir' & Hir' & Hcell').
  assert (Hcell0 : cell m0 i0 j 0 = Some ir') by (rewrite Em0; exact Hcell').
  rewrite Hcell, Hcell0 in Hir. injection Hir as ->.
  exists x. split.
  - rewrite (Hsample idx ir l Hir'). exact Hx.
  - rewrite Hdata. exact Hentry.
Qed.

Lemma hrir_time_masks_missing_cells_witness :
  exists g a,
    map_sofa_position_order_to_matrix (SourcePosition file_sparse) = Ok g /\
    hrir spherical_float32 file_sparse "left" "time" None None = Ok a /\
    length (data a) = 8 /\
    exists v, nth_error (data a) 6 = Some v /\
              (v = None <-> ~ (occupied g 1 1 0 \/ pole_marked g 1 0)).
Proof.
  eexists. eexists.
  split; [vm_compute; reflexivity|]. split; [vm_compute; reflexivity|].
  assert (Hwf : well_formed file_sparse) by (split; [reflexivity | repeat constructor]).
  destruct (hrir_time_masks_missing_cells sym _ _ spherical_float32 file_sparse
              "left" None None _ [0; 1] [0; 1] _ eq_refl eq_refl Hwf eq_refl
              eq_refl eq_refl) as [Hlen Hcells].
  split; [exact Hlen|].
  apply (Hcells 1 1 0 0 1 1); try reflexivity; simpl; lia.
Defined.

Lemma hrir_time_measured_cells_witness :
  exists a,
    hrir spherical_float32 file_2x2 "left" "time" None None = Ok a /\
    exists x, sample file_2x2 "left" 3 1 = Some x /\
              nth_error (data a) 7 = Some (Some (astype x)).
Proof.
  eexists. split; [vm_compute; reflexivity|].
  assert (Hwf : well_formed file_2x2) by (split; [reflexivity | repeat constructor]).
  refine (hrir_time_measured_cells sym _ _ spherical_float32 file_2x2
            "left" None None _ [0; 1] [0; 1] _ eq_refl eq_refl Hwf eq_refl
            eq_refl eq_refl (or_introl eq_refl) 1 1 1 1 1 0 3 eq_refl eq_refl _ _).
  - simpl. lia.
  - split; [reflexivity|].
    intros [|[|[|[|[|idx']]]]] Hlt; try lia; discriminate.
Defined.

Lemma hrir_time_shared_pole_witness :
  exists a,
    hrir spherical_float32 file_pole "left" "time" None None = Ok a /\
    exists x, sample file_pole "left" 1 0 = Some x /\
              nth_error (data a) 9 = Some (Some (astype x)).
Proof.
  eexists. split; [vm_compute; reflexivity|].
  assert (Hwf : well_formed file_pole) by (split; [reflexivity | repeat constructor]).
  assert (Hg : map_sofa_position_order_to_matrix (SourcePosition file_pole)
               = Ok grid_of_file_pole) by (vm_compute; reflexivity).
  refine (hrir_time_shared_pole sym _ _ spherical_float32 file_pole
            "left" None None grid_of_file_pole [0; 1] [0; 1] _ eq_refl eq_refl Hwf Hg
            eq_refl eq_refl eq_refl 1 1 0 1 1 1 eq_refl eq_refl _ _).
  - simpl. lia.
  - left. split; [reflexivity|]. split; [reflexivity|]. split; [reflexivity|].
    intros [|[|[|[|idx']]]] Hlt; try lia; discriminate.
Defined.

(** ** Signal Materializer: mirrored sides *)

Lemma mirror_spherical_blocks_witness :
  mirror spherical_float32 [-180; 0; 90]%Q
         {| shape := [3; 2; 1]; data := [1; 2; 3; 4; 5; 6] |}
  = Ok {| shape := [3; 2; 1]; data := [1; 2; 5; 6; 3; 4] |}.
Proof.
  apply (mirror_spherical_blocks nat spherical_float32 (-180)%Q [0; 90]%Q 2 [1]
           [1; 2] [[3; 4]; [5; 6]] eq_refl).
  repeat constructor.
Defined.

Lemma mirror_interaural_blocks_witness :
  mirror interaural_float32 [0; 90]%Q
         {| shape := [2; 2; 1]; data := [1; 2; 3; 4] |}
  = Ok {| shape := [2; 2; 1]; data := [2; 1; 4; 3] |}.
Proof.
  apply (mirror_interaural_blocks nat interaural_float32 [0; 90]%Q 2 [1]
           [[[1]; [2]]; [[3]; [4]]] eq_refl).
  repeat constructor.
Defined.

Lemma substring_skip (p s : string) (m k : nat) :
  String.substring (String.length p + m) k (p ++ s) = String.substring m k s.
Proof. induction p as [|c p IH]; simpl; trivial. Qed.

(** The prefix 'mirrored-' does not change the receiver that is read. *)
Lemma endswith_mirrored (side : string) :
  endswith ("mirrored-" ++ side) "left" = endswith side "left".
Proof.
  unfold endswith.
  change (String.length "left") with 4.
  change (String.length ("mirrored-" ++ side)) with (9 + String.length side).
  destruct (Nat.leb_spec 4 (String.length side)) as [Hn|Hn].
  - replace (4 <=? 9 + String.length side) with true by (symmetry; apply Nat.leb_le; lia).
    replace (9 + String.length side - 4) with (String.length "mirrored-" + (String.length side - 4))
      by (simpl; lia).
    now rewrite substring_skip.
  - destruct side as [|c1 [|c2 [|c3 [|c4 side]]]]; try reflexivity.
    simpl in Hn. lia.
Qed.

Lemma hrir_squeezed_mirrored (T : Type) (S : SignalOps T) (Db : DecibelOps T)
    (self : datapoint) (file : sofa_file T) (side domain : string)
    (row_indices column_indices : option (list nat)) :
  hrir_squeezed self file ("mirrored-" ++ side) domain row_indices column_indices
  = hrir_squeezed self file side domain row_indices column_indices.
Proof.
  unfold hrir_squeezed, read_hrirs. now rewrite endswith_mirrored.
Qed.

(** X21: the result for the side 'mirrored-' + [side] is the result for [side]
    with the final flip of lines 239-250 applied to it: both calls read
    the same receiver and build the same array. *)
Theorem hrir_mirrored_side
    (T : Type) (S : SignalOps T) (Db : DecibelOps T)
    (self : datapoint) (file : sofa_file T) (side domain : string)
    (row_indices column_indices : option (list nat))
    (g : grid) (rows : list nat) (a : ndarray (option T)) :
  startswith side "mirrored" = false ->
  hrir self file side domain row_indices column_indices = Ok a ->
  map_sofa_position_order_to_matrix (SourcePosition file) = Ok g ->
  resolve_indices (length (unique_row_angles g)) row_indices = Ok rows ->
  hrir self file ("mirrored-" ++ side) domain row_indices column_indices
  = mirror self (take 0%Q rows (unique_row_angles g)) a.
Proof.
  intros Hside H Hg Hrows. unfold hrir in *.
  rewrite hrir_squeezed_mirrored.
  bind_ok H as r Er. destruct r as [[g' rows'] a']. rewrite Hside in H.
  injection H as ->. cbn [bind].
  change (startswith ("mirrored-" ++ side) "mirrored") with true. cbv iota.
  unfold hrir_squeezed in Er.
  bind_ok Er as hrirs Eh. rewrite Hg in Er. cbn [bind] in Er.
  bind_ok Er as m0 E0. bind_ok Er as m1 E1. bind_ok Er as m2 E2.
  rewrite Hrows in Er. cbn [bind] in Er.
  bind_ok Er as columns Ec. bind_ok Er as value Ev.
  destruct (_ && _); [discriminate Er|].
  destruct value; [|discriminate Er].
  now injection Er as <- <- _.
Qed.

Lemma hrir_mirrored_side_witness :
  exists g a,
    map_sofa_position_order_to_matrix (SourcePosition file_4x1) = Ok g /\
    hrir spherical_float32 file_4x1 "left" "time" None None = Ok a /\
    hrir spherical_float32 file_4x1 "mirrored-left" "time" None None
    = mirror spherical_float32 (take 0%Q [0; 1; 2; 3] (unique_row_angles g)) a.
Proof.
  eexists. eexists.
  split; [vm_compute; reflexivity|]. split; [vm_compute; reflexivity|].
  apply (hrir_mirrored_side sym _ _ spherical_float32 file_4x1 "left" "time" None None).
  - reflexivity.
  - vm_compute. reflexivity.
  - vm_compute. reflexivity.
  - reflexivity.
Defined.

(** ** Anthropometry, continued *)

(** X24: with a valid side, a selection that holds a name outside the six
    known names raises the 'unknown selection' error before the subject is
    looked up, whatever the table and the subject id are. *)
Theorem anthropomorphic_data_unknown_selection
    (cast : Q -> Q) (anth : list subject) (subject_id : Z)
    (side : string) (select : selection) (name : string) :
  mem side ["left"; "right"; "both"]%string = true ->
  In name (selected_names select) ->
  mem name select_all = false ->
  anthropomorphic_data cast anth subject_id (Some side) select
  = Raise (ValueError UnknownSelection).
Proof.
  intros Hside Hin Hunknown. unfold anthropomorphic_data. cbv zeta.
  rewrite Hside. cbn [negb].
  destruct (filter _ _) as [|s l] eqn:E; [|reflexivity].
  exfalso.
  assert (Hf : In name (filter (fun s => negb (mem s select_all)) (selected_names select))).
  { apply filter_In. split; trivial. now rewrite Hunknown. }
  now rewrite E in Hf.
Qed.

Lemma anthropomorphic_data_unknown_selection_witness :
  anthropomorphic_data (fun q => q) [] 3 (Some "left"%string)
    (SelectMany ["age"; "height"]%string)
  = Raise (ValueError UnknownSelection).
Proof.
  apply (anthropomorphic_data_unknown_selection _ _ _ _ _ "height"%string).
  - reflexivity.
  - simpl. auto.
  - reflexivity.
Defined.






(** X26: with a valid side, an empty tuple as selection passes the checks of
    the side and of the names; in a table that does not hold exactly one
    subject, for a subject that the table stores, once or more often, the
    call ends in numpy's error for a concatenation of no arrays, not in
    the 'no data available' error.  (In a table of one subject the call
    ends in the 'no anthropomorphic measurements' error before.) *)
Theorem anthropomorphic_data_empty_selection
    (cast : Q -> Q) (anth : list subject) (subject_id : Z) (side : string)
    (i : nat) (row : subject) :
  mem side ["left"; "right"; "both"]%string = true ->
  length anth <> 1 ->
  nth_error anth i = Some row -> id row = subject_id ->
  anthropomorphic_data cast anth subject_id (Some side) (SelectMany [])
  = Raise (ValueError NothingToConcatenate).
Proof.
  intros Hside Hlen Hrow Hid. unfold anthropomorphic_data. cbv zeta.
  rewrite Hside. cbn [negb selected_names filter is_empty].
  assert (Hin : In i (subject_idx anth subject_id)).
  { unfold subject_idx. destruct anth as [|r [|r' anth]];
      [destruct i; discriminate Hrow | now contradiction Hlen |].
    apply In_nonzero. rewrite nth_error_map, Hrow. cbn [option_map].
    f_equal. now apply Z.eqb_eq. }
  assert (Hidx : forall idx, In idx (subject_idx anth subject_id) ->
                             exists row', nth_error anth idx = Some row').
  { intros idx H. unfold subject_idx in H. destruct anth as [|r [|r' anth]];
      [destruct H | destruct H |].
    apply In_nonzero in H. rewrite nth_error_map in H.
    destruct (nth_error (r :: r' :: anth) idx) as [row'|]; [eauto | discriminate H]. }
  destruct (subject_idx anth subject_id) as [|idx l]; [destruct Hin|].
  destruct (Hidx idx (or_introl eq_refl)) as [row' ->].
  assert (E : select_data row' side [] = []).
  { unfold select_data. cbn [mem existsb]. rewrite !andb_false_r. reflexivity. }
  destruct l; unfold collect; cbn [mem existsb]; rewrite E; reflexivity.
Qed.

Lemma anthropomorphic_data_empty_selection_witness :
  anthropomorphic_data (fun q => q)
    [{| id := 3; X := [Num 1]; D := []; theta := [];
        WeightKilograms := Num 70; age := Num 30; sex := "F" |};
     {| id := 8; X := [Num 2]; D := []; theta := [];
        WeightKilograms := Num 80; age := Num 40; sex := "M" |}]
    3 (Some "both"%string) (SelectMany [])
  = Raise (ValueError NothingToConcatenate).
Proof.
  apply (anthropomorphic_data_empty_selection _ _ _ _ 0
           {| id := 3; X := [Num 1]; D := []; theta := [];
              WeightKilograms := Num 70; age := Num 30; sex := "F" |}).
  - reflexivity.
  - discriminate.
  - reflexivity.
  - reflexivity.
Defined.

(** ** Frequencies *)

(** The integer that [fftfreq] puts at the index [k] of a bin: [k], and
    [-k] at the Nyquist bin of an even number of samples. *)
Lemma fftfreq_integers (n k : nat) :
  0 < n -> k < n / 2 + 1 ->
  nth_error (map Z.of_nat (seq 0 (Z.to_nat ((Z.of_nat n - 1) / 2 + 1)))
             ++ map (fun i => (Z.of_nat i - Z.of_nat (n / 2))%Z) (seq 0 (n / 2))) k
  = Some (if 2 * k =? n then (- Z.of_nat k)%Z else Z.of_nat k).
Proof.
  intros Hn Hk.
  assert (EN : Z.to_nat ((Z.of_nat n - 1) / 2 + 1) = (n - 1) / 2 + 1).
  { replace (Z.of_nat n - 1)%Z with (Z.of_nat (n - 1)) by lia.
    change 2%Z with (Z.of_nat 2). rewrite <- Nat2Z.inj_div. lia. }
  rewrite EN.
  pose proof (Nat.div_mod_eq n 2) as E. pose proof (Nat.mod_upper_bound n 2) as U.
  pose proof (Nat.div_mod_eq (n - 1) 2) as E'.
  pose proof (Nat.mod_upper_bound (n - 1) 2) as U'.
  destruct (Nat.eqb_spec (2 * k) n) as [Heven|Hodd].
  - assert (Hk' : k = n / 2) by lia.
    assert (HN : (n - 1) / 2 + 1 = n / 2) by lia.
    rewrite nth_error_app2 by (rewrite length_map, length_seq; lia).
    rewrite length_map, length_seq, nth_error_map.
    rewrite (nth_error_nth' _ 0) by (rewrite length_seq; lia).
    rewrite seq_nth by lia. cbn [option_map]. f_equal. lia.
  - assert (Hlt : k < (n - 1) / 2 + 1) by lia.
    rewrite nth_error_app1 by (now rewrite length_map, length_seq).
    rewrite nth_error_map.
    rewrite (nth_error_nth' _ 0) by (now rewrite length_seq).
    rewrite seq_nth by trivial. reflexivity.
Qed.

Lemma fftfreq_length (n : nat) :
  length (map Z.of_nat (seq 0 (Z.to_nat ((Z.of_nat n - 1) / 2 + 1)))
          ++ map (fun i => (Z.of_nat i - Z.of_nat (n / 2))%Z) (seq 0 (n / 2)))
  = n.
Proof.
  rewrite length_app, !length_map, !length_seq.
  destruct n as [|n]; [reflexivity|].
  replace (Z.of_nat (S n) - 1)%Z with (Z.of_nat n) by lia.
  change 2%Z with (Z.of_nat 2). rewrite <- Nat2Z.inj_div.
  pose proof (Nat.div_mod_eq (S n) 2) as E. pose proof (Nat.mod_upper_bound (S n) 2) as U.
  pose proof (Nat.div_mod_eq n 2) as E'. pose proof (Nat.mod_upper_bound n 2) as U'.
  lia.
Qed.

(** X1: the frequencies of a file with [n] samples at the rate [sr], in
    whatever floating-point arithmetic.  The call raises ZeroDivisionError
    when the rate is zero or the product n * (1.0 / sr) is zero, as it is
    in float64 for a file without samples whenever 1.0 / sr is finite.
    Otherwise it returns n//2 + 1 values
    (none when n is 0), the one of index k being the absolute value of
    k * (1.0 / (n * (1.0 / sr))) with the operations and the rounding of
    the arithmetic, where the Nyquist bin of an even [n], which [fftfreq]
    lists as the negative frequency -k, comes out positive. *)
Theorem hrtf_frequencies_bins (F : Type) (Fl : FloatOps F)
    (header : sofa_header F) (n : nat) (sr : F) :
  dimension_N header = Some n ->
  Data_SamplingRate header = Some sr ->
  let nd := fmul (of_int (Z.of_nat n)) (fdiv (of_int 1) sr) in
  let val := fdiv (of_int 1) nd in
  (is_zero sr = true \/ is_zero nd = true ->
   hrtf_frequencies header = Raises ZeroDivisionError) /\
  (is_zero sr = false -> is_zero nd = false ->
   exists frequencies,
     hrtf_frequencies header = Returns frequencies /\
     length frequencies = (if n =? 0 then 0 else n / 2 + 1) /\
     forall k, k < length frequencies ->
       nth_error frequencies k
       = Some (fabs (fmul (of_int (if 2 * k =? n then (- Z.of_nat k)%Z else Z.of_nat k))
                          val))).
Proof.
  intros HN Hrate nd val.
  unfold hrtf_frequencies, hrir_length, hrir_samplerate, fftfreq, float_div.
  rewrite HN, Hrate. cbn [and_then]. fold nd.
  split.
  - intros [Hz|Hz].
    + now rewrite Hz.
    + destruct (is_zero sr); [reflexivity|]. cbn [and_then]. fold nd. now rewrite Hz.
  - intros Hsr Hnd. rewrite Hsr. cbn [and_then]. fold nd. rewrite Hnd. cbn [and_then].
    fold val. eexists. split; [reflexivity|].
    assert (Hlen : length (map fabs (firstn (n / 2 + 1)
                     (map (fun k => fmul (of_int k) val)
                        (map Z.of_nat (seq 0 (Z.to_nat ((Z.of_nat n - 1) / 2 + 1)))
                         ++ map (fun i => (Z.of_nat i - Z.of_nat (n / 2))%Z)
                                (seq 0 (n / 2))))))
                   = (if n =? 0 then 0 else n / 2 + 1)).
    { rewrite length_map, length_firstn, length_map, fftfreq_length.
      pose proof (Nat.div_mod_eq n 2) as E. pose proof (Nat.mod_upper_bound n 2) as U.
      destruct (Nat.eqb_spec n 0) as [->|Hn]; [reflexivity | lia]. }
    split; [exact Hlen|].
    intros k Hk. rewrite Hlen in Hk.
    destruct (Nat.eqb_spec n 0) as [->|Hn]; [lia|].
    rewrite nth_error_map, nth_error_firstn.
    destruct (Nat.ltb_spec k (n / 2 + 1)); [|lia].
    rewrite nth_error_map, fftfreq_integers by lia.
    reflexivity.
Qed.

(** Fifteen samples at 44100 Hz in float64: the bin of index 1 is below
    2940 = 44100 / 15, by the rounding of the two divisions. *)
Lemma hrtf_frequencies_bins_witness :
  exists frequencies f,
    @hrtf_frequencies _ float64
      {| Data_SamplingRate := Some (float_of_Z 44100); dimension_N := Some 15 |}
    = Returns frequencies /\
    length frequencies = 8 /\
    nth_error frequencies 1 = Some f /\
    PrimFloat.ltb f (float_of_Z 2940) = true /\
    PrimFloat.ltb (float_of_Z 2939) f = true.
Proof.
  destruct (hrtf_frequencies_bins _ float64
              {| Data_SamplingRate := Some (float_of_Z 44100); dimension_N := Some 15 |}
              15 (float_of_Z 44100) eq_refl eq_refl) as [_ H].
  destruct H as (frequencies & Hrun & Hlen & Hbin); [vm_compute; reflexivity ..|].
  exists frequencies. eexists.
  split; [exact Hrun|]. split; [exact Hlen|].
  split; [apply Hbin; rewrite Hlen; simpl; lia|].
  split; vm_compute; reflexivity.
Defined.

(** ** Angle indices *)

(** What the selector returns: every returned row has a cell that is not
    missing in a returned column, and every returned column one in a
    returned row. *)
Lemma selector_cells
    (row_angles column_angles : option (list Q))
    (all_row_angles all_column_angles : list Q) (position_mask : mask3)
    (K : nat) (row_indices column_indices : list nat) :
  mask_shape (length all_row_angles) (length all_column_angles) K position_mask ->
  hrir_select_angles row_angles column_angles all_row_angles all_column_angles
                     position_mask = Ok (row_indices, column_indices) ->
  (forall i, In i row_indices ->
     i < length all_row_angles /\
     exists j k, In j column_indices /\ cell position_mask i j k = Some false) /\
  (forall j, In j column_indices ->
     j < length all_column_angles /\
     exists i k, In i row_indices /\ cell position_mask i j k = Some false).
Proof.
  intros Hshape H. unfold hrir_select_angles in H.
  bind_ok H as sr Hr. bind_ok H as sc Hc.
  pose proof (select_indices_length _ _ _ Hr) as Hlr.
  pose proof (select_indices_length _ _ _ Hc) as Hlc.
  rewrite (select_mask_ok _ _ _ _ _ _ Hshape Hlr Hlc) in H. cbn [bind] in H.
  injection H as <- <-.
  split.
  - intros i Hi. pose proof Hi as Hi'.
    apply keep_rows_spec in Hi'. destruct Hi' as (Hsr & j & k & Hsc & Hcell).
    split; [apply nth_error_lt in Hsr; lia|].
    exists j, k. split; trivial.
    eapply keep_columns_spec; eauto 6.
  - intros j Hj. pose proof Hj as Hj'.
    eapply keep_columns_spec in Hj'; eauto.
    destruct Hj' as (Hsc & i & k & Hsr & Hcell).
    split; [apply nth_error_lt in Hsc; lia|].
    exists i, k. split; trivial.
    apply keep_rows_spec. eauto 6.
Qed.

Lemma length_take (A : Type) (d : A) (indices : list nat) (a : list A) :
  length (take d indices a) = length indices.
Proof. unfold take. apply length_map. Qed.

Lemma mask_row_slice (R C K : nat) (m : mask3) (i : nat) (columns : list nat) :
  mask_shape R C K m -> i < R -> Forall (fun j => j < C) columns ->
  Forall (fun radii => length radii = K) (take [] columns (nth i m [])).
Proof.
  intros Hshape Hi Hcols.
  destruct (mask_shape_elim _ _ _ _ _ Hshape) as [HR Hm].
  destruct (nth_error m i) as [row|] eqn:Hrow.
  2:{ apply nth_error_None in Hrow. lia. }
  rewrite (nth_error_nth _ _ [] Hrow).
  destruct (Hm _ _ Hrow) as [HC Hrad].
  unfold take. apply Forall_forall. intros radii Hin. apply in_map_iff in Hin.
  destruct Hin as (j & <- & Hj). rewrite Forall_forall in Hcols.
  destruct (nth_error row j) as [radii|] eqn:Hradii.
  2:{ apply nth_error_None in Hradii. apply Hcols in Hj. lia. }
  rewrite (nth_error_nth _ _ [] Hradii). now apply (Hrad j).
Qed.

(** X11: for a grid with more than one radius the mask of a row has more
    elements than there are selected columns, and the call ends in the
    MaskError of the first row: it returns only for a selection that
    keeps no row at all. *)
Theorem hrir_angle_indices_multiple_radii
    (positions : list (Q * Q * Q)) (row_angles column_angles : option (list Q))
    (g : grid) (row_indices column_indices : list nat) :
  map_sofa_position_order_to_matrix positions = Ok g ->
  hrir_select_angles row_angles column_angles (unique_row_angles g)
                     (unique_column_angles g) (position_mask g)
  = Ok (row_indices, column_indices) ->
  2 <= length (unique_radii g) ->
  (row_indices <> [] ->
   hrir_angle_indices positions row_angles column_angles = Raises MaskError) /\
  (row_indices = [] ->
   hrir_angle_indices positions row_angles column_angles
   = Returns ([], [], column_indices)).
Proof.
  intros Hg Hsel HK. unfold hrir_angle_indices.
  rewrite Hg. cbn [lift and_then]. rewrite Hsel. cbn [lift and_then].
  destruct (reconciler_grid_spec _ _ Hg) as (_ & Hmask & _).
  destruct (selector_cells _ _ _ _ _ _ _ _ Hmask Hsel) as [Hrows Hcols].
  split.
  - destruct row_indices as [|i rows]; [congruence|]. intros _.
    cbn [traverse].
    destruct (Hrows i (or_introl eq_refl)) as (Hi & j & k & Hj & _).
    assert (Hcin : Forall (fun j => j < length (unique_column_angles g)) column_indices).
    { apply Forall_forall. intros j' Hj'. now apply Hcols. }
    pose proof (mask_row_slice _ _ _ _ i column_indices Hmask Hi Hcin) as Hslice.
    unfold ma_array.
    rewrite (length_concat_regular _ _ _ Hslice), !length_take.
    assert (Hc : 0 < length column_indices).
    { destruct column_indices; [destruct Hj | simpl; lia]. }
    destruct (Nat.eqb_spec (length column_indices * length (unique_radii g)) 1); [nia|].
    destruct (Nat.eqb_spec (length column_indices * length (unique_radii g))
                           (length column_indices)); [nia|].
    reflexivity.
  - intros ->. reflexivity.
Qed.

Lemma traverse_map (A B : Type) (f : A -> outcome B) (h : A -> B) (l : list A) :
  (forall x, In x l -> f x = Returns (h x)) ->
  traverse f l = Returns (map h l).
Proof.
  induction l as [|x l IH]; intros H; simpl; trivial.
  rewrite (H x (or_introl eq_refl)). cbn [and_then].
  rewrite IH by (intros y Hy; apply H; now right). reflexivity.
Qed.

Lemma map2_map (A B C D : Type) (F : B -> C -> D) (f : A -> B) (g : A -> C) (l : list A) :
  map2 F (map f l) (map g l) = map (fun x => F (f x) (g x)) l.
Proof. induction l as [|x l IH]; simpl; trivial. now rewrite IH. Qed.

Lemma ma_array_one_radius (A : Type) (f : nat -> A) (b : nat -> bool) (columns : list nat) :
  ma_array (map f columns) (map (fun j => [b j]) columns)
  = Returns (map (fun j => if b j then None else Some (f j)) columns).
Proof.
  unfold ma_array.
  assert (E : concat (map (fun j => [b j]) columns) = map b columns).
  { induction columns as [|j l IH]; simpl; trivial. now rewrite IH. }
  rewrite E, !length_map.
  destruct (length columns =? 1) eqn:E1.
  - destruct columns as [|j [|? ?]]; try discriminate E1. reflexivity.
  - rewrite Nat.eqb_refl. now rewrite map2_map.
Qed.

(** X10: for a grid with one radius the call returns the indices of the
    selector and, for every returned row, the selected column angles with
    those of the missing cells masked; every row has a column angle that
    is not masked. *)
Theorem hrir_angle_indices_one_radius
    (positions : list (Q * Q * Q)) (row_angles column_angles : option (list Q))
    (g : grid) (row_indices column_indices : list nat) :
  map_sofa_position_order_to_matrix positions = Ok g ->
  hrir_select_angles row_angles column_angles (unique_row_angles g)
                     (unique_column_angles g) (position_mask g)
  = Ok (row_indices, column_indices) ->
  length (unique_radii g) = 1 ->
  let angles_of_row i :=
    map (fun j => if match cell (position_mask g) i j 0 with
                     | Some b => b
                     | None => false
                     end
                  then None else Some (nth j (unique_column_angles g) 0%Q))
        column_indices in
  hrir_angle_indices positions row_angles column_angles
  = Returns (map (fun i => (nth i (unique_row_angles g) 0%Q, angles_of_row i)) row_indices,
             row_indices, column_indices) /\
  forall i, In i row_indices -> exists angle, In (Some angle) (angles_of_row i).
Proof.
  intros Hg Hsel HK angles_of_row. unfold hrir_angle_indices.
  rewrite Hg. cbn [lift and_then]. rewrite Hsel. cbn [lift and_then].
  destruct (reconciler_grid_spec _ _ Hg) as (_ & Hmask & _).
  rewrite HK in Hmask.
  destruct (selector_cells _ _ _ _ _ _ _ _ Hmask Hsel) as [Hrows Hcols].
  destruct (mask_shape_elim _ _ _ _ _ Hmask) as [HR Hm].
  split.
  - rewrite (traverse_map _ _ _
               (fun i => (nth i (unique_row_angles g) 0%Q, angles_of_row i))); trivial.
    intros i Hi. destruct (Hrows i Hi) as [Hlt _].
    destruct (nth_error (position_mask g) i) as [row|] eqn:Hrow.
    2:{ apply nth_error_None in Hrow. lia. }
    rewrite (nth_error_nth _ _ [] Hrow).
    destruct (Hm _ _ Hrow) as [HC Hrad].
    assert (E : take [] column_indices row
                = map (fun j => [match cell (position_mask g) i j 0 with
                                 | Some b => b
                                 | None => false
                                 end]) column_indices).
    { unfold take. apply map_ext_in. intros j Hj. destruct (Hcols j Hj) as [Hjlt _].
      unfold cell. rewrite Hrow.
      destruct (nth_error row j) as [radii|] eqn:Hradii.
      2:{ apply nth_error_None in Hradii. lia. }
      rewrite (nth_error_nth _ _ [] Hradii).
      pose proof (Hrad _ _ Hradii) as Hone.
      destruct radii as [|b [|? ?]]; try discriminate Hone. reflexivity. }
    rewrite E. unfold take at 1.
    rewrite (ma_array_one_radius _ (fun j => nth j (unique_column_angles g) 0%Q)).
    reflexivity.
  - intros i Hi. destruct (Hrows i Hi) as (_ & j & k & Hj & Hcell).
    assert (k = 0).
    { apply cell_Some in Hcell. destruct Hcell as (row & radii & Hrow & Hradii & Hb).
      destruct (Hm _ _ Hrow) as [_ Hrad]. pose proof (Hrad _ _ Hradii) as Hone.
      apply nth_error_lt in Hb. lia. }
    subst k. exists (nth j (unique_column_angles g) 0%Q).
    unfold angles_of_row. apply in_map_iff. exists j. now rewrite Hcell.
Qed.

Lemma hrir_angle_indices_one_radius_witness :
  hrir_angle_indices (SourcePosition file_sparse) None None
  = Returns ([(0%Q, [Some 0%Q; Some 45%Q]); (90%Q, [Some 0%Q; None])], [0; 1], [0; 1]).
Proof.
  refine (proj1 (hrir_angle_indices_one_radius (SourcePosition file_sparse) None None
                   {| unique_row_angles := [0; 90]%Q;
                      unique_column_angles := [0; 45]%Q;
                      unique_radii := [1]%Q;
                      position_mask := [[[false]; [false]]; [[false]; [true]]];
                      position_map := [(0, 0, 0); (0, 1, 0); (1, 0, 0)];
                      single_start_mask := None;
                      start_pole_idx := 0;
                      single_end_mask := None;
                      end_pole_idx := 0 |} [0; 1] [0; 1] _ eq_refl eq_refl)).
  vm_compute. reflexivity.
Defined.

Lemma hrir_angle_indices_multiple_radii_witness :
  hrir_angle_indices (SourcePosition file_pole_two_radii) None None = Raises MaskError.
Proof.
  refine (proj1 (hrir_angle_indices_multiple_radii
                   (SourcePosition file_pole_two_radii) None None _ [0; 1] [0; 1]
                   _ _ _) _).
  - vm_compute. reflexivity.
  - vm_compute. reflexivity.
  - simpl. lia.
  - discriminate.
Defined.

(** ** Positions *)

Lemma cell_meshgrid (x y z : list Q) (a b k : nat) :
  cell (meshgrid x y z) a b k =
  match nth_error x a, nth_error y b, nth_error z k with
  | Some u, Some v, Some w => Some (u, v, w)
  | _, _, _ => None
  end.
Proof.
  unfold cell, meshgrid. rewrite nth_error_map.
  destruct (nth_error x a) as [u|]; cbn [option_map]; trivial.
  rewrite nth_error_map.
  destruct (nth_error y b) as [v|]; cbn [option_map]; trivial.
  rewrite nth_error_map.
  now destruct (nth_error z k) as [w|].
Qed.

Lemma meshgrid_shape (x y z : list Q) :
  mask_shape (length x) (length y) (length z) (meshgrid x y z).
Proof.
  unfold meshgrid. split; [apply length_map|].
  apply Forall_forall. intros row Hrow. apply in_map_iff in Hrow.
  destruct Hrow as (a & <- & _). split; [apply length_map|].
  apply Forall_forall. intros radii Hr. apply in_map_iff in Hr.
  destruct Hr as (b & <- & _). apply length_map.
Qed.

Lemma same_shape_ok (A B : Type) (R C K : nat) (m : list (list (list A)))
    (m' : list (list (list B))) :
  mask_shape R C K m -> mask_shape R C K m' -> same_shape m m' = true.
Proof.
  intros [HR Hm] [HR' Hm']. unfold same_shape.
  rewrite HR, HR', Nat.eqb_refl. cbn [andb].
  apply forallb_forall. intros [row row'] Hin.
  pose proof (in_combine_l _ _ _ _ Hin) as Hl.
  pose proof (in_combine_r _ _ _ _ Hin) as Hr.
  rewrite Forall_forall in Hm, Hm'.
  destruct (Hm row Hl) as [HC Hrad]. destruct (Hm' row' Hr) as [HC' Hrad'].
  cbn [fst snd]. rewrite HC, HC', Nat.eqb_refl. cbn [andb].
  apply forallb_forall. intros [radii radii'] Hin'.
  pose proof (in_combine_l _ _ _ _ Hin') as Hl'.
  pose proof (in_combine_r _ _ _ _ Hin') as Hr'.
  rewrite Forall_forall in Hrad, Hrad'.
  cbn [fst snd]. rewrite (Hrad radii Hl'), (Hrad' radii' Hr'). apply Nat.eqb_refl.
Qed.

Lemma any3_false (m : mask3) (a b k : nat) (c : bool) :
  any3 m = false -> cell m a b k = Some c -> c = false.
Proof.
  intros Hany Hc. apply cell_Some in Hc. destruct Hc as (row & radii & Hrow & Hradii & Hk).
  destruct c; trivial. exfalso.
  assert (E : any3 m = true); [|congruence].
  unfold any3. apply existsb_exists. exists row. split; [eapply nth_error_In; eauto|].
  apply existsb_exists. exists radii. split; [eapply nth_error_In; eauto|].
  apply existsb_exists. exists true. split; [eapply nth_error_In; eauto | reflexivity].
Qed.

Lemma cell_map2_mask (A : Type) (mask : mask3) (m : list (list (list A))) (a b k : nat) :
  cell (map2 (map2 (map2 (fun (c : bool) p => if c then None else Some p))) mask m) a b k =
  match cell mask a b k, cell m a b k with
  | Some c, Some p => Some (if c then None else Some p)
  | _, _ => None
  end.
Proof.
  unfold cell. rewrite nth_error_map2.
  destruct (nth_error mask a) as [mrow|]; trivial.
  destruct (nth_error m a) as [row|].
  2:{ destruct (nth_error mrow b) as [mr|]; trivial. now destruct (nth_error mr k). }
  rewrite nth_error_map2.
  destruct (nth_error mrow b) as [mr|]; trivial.
  destruct (nth_error row b) as [radii|].
  2:{ now destruct (nth_error mr k). }
  rewrite nth_error_map2. reflexivity.
Qed.

Lemma nth_error_take (d : Q) (indices : list nat) (l : list Q) (a i : nat) :
  nth_error indices a = Some i -> i < length l ->
  nth_error (take d indices l) a = nth_error l i.
Proof.
  intros Ha Hi. unfold take. rewrite nth_error_map, Ha. cbn [option_map].
  symmetry. now apply nth_error_nth'.
Qed.

Lemma occupied_measurement (positions : list (Q * Q * Q)) (g : grid) (i j k : nat) :
  map_sofa_position_order_to_matrix positions = Ok g ->
  occupied g i j k ->
  exists idx p,
    nth_error positions idx = Some p /\ cell_matches g (quantised p) i j k.
Proof.
  intros Hg Hocc.
  destruct (reconciler_grid_spec _ _ Hg) as ((Hlen & Hmap) & _).
  apply In_nth_error in Hocc. destruct Hocc as [idx Hidx].
  destruct (nth_error positions idx) as [p|] eqn:Hp.
  2:{ apply nth_error_None in Hp. apply nth_error_lt in Hidx. lia. }
  destruct (Hmap idx p Hp) as (i0 & j0 & k0 & Hidx0 & Hmatch).
  rewrite Hidx in Hidx0. injection Hidx0 as <- <- <-.
  exists idx, p. split; trivial. now apply Hmatch.
Qed.

(** X12: in the coordinate system of its class, which is the default, the
    grid of a data point holds at (a, b, k) the row angle of the a-th
    selected row, the column angle of the b-th selected column and the
    k-th radius; the element is masked exactly when its cell holds no
    measurement and is not in the column of a shared pole, and the
    triple of a cell with a measurement is the wrapped, rounded position
    of that measurement. *)
Theorem hrir_positions_native
    (util : conversions) (self : datapoint) (positions : list (Q * Q * Q))
    (row_angles column_angles : option (list Q)) (coordinate_system : option string)
    (g : grid) (row_indices column_indices : list nat) :
  map_sofa_position_order_to_matrix positions = Ok g ->
  hrir_select_angles row_angles column_angles (unique_row_angles g)
                     (unique_column_angles g) (position_mask g)
  = Ok (row_indices, column_indices) ->
  coordinate_system = None \/
  coordinate_system = Some (match coordinates self with
                            | Spherical => "spherical"%string
                            | Interaural => "interaural"%string
                            end) ->
  exists v,
    hrir_positions_of_class util self positions row_angles column_angles coordinate_system
    = Returns v /\
    forall a b k i j,
      nth_error row_indices a = Some i -> nth_error column_indices b = Some j ->
      k < length (unique_radii g) ->
      exists x y r,
        nth_error (unique_row_angles g) i = Some x /\
        nth_error (unique_column_angles g) j = Some y /\
        nth_error (unique_radii g) k = Some r /\
        (occupied g i j k \/ pole_marked g j k ->
         grid_entry v a b k = Some (Some (x, y, r))) /\
        (~ (occupied g i j k \/ pole_marked g j k) -> grid_entry v a b k = Some None) /\
        (occupied g i j k ->
         exists idx p, nth_error positions idx = Some p /\ triple_eq (x, y, r) (quantised p)).
Proof.
  intros Hg Hsel Hcs.
  destruct (reconciler_grid_spec _ _ Hg) as (_ & Hmask & Hcells).
  destruct (selector_cells _ _ _ _ _ _ _ _ Hmask Hsel) as [Hrows Hcols].
  set (smask := select row_indices column_indices (position_mask g)).
  set (x := take 0%Q row_indices (unique_row_angles g)).
  set (y := take 0%Q column_indices (unique_column_angles g)).
  assert (Hrin : Forall (fun i => i < length (unique_row_angles g)) row_indices).
  { apply Forall_forall. intros i Hi. now apply Hrows. }
  assert (Hcin : Forall (fun j => j < length (unique_column_angles g)) column_indices).
  { apply Forall_forall. intros j Hj. now apply Hcols. }
  assert (Hsmask : mask_shape (length x) (length y) (length (unique_radii g)) smask).
  { unfold x, y. rewrite !length_take. now apply (select_shape _ _ _ _ _ _ _ Hmask). }
  assert (Hrun : hrir_positions_of_class util self positions row_angles column_angles
                   coordinate_system
                 = if any3 smask
                   then Returns (SparseGrid
                          (map2 (map2 (map2 (fun (b : bool) p => if b then None else Some p)))
                                smask (meshgrid x y (unique_radii g))))
                   else Returns (DenseGrid (meshgrid x y (unique_radii g)))).
  { unfold hrir_positions_of_class, hrir_positions.
    rewrite Hg. cbn [lift and_then]. rewrite Hsel. cbn [lift and_then].
    fold smask x y.
    assert (Hnative :
      match coordinates self with
      | Spherical =>
          if String.eqb (match coordinate_system with
                         | Some system => system
                         | None => match coordinates self with
                                   | Spherical => "spherical"%string
                                   | Interaural => "interaural"%string
                                   end
                         end) "spherical"
          then Returns (x, y, unique_radii g)
          else if String.eqb (match coordinate_system with
                              | Some system => system
                              | None => match coordinates self with
                                        | Spherical => "spherical"%string
                                        | Interaural => "interaural"%string
                                        end
                              end) "interaural"
          then spherical2interaural util x y (unique_radii g)
          else if String.eqb (match coordinate_system with
                              | Some system => system
                              | None => match coordinates self with
                                        | Spherical => "spherical"%string
                                        | Interaural => "interaural"%string
                                        end
                              end) "cartesian"
          then spherical2cartesian util x y (unique_radii g)
          else Raises UnknownCoordinateSystem
      | Interaural =>
          if String.eqb (match coordinate_system with
                         | Some system => system
                         | None => match coordinates self with
                                   | Spherical => "spherical"%string
                                   | Interaural => "interaural"%string
                                   end
                         end) "interaural"
          then Returns (x, y, unique_radii g)
          else if String.eqb (match coordinate_system with
                              | Some system => system
                              | None => match coordinates self with
                                        | Spherical => "spherical"%string
                                        | Interaural => "interaural"%string
                                        end
                              end) "spherical"
          then interaural2spherical_exchanged util y x (unique_radii g)
          else if String.eqb (match coordinate_system with
                              | Some system => system
                              | None => match coordinates self with
                                        | Spherical => "spherical"%string
                                        | Interaural => "interaural"%string
                                        end
                              end) "cartesian"
          then interaural2cartesian_exchanged util x x (unique_radii g)
          else Raises UnknownCoordinateSystem
      end = Returns (x, y, unique_radii g)).
    { destruct Hcs as [->| ->]; destruct (coordinates self); reflexivity. }
    rewrite Hnative. cbn [and_then].
    destruct (any3 smask); trivial.
    now rewrite (same_shape_ok _ _ _ _ _ _ _ Hsmask (meshgrid_shape _ _ _)). }
  exists (if any3 smask
          then SparseGrid
                 (map2 (map2 (map2 (fun (b : bool) p => if b then None else Some p)))
                       smask (meshgrid x y (unique_radii g)))
          else DenseGrid (meshgrid x y (unique_radii g))).
  split; [rewrite Hrun; now destruct (any3 smask)|].
  intros a b k i j Ha Hb Hk.
  rewrite Forall_forall in Hrin, Hcin.
  pose proof (Hrin i (nth_error_In _ _ Ha)) as Hi.
  pose proof (Hcin j (nth_error_In _ _ Hb)) as Hj.
  destruct (nth_error (unique_row_angles g) i) as [u|] eqn:Hu.
  2:{ apply nth_error_None in Hu. lia. }
  destruct (nth_error (unique_column_angles g) j) as [v|] eqn:Hv.
  2:{ apply nth_error_None in Hv. lia. }
  destruct (nth_error (unique_radii g) k) as [w|] eqn:Hw.
  2:{ apply nth_error_None in Hw. lia. }
  exists u, v, w. split; trivial. split; trivial. split; trivial.
  assert (Hmesh : cell (meshgrid x y (unique_radii g)) a b k = Some (u, v, w)).
  { rewrite cell_meshgrid. unfold x, y.
    rewrite (nth_error_take _ _ _ a i Ha Hi), (nth_error_take _ _ _ b j Hb Hj).
    now rewrite Hu, Hv, Hw. }
  assert (Hsel_cell : cell smask a b k = cell (position_mask g) i j k).
  { apply (cell_select _ _ _ _ _ _ _ _ _ _ _ _ Hmask Ha Hb Hi Hj). }
  destruct (Hcells i j k Hi Hj Hk) as [Hpresent Hmissing].
  split; [|split].
  - intros Hp. apply Hpresent in Hp.
    destruct (any3 smask); cbn [grid_entry].
    + now rewrite cell_map2_mask, Hsel_cell, Hp, Hmesh.
    + now rewrite Hmesh.
  - intros Hn. apply Hmissing in Hn.
    destruct (any3 smask) eqn:Hany; cbn [grid_entry].
    + now rewrite cell_map2_mask, Hsel_cell, Hn, Hmesh.
    + rewrite <- Hsel_cell in Hn. now apply (any3_false _ _ _ _ _ Hany) in Hn.
  - intros Hocc. destruct (occupied_measurement _ _ _ _ _ Hg Hocc) as (idx & p & Hp & Hm).
    exists idx, p. split; trivial.
    destruct Hm as (u' & v' & w' & Hu' & Hv' & Hw' & Eu & Ev & Ew).
    rewrite Hu in Hu'. rewrite Hv in Hv'. rewrite Hw in Hw'.
    injection Hu' as <-. injection Hv' as <-. injection Hw' as <-.
    repeat split; assumption.
Qed.

(** X13: a coordinate system other than 'spherical', 'interaural' and
    'cartesian' never yields a grid: the error of the reconciler or of the
    selector comes first, and when both return the call raises the
    'unknown coordinate system' error. *)
Theorem hrir_positions_unknown_system
    (util : conversions) (self : datapoint) (positions : list (Q * Q * Q))
    (coordinate_system : string) (row_angles column_angles : option (list Q)) :
  String.eqb coordinate_system "spherical" = false ->
  String.eqb coordinate_system "interaural" = false ->
  String.eqb coordinate_system "cartesian" = false ->
  (forall v, hrir_positions util self positions coordinate_system row_angles column_angles
             <> Returns v) /\
  (forall g row_indices column_indices,
     map_sofa_position_order_to_matrix positions = Ok g ->
     hrir_select_angles row_angles column_angles (unique_row_angles g)
                        (unique_column_angles g) (position_mask g)
     = Ok (row_indices, column_indices) ->
     hrir_positions util self positions coordinate_system row_angles column_angles
     = Raises UnknownCoordinateSystem).
Proof.
  intros Hs Hi Hc. unfold hrir_positions. split.
  - intros v.
    destruct (map_sofa_position_order_to_matrix positions) as [g|e];
      cbn [lift and_then]; [|discriminate].
    destruct (hrir_select_angles _ _ _ _ _) as [[rows cols]|e];
      cbn [lift and_then]; [|discriminate].
    rewrite Hs, Hi, Hc. destruct (coordinates self); discriminate.
  - intros g rows cols Hg Hsel.
    rewrite Hg. cbn [lift and_then]. rewrite Hsel. cbn [lift and_then].
    rewrite Hs, Hi, Hc. now destruct (coordinates self).
Qed.

Lemma hrir_positions_unknown_system_witness :
  hrir_positions no_conversions spherical_float32 (SourcePosition file_2x2) "polar"
                 None None
  = Raises UnknownCoordinateSystem.
Proof.
  refine (proj2 (hrir_positions_unknown_system no_conversions spherical_float32
                   (SourcePosition file_2x2) "polar" None None eq_refl eq_refl eq_refl)
                _ [0; 1] [0; 1] _ _).
  - vm_compute. reflexivity.
  - vm_compute. reflexivity.
Defined.

Lemma hrir_positions_native_witness :
  exists v,
    hrir_positions_of_class no_conversions spherical_float32 (SourcePosition file_sparse)
                            None None None = Returns v /\
    grid_entry v 0 1 0 = Some (Some (0, 45, 1)%Q) /\
    grid_entry v 1 1 0 = Some None.
Proof.
  assert (Hg : map_sofa_position_order_to_matrix (SourcePosition file_sparse)
               = Ok {| unique_row_angles := [0; 90]%Q;
                       unique_column_angles := [0; 45]%Q;
                       unique_radii := [1]%Q;
                       position_mask := [[[false]; [false]]; [[false]; [true]]];
                       position_map := [(0, 0, 0); (0, 1, 0); (1, 0, 0)];
                       single_start_mask := None;
                       start_pole_idx := 0;
                       single_end_mask := None;
                       end_pole_idx := 0 |}) by (vm_compute; reflexivity).
  destruct (hrir_positions_native no_conversions spherical_float32
              (SourcePosition file_sparse) None None None _ [0; 1] [0; 1]
              Hg eq_refl (or_introl eq_refl)) as (v & Hv & Hentries).
  exists v. split; [exact Hv|]. split.
  - destruct (Hentries 0 1 0 0 1 eq_refl eq_refl (le_n 1))
      as (x & y & r & Hx & Hy & Hr & Hpresent & _).
    injection Hx as <-. injection Hy as <-. injection Hr as <-.
    apply Hpresent. left. unfold occupied. simpl. auto.
  - destruct (Hentries 1 1 0 1 1 eq_refl eq_refl (le_n 1))
      as (x & y & r & _ & _ & _ & _ & Hmissing & _).
    apply Hmissing. unfold occupied, pole_marked. simpl.
    intros [[H|[H|[H|[]]]]|[[_ H]|[H _]]]; discriminate.
Defined.

(** ** Dataset adapters *)

Lemma isclose_near (r b : Q) :
  isclose r b = true -> (0 <= b)%Q -> (b <= 2)%Q ->
  (b - (1 # 10) <= r)%Q /\ (r <= b + (1 # 10))%Q.
Proof.
  unfold isclose, rtol, atol. intros H H0 H2.
  apply Qle_bool_iff in H. rewrite (Qabs_pos b H0) in H.
  apply Qabs_Qle_condition in H. destruct H as [H1 H3].
  split; Lqa.lra.
Qed.

(** X27: the label is the one of the nominal radius the argument is close
    to; the four tolerance intervals do not meet, so that the order of the
    tests does not matter, and the constructor raises exactly for a radius
    close to none of the four. *)
Theorem radius_label_nominal (radius : Q) :
  (forall nominal label, In (nominal, label) nominal_radii ->
     (radius_label radius = Returns label <-> isclose radius nominal = true)) /\
  (radius_label radius = Raises RadiusNotAvailable <->
   forall nominal label, In (nominal, label) nominal_radii ->
                         isclose radius nominal = false).
Proof.
  assert (H02 := isclose_near radius (2 # 10)).
  assert (H05 := isclose_near radius (5 # 10)).
  assert (H1 := isclose_near radius 1).
  assert (H2 := isclose_near radius 2).
  unfold radius_label, nominal_radii.
  destruct (isclose radius (2 # 10)) eqn:E02; [specialize (H02 eq_refl)|clear H02];
    (destruct (isclose radius (5 # 10)) eqn:E05; [specialize (H05 eq_refl)|clear H05]);
    (destruct (isclose radius 1) eqn:E1; [specialize (H1 eq_refl)|clear H1]);
    (destruct (isclose radius 2) eqn:E2; [specialize (H2 eq_refl)|clear H2]);
    try (exfalso;
         repeat match goal with
                | H : (0 <= ?b)%Q -> _ |- _ =>
                    let H' := fresh in
                    assert (H' : (0 <= b)%Q /\ (b <= 2)%Q) by (split; Lqa.lra);
                    destruct (H (proj1 H') (proj2 H')); clear H H'
                end;
         Lqa.lra);
    (split;
     [ intros nominal label [[= <- <-]|[[= <- <-]|[[= <- <-]|[[= <- <-]|[]]]]];
       rewrite ?E02, ?E05, ?E1, ?E2; split; (discriminate || reflexivity)
     | split;
       [ intros H; try discriminate H;
         intros nominal label [[= <- <-]|[[= <- <-]|[[= <- <-]|[[= <- <-]|[]]]]];
         assumption
       | intros H; try reflexivity; exfalso;
         first [ specialize (H _ _ (or_introl eq_refl)); congruence
               | specialize (H _ _ (or_intror (or_introl eq_refl))); congruence
               | specialize (H _ _ (or_intror (or_intror (or_introl eq_refl)))); congruence
               | specialize (H _ _ (or_intror (or_intror (or_intror (or_introl eq_refl)))));
                 congruence ] ] ]).
Qed.

Lemma append_inv_head (p a b : string) : (p ++ a = p ++ b)%string -> a = b.
Proof. induction p as [|c p IH]; simpl; [trivial|]. intros [= H]. auto. Qed.

Lemma append_assoc (a b c : string) : ((a ++ b) ++ c = a ++ (b ++ c))%string.
Proof. induction a as [|x a IH]; simpl; [trivial|]. now rewrite IH. Qed.

Lemma forall_chars_app (P : ascii -> bool) (a b : string) :
  forall_chars P (a ++ b) = forall_chars P a && forall_chars P b.
Proof.
  induction a as [|c a IH]; simpl; trivial. now rewrite IH, andb_assoc.
Qed.

(** A run of characters of one class ends where the first character
    outside the class stands. *)
Lemma run_unique (P : ascii -> bool) (a b s s' : string) (c c' : ascii) (r r' : string) :
  forall_chars P a = true -> forall_chars P b = true ->
  s = String c r -> s' = String c' r' -> P c = false -> P c' = false ->
  (a ++ s = b ++ s')%string -> a = b.
Proof.
  intros Ha Hb -> -> Hc Hc'. revert b Hb.
  induction a as [|x a IH]; intros [|y b] Hb H; simpl in *; trivial.
  - injection H as -> _. apply andb_true_iff in Hb. destruct Hb as [Hy _]. congruence.
  - injection H as -> _. apply andb_true_iff in Ha. destruct Ha as [Hx _]. congruence.
  - injection H as -> H. apply andb_true_iff in Ha, Hb.
    destruct Ha as [_ Ha], Hb as [_ Hb]. f_equal. now apply IH.
Qed.

Lemma digits_of_uint (d : Decimal.uint) :
  forall_chars is_digit (DecimalString.NilEmpty.string_of_uint d) = true.
Proof. induction d; simpl; trivial. Qed.

Lemma decimal_spec (n : N) :
  decimal n = DecimalString.NilEmpty.string_of_uint (N.to_uint n) /\ decimal n <> ""%string.
Proof.
  unfold decimal. destruct n as [|p]; [split; [reflexivity | discriminate]|].
  cbn [N.to_uint]. pose proof (DecimalPos.Unsigned.to_uint_nonnil p) as Hnil.
  destruct (Pos.to_uint p) eqn:E; try congruence; split; try reflexivity; discriminate.
Qed.

Lemma zeros_uint (k : nat) (d : Decimal.uint) :
  (zeros k ++ DecimalString.NilEmpty.string_of_uint d)%string
  = DecimalString.NilEmpty.string_of_uint (Nat.iter k Decimal.D0 d).
Proof. induction k as [|k IH]; simpl; trivial. now rewrite IH. Qed.

Lemma of_uint_zeros (k : nat) (d : Decimal.uint) :
  N.of_uint (Nat.iter k Decimal.D0 d) = N.of_uint d.
Proof. induction k as [|k IH]; simpl; trivial. Qed.

Lemma padded_decimal_inj (k k' : nat) (n n' : N) :
  (zeros k ++ decimal n = zeros k' ++ decimal n')%string -> n = n'.
Proof.
  destruct (decimal_spec n) as [-> _]. destruct (decimal_spec n') as [-> _].
  rewrite !zeros_uint. intros H.
  apply (f_equal DecimalString.NilEmpty.uint_of_string) in H.
  rewrite !DecimalString.NilEmpty.usu in H. injection H as H.
  apply (f_equal N.of_uint) in H.
  now rewrite !of_uint_zeros, !DecimalN.Unsigned.of_to in H.
Qed.

Lemma digits_of_padded (k : nat) (n : N) :
  forall_chars is_digit (zeros k ++ decimal n) = true.
Proof.
  destruct (decimal_spec n) as [-> _]. rewrite zeros_uint. apply digits_of_uint.
Qed.

Lemma forall_chars_weaken (P Q : ascii -> bool) (s : string) :
  (forall c, P c = true -> Q c = true) ->
  forall_chars P s = true -> forall_chars Q s = true.
Proof.
  intros H. induction s as [|c s IH]; simpl; trivial.
  intros E. apply andb_true_iff in E. destruct E as [Hc Hs].
  now rewrite (H c Hc), IH.
Qed.

Lemma format_d_chars (width : nat) (z : Z) :
  forall_chars is_digit_or_sign (format_d width z) = true.
Proof.
  unfold format_d. rewrite forall_chars_app.
  apply andb_true_iff. split.
  - now destruct (z <? 0)%Z.
  - apply (forall_chars_weaken is_digit); [|apply digits_of_padded].
    intros c Hc. unfold is_digit_or_sign. rewrite Hc. apply orb_true_r.
Qed.

(** A formatted integer determines the integer. *)
Lemma format_d_inj (width : nat) (z z' : Z) :
  format_d width z = format_d width z' -> z = z'.
Proof.
  unfold format_d.
  destruct (Z.ltb_spec z 0) as [Hz|Hz], (Z.ltb_spec z' 0) as [Hz'|Hz']; intros H.
  - apply (append_inv_head "-") in H. apply padded_decimal_inj in H. lia.
  - exfalso.
    pose proof (digits_of_padded (width - String.length "" - String.length (decimal (Z.abs_N z')))
                                 (Z.abs_N z')) as Hd.
    cbn [append] in H. rewrite <- H in Hd. discriminate Hd.
  - exfalso.
    pose proof (digits_of_padded (width - String.length "" - String.length (decimal (Z.abs_N z)))
                                 (Z.abs_N z)) as Hd.
    cbn [append] in H. rewrite H in Hd. discriminate Hd.
  - apply (append_inv_head "") in H. apply padded_decimal_inj in H. lia.
Qed.

Lemma format_d_run (width : nat) (z z' : Z) (s s' : string) (c c' : ascii) (r r' : string) :
  s = String c r -> s' = String c' r' ->
  is_digit_or_sign c = false -> is_digit_or_sign c' = false ->
  (format_d width z ++ s = format_d width z' ++ s')%string -> z = z'.
Proof.
  intros Hs Hs' Hc Hc' H. apply (format_d_inj width).
  apply (run_unique is_digit_or_sign _ _ s s' c c' r r'); auto using format_d_chars.
Qed.

(** X28: for every class with a file name pattern, two subject ids that
    differ have different SOFA paths. *)
Theorem sofa_path_injective (d : dataset) (subject_id subject_id' : Z) :
  subject_id <> subject_id' -> sofa_path d subject_id <> sofa_path d subject_id'.
Proof.
  intros Hne H. apply Hne. clear Hne. destruct d; unfold sofa_path in H.
  - apply (append_inv_head "subject_") in H.
    eapply format_d_run in H; (reflexivity || eassumption).
  - apply (append_inv_head "IRC_") in H.
    eapply format_d_run in H; (reflexivity || eassumption).
  - apply (append_inv_head "IRC_") in H.
    eapply format_d_run in H; (reflexivity || eassumption).
  - apply (append_inv_head "MRT") in H.
    eapply format_d_run in H; (reflexivity || eassumption).
  - apply (append_inv_head "pp") in H.
    eapply format_d_run in H; (reflexivity || eassumption).
  - apply (append_inv_head "RIEC_hrir_subject_") in H.
    eapply format_d_run in H; (reflexivity || eassumption).
  - apply (append_inv_head "chedar_") in H.
    eapply format_d_run in H; (reflexivity || eassumption).
  - apply (append_inv_head "UV"), (append_inv_head radius), (append_inv_head "_") in H.
    eapply format_d_run in H; (reflexivity || eassumption).
  - cbv zeta in H. rewrite !append_assoc in H.
    destruct (subject_id <? 3)%Z, (subject_id' <? 3)%Z; try discriminate H.
    + apply (append_inv_head "D") in H.
      eapply format_d_run in H; (reflexivity || eassumption).
    + apply (append_inv_head "H") in H.
      eapply format_d_run in H; (reflexivity || eassumption).
  - apply (append_inv_head "Subject") in H.
    eapply format_d_run in H; (reflexivity || eassumption).
  - apply (append_inv_head "P") in H.
    eapply format_d_run in H; (reflexivity || eassumption).
Qed.

Lemma sofa_path_injective_witness :
  sofa_path Cipic 3 = "subject_003.sofa"%string /\
  sofa_path Cipic 3 <> sofa_path Cipic 12.
Proof.
  split; [reflexivity|]. apply sofa_path_injective. discriminate.
Defined.

Lemma radius_label_nominal_witness :
  radius_label (200001 # 1000000) = Returns "02m"%string <->
  isclose (200001 # 1000000) (2 # 10) = true.
Proof.
  apply (proj1 (radius_label_nominal (200001 # 1000000)) (2 # 10)%Q "02m"%string).
  simpl. auto.
Defined.

(** ** Signal Materializer: contents in the frequency domains *)

Lemma nth_map_in_range (A B : Type) (f : A -> B) (l : list A) (i : nat) (d : A) (d' : B) :
  i < length l -> nth i (map f l) d' = f (nth i l d).
Proof.
  intros Hi. rewrite (nth_indep _ d' (f d)) by (now rewrite length_map).
  apply map_nth.
Qed.

Lemma select_map (A B : Type) (f : list A -> list B) (R C K : nat)
    (rows columns : list nat) (m : list (list (list (list A)))) :
  mask_shape R C K m ->
  Forall (fun i => i < R) rows -> Forall (fun j => j < C) columns ->
  map (map (map f)) (select rows columns m) = select rows columns (map (map (map f)) m).
Proof.
  intros Hshape Hrows Hcols.
  destruct (mask_shape_elim _ _ _ _ _ Hshape) as [HR Hm].
  rewrite Forall_forall in Hrows, Hcols.
  unfold select, take. rewrite !map_map.
  apply map_ext_in. intros i Hi. pose proof (Hrows i Hi) as Hlt.
  rewrite (nth_map_in_range _ _ _ _ _ [] []) by lia.
  rewrite !map_map. apply map_ext_in. intros j Hj.
  destruct (nth_error m i) as [row|] eqn:Hrow.
  2:{ apply nth_error_None in Hrow. lia. }
  rewrite (nth_error_nth _ _ [] Hrow).
  destruct (Hm _ _ Hrow) as [HC _].
  rewrite (nth_map_in_range _ _ _ _ _ [] []) by (pose proof (Hcols j Hj); lia).
  reflexivity.
Qed.

Lemma cell_map3 (A B : Type) (f : A -> B) (m : list (list (list A))) (i j k : nat) :
  cell (map (map (map f)) m) i j k = option_map f (cell m i j k).
Proof.
  unfold cell. rewrite nth_error_map.
  destruct (nth_error m i) as [row|]; cbn [option_map]; trivial.
  rewrite nth_error_map.
  destruct (nth_error row j) as [radii|]; cbn [option_map]; trivial.
  apply nth_error_map.
Qed.

Lemma array_shape_rfft (T : Type) (S : SignalOps T) (R C K L : nat) (m : array4 T) :
  array_shape R C K L m -> array_shape R C K (L / 2 + 1) (map (map (map rfft)) m).
Proof.
  intros Hm. destruct (array_shape_elim _ _ _ _ _ _ Hm) as [HR Hrows].
  apply array_shape_intro; [now rewrite length_map|].
  intros i row' Hrow'. rewrite nth_error_map in Hrow'.
  destruct (nth_error m i) as [row|] eqn:Hrow; [|discriminate Hrow'].
  injection Hrow' as <-. destruct (Hrows _ _ Hrow) as [HC Hrad].
  split; [now rewrite length_map|].
  intros j radii' Hj. rewrite nth_error_map in Hj.
  destruct (nth_error row j) as [radii|] eqn:Hradii; [|discriminate Hj].
  injection Hj as <-. destruct (Hrad _ _ Hradii) as [HK HL].
  split; [now rewrite length_map|].
  intros k ir' Hk. rewrite nth_error_map in Hk.
  destruct (nth_error radii k) as [ir|] eqn:Hir; [|discriminate Hk].
  injection Hk as <-. now rewrite rfft_length, (HL _ _ Hir).
Qed.

Lemma rfft_nil (T : Type) (S : SignalOps T) : 1 <= length (rfft (@nil T)).
Proof. rewrite rfft_length. simpl. lia. Qed.

Lemma map_option_map_id (A : Type) (l : list (option A)) :
  map (option_map (fun x : A => x)) l = l.
Proof. induction l as [|[x|] l IH]; simpl; now rewrite ?IH. Qed.

Lemma map_option_map_compose (A : Type) (f g : A -> A) (l : list (option A)) :
  map (option_map f) (map (option_map g) l) = map (option_map (fun x => f (g x))) l.
Proof. rewrite map_map. apply map_ext. now intros [x|]. Qed.

Lemma hrir_spectrum_inv (T : Type) (S : SignalOps T) (Db : DecibelOps T)
    (self : datapoint) (file : sofa_file T) (side domain : string)
    (row_indices column_indices : option (list nat))
    (g : grid) (rows columns : list nat) (a : ndarray (option T)) (op : T -> T) :
  hrir self file side domain row_indices column_indices = Ok a ->
  startswith side "mirrored" = false ->
  well_formed file ->
  map_sofa_position_order_to_matrix (SourcePosition file) = Ok g ->
  let R := length (unique_row_angles g) in
  let C := length (unique_column_angles g) in
  let K := length (unique_radii g) in
  let L := dim_N file in
  resolve_indices R row_indices = Ok rows ->
  resolve_indices C column_indices = Ok columns ->
  spectrum_op self domain = Some op ->
  exists hrirs m0 m1 m2,
    read_hrirs file side = Ok hrirs /\
    m0 = fold_left (fun m '((i, j, k), ir) => set_cell m i j k ir)
                   (combine (position_map g) hrirs)
                   (np_full3 R C K (repeat np_empty L)) /\
    array_shape R C K L m0 /\
    replicate_pole (single_start_mask g) (start_pole_idx g) 0 L m0 = Ok m1 /\
    replicate_pole (single_end_mask g) (end_pole_idx g) (C - 1) L m1 = Ok m2 /\
    data a = map (option_map (fun x => astype (op x)))
                 (flatten4 (masked_where (select rows columns (position_mask g))
                                         (map (map (map rfft)) (select rows columns m2)))).
Proof.
  intros H Hside Hwf Hg R C K L Hrows Hcols Hop.
  unfold hrir in H. bind_ok H as r Er. destruct r as [[g' rows'] a'].
  rewrite Hside in H. injection H as ->.
  unfold hrir_squeezed in Er.
  bind_ok Er as hrirs Eh. rewrite Hg in Er. cbn [bind] in Er.
  fold R C K L in Er.
  bind_ok Er as m0 E0. bind_ok Er as m1 E1. bind_ok Er as m2 E2.
  rewrite Hrows, Hcols in Er. cbn [bind] in Er.
  destruct (read_hrirs_spec _ _ _ _ Eh Hwf) as (Hlen & HL & _).
  destruct (reconciler_grid_spec _ _ Hg) as ((Hpm & _) & _).
  apply scatter_broadcast_free in E0; [|congruence].
  exists hrirs, m0, m1, m2.
  split; trivial. split; trivial.
  split; [subst m0; apply scatter_shape; trivial; apply array_shape_np_full3|].
  split; trivial. split; trivial.
  unfold spectrum_op in Hop. unfold transform in Er.
  destruct (String.eqb domain "time"); [discriminate Hop|].
  destruct (L =? 0); [discriminate Er|].
  destruct (String.eqb domain "complex").
  - destruct (dtype_complex self); [|discriminate Hop]. injection Hop as <-.
    cbn [bind andb negb] in Er. injection Er as _ _ <-.
    cbn [data squeeze].
    now rewrite <- map_option_map_compose, map_option_map_id.
  - cbn [andb] in Er.
    destruct (startswith domain "magnitude").
    + destruct (endswith domain "_db"); [discriminate Hop|]. injection Hop as <-.
      cbn [bind] in Er. injection Er as _ _ <-. cbn [data squeeze].
      now rewrite flatten4_map4, map_option_map_compose.
    + destruct (String.eqb domain "phase"); [|discriminate Hop]. injection Hop as <-.
      cbn [bind] in Er. injection Er as _ _ <-. cbn [data squeeze].
      now rewrite flatten4_map4, map_option_map_compose.
Qed.

(** X18: in the domains 'complex' (with a complex dtype), 'magnitude' and
    'phase', for a grid without a shared pole or with one radius, the
    element of bin [f] of a selected cell with a measurement is the bin of
    the transform of the response of the last measurement mapped to the
    cell, with the operation of the domain applied and cast to the
    dtype. *)
Theorem hrir_spectrum_measured_cells
    (T : Type) (S : SignalOps T) (Db : DecibelOps T)
    (self : datapoint) (file : sofa_file T) (side domain : string)
    (row_indices column_indices : option (list nat))
    (g : grid) (rows columns : list nat) (a : ndarray (option T)) (op : T -> T) :
  hrir self file side domain row_indices column_indices = Ok a ->
  startswith side "mirrored" = false ->
  well_formed file ->
  map_sofa_position_order_to_matrix (SourcePosition file) = Ok g ->
  let K := length (unique_radii g) in
  let L := dim_N file in
  resolve_indices (length (unique_row_angles g)) row_indices = Ok rows ->
  resolve_indices (length (unique_column_angles g)) column_indices = Ok columns ->
  spectrum_op self domain = Some op ->
  K = 1 \/ (single_start_mask g = None /\ single_end_mask g = None) ->
  forall a' b f i j k idx,
    nth_error rows a' = Some i -> nth_error columns b = Some j -> f < L / 2 + 1 ->
    last_at g idx i j k ->
    exists ir y,
      length ir = L /\
      (forall l, sample file side idx l = nth_error ir l) /\
      nth_error (rfft ir) f = Some y /\
      nth_error (data a) (flat_index (length columns) K (L / 2 + 1) a' b k f)
      = Some (Some (astype (op y))).
Proof.
  intros H Hside Hwf Hg K L Hrows Hcols Hop Hpoles a' b f i j k idx Ha Hb Hf Hlast.
  destruct (hrir_spectrum_inv _ _ _ _ _ _ _ _ _ _ _ _ _ _ H Hside Hwf Hg Hrows Hcols Hop)
    as (hrirs & m0 & m1 & m2 & Eh & Em0 & Hshape0 & E1 & E2 & Hdata).
  destruct (reconciler_grid_spec _ _ Hg) as (_ & Hmask & Hcells).
  destruct (reconciler_inv _ _ Hg) as (_ & _ & _ & HC & _).
  destruct (replicate_pole_cells _ _ _ _ _ _ _ _ _ _ Hshape0 HC E1) as (Hshape1 & _).
  assert (HC1 : length (unique_column_angles g) - 1 < length (unique_column_angles g))
    by lia.
  destruct (replicate_pole_cells _ _ _ _ _ _ _ _ _ _ Hshape1 HC1 E2) as (Hshape2 & _).
  pose proof (resolve_indices_in_range _ _ _ Hrows) as Hrin.
  pose proof (resolve_indices_in_range _ _ _ Hcols) as Hcin.
  destruct (read_hrirs_spec _ _ _ _ Eh Hwf) as (Hlen & HLs & Hsample).
  assert (Hocc : occupied g i j k) by (destruct Hlast as [Hidx _]; eapply nth_error_In; eauto).
  destruct (occupied_in_range _ _ _ _ _ Hg Hocc) as (Hi & Hj & Hk).
  rewrite (select_map _ _ _ _ _ _ _ _ _ (array_shape_mask_shape _ _ _ _ _ _ Hshape2)
             Hrin Hcin) in Hdata.
  destruct (masked_entry _ (fun x => astype (op x)) _ _ _ _ _ _ _ _ a' b k f i j
              Hmask (array_shape_rfft _ _ _ _ _ _ _ Hshape2) Hrin Hcin Ha Hb Hk Hf)
    as (c & irF & y & Hc & HirF & Hy & Hentry).
  destruct (Hcells i j k Hi Hj Hk) as [Hpresent _].
  rewrite Hpresent in Hc by (now left). injection Hc as <-.
  rewrite cell_map3 in HirF.
  destruct (hrir_matrix_cells _ _ _ _ _ _ _ Hg Hshape0 E1 E2) as [Hkeep _].
  rewrite (Hkeep Hpoles i j k Hocc) in HirF.
  destruct (scatter_cell_last _ _ _ L np_empty hrirs idx i j k Hg Hlen Hlast)
    as (ir & Hir & Hcell).
  assert (Hcell0 : cell m0 i j k = Some ir) by (rewrite Em0; exact Hcell).
  rewrite Hcell0 in HirF. cbn [option_map] in HirF. injection HirF as <-.
  exists ir, y. split.
  - rewrite Forall_forall in HLs. apply HLs. eapply nth_error_In; eauto.
  - split; [intros l; now apply Hsample|]. split; trivial.
    rewrite Hdata. exact Hentry.
Qed.

Lemma hrir_spectrum_measured_cells_witness :
  exists a,
    hrir spherical_float32 file_2x2 "left" "magnitude" None None = Ok a /\
    exists ir y,
      length ir = 2 /\
      (forall l, sample file_2x2 "left" 3 l = nth_error ir l) /\
      nth_error (rfft ir) 1 = Some y /\
      nth_error (data a) 7 = Some (Some (astype (np_abs y))).
Proof.
  eexists. split; [vm_compute; reflexivity|].
  assert (Hwf : well_formed file_2x2) by (split; [reflexivity | repeat constructor]).
  refine (hrir_spectrum_measured_cells sym _ _ spherical_float32 file_2x2
            "left" "magnitude" None None _ [0; 1] [0; 1] _ np_abs eq_refl eq_refl Hwf
            eq_refl eq_refl eq_refl eq_refl (or_introl eq_refl)
            1 1 1 1 1 0 3 eq_refl eq_refl _ _).
  - simpl. lia.
  - split; [reflexivity|].
    intros [|[|[|[|[|idx']]]]] Hlt; try lia; discriminate.
Defined.

(** ** Grid Selector: an empty result *)

Lemma no_member_nil (l : list nat) : (forall i, ~ In i l) -> l = [].
Proof. destruct l as [|x l]; trivial. intros H. exfalso. apply (H x). now left. Qed.

(** X4: when both axes have candidates but every cell of a candidate row and a
    candidate column is missing, the selector prunes every index and
    returns two empty arrays: the 'none available' error is raised for an
    axis without candidates only. *)
Theorem hrir_select_angles_all_pruned
    (row_angles column_angles : option (list Q))
    (all_row_angles all_column_angles : list Q) (position_mask : mask3)
    (K : nat) (select_row select_column : list bool) :
  mask_shape (length all_row_angles) (length all_column_angles) K position_mask ->
  select_indices row_angles all_row_angles = Ok select_row ->
  select_indices column_angles all_column_angles = Ok select_column ->
  (forall i j k, nth_error select_row i = Some true ->
                 nth_error select_column j = Some true ->
                 cell position_mask i j k <> Some false) ->
  hrir_select_angles row_angles column_angles all_row_angles all_column_angles
                     position_mask = Ok ([], []).
Proof.
  intros Hshape Hr Hc Hmissing. unfold hrir_select_angles.
  rewrite Hr, Hc. cbn [bind].
  pose proof (select_indices_length _ _ _ Hr) as Hlr.
  pose proof (select_indices_length _ _ _ Hc) as Hlc.
  rewrite (select_mask_ok _ _ _ _ _ _ Hshape Hlr Hlc). cbn [bind].
  f_equal. f_equal.
  - apply no_member_nil. intros i Hi. apply keep_rows_spec in Hi.
    destruct Hi as (Hsr & j & k & Hsc & Hcell). now apply (Hmissing i j k).
  - apply no_member_nil. intros j Hj.
    eapply keep_columns_spec in Hj; eauto.
    destruct Hj as (Hsc & i & k & Hsr & Hcell). now apply (Hmissing i j k).
Qed.

Lemma hrir_select_angles_all_pruned_witness :
  hrir_select_angles (Some [90]%Q) (Some [45]%Q) [0; 90]%Q [0; 45]%Q
                     [[[false]; [false]]; [[false]; [true]]]
  = Ok ([], []).
Proof.
  apply (hrir_select_angles_all_pruned (Some [90]%Q) (Some [45]%Q) [0; 90]%Q [0; 45]%Q
           [[[false]; [false]]; [[false]; [true]]] 1 [false; true] [false; true]).
  - split; [reflexivity|]. repeat constructor.
  - reflexivity.
  - reflexivity.
  - intros [|[|[|i]]] [|[|[|j]]] [|[|k]]; discriminate.
Defined.

(** ** Signal Materializer: the time domain returns *)

Lemma mapM_ok (A B : Type) (f : A -> result B) (l : list A) :
  (forall x, In x l -> exists y, f x = Ok y) -> exists ys, mapM f l = Ok ys.
Proof.
  induction l as [|x l IH]; intros H; simpl; [eauto|].
  destruct (H x (or_introl eq_refl)) as [y ->]. cbn [bind].
  destruct IH as [ys ->]; [intros x' Hx'; apply H; now right|].
  cbn [bind]. eauto.
Qed.

Lemma first_true_lt (m : list bool) (i : nat) : first_true m = Some i -> i < length m.
Proof.
  intros H. apply first_true_spec in H. destruct H as [H _].
  eapply nth_error_lt; eauto.
Qed.

Lemma resolve_pole_idx_one_radius (R C : nat) (angle pole : Q) (j : nat) (m m' : mask3)
    (single : option (list bool)) (idx : nat) :
  mask_shape R C 1 m -> j < C -> 0 < R ->
  resolve_pole 1 angle pole j m = (m', single, idx) -> idx < R.
Proof.
  intros Hshape Hj HR H. unfold resolve_pole in H.
  destruct (isclose angle pole); [|injection H as _ _ <-; exact HR].
  injection H as _ _ <-.
  destruct (column_shape _ R C 1 m j Hshape Hj) as [Hlen Hcol].
  unfold flat_argmax_present, argmax.
  destruct (first_true _) as [i|] eqn:E; [|exact HR].
  apply first_true_lt in E. rewrite length_map in E.
  rewrite (length_concat_regular _ 1 _ Hcol) in E. lia.
Qed.

Lemma replicate_pole_returns_one_radius (T : Type) (R C L : nat)
    (single : option (list bool)) (pole_idx j : nat) (m : array4 T) :
  array_shape R C 1 L m -> pole_idx < R ->
  (single = None \/ exists flag, single = Some [flag]) ->
  exists m', replicate_pole single pole_idx j L m = Ok m'.
Proof.
  intros Hshape Hp Hsingle. unfold replicate_pole.
  destruct (array_shape_elim _ _ _ _ _ _ Hshape) as [HR _].
  destruct (nth_error m pole_idx) as [row|] eqn:Hrow.
  2:{ apply nth_error_None in Hrow. lia. }
  destruct Hsingle as [->|[flag ->]]; cbn [where_pole length Nat.eqb bind]; eauto.
Qed.

(** X14: for a file with one radius whose [Data.IR] holds two receivers per
    measurement and [N] samples per response, a call in the time domain
    for a side that is not mirrored returns an array whenever the row and
    column indices are accepted; the selector only returns indices that
    are. *)
Theorem hrir_time_returns_one_radius
    (T : Type) (S : SignalOps T) (Db : DecibelOps T)
    (self : datapoint) (file : sofa_file T) (side : string)
    (row_indices column_indices : option (list nat)) (g : grid) :
  well_formed file ->
  Forall (fun measurement => length measurement = 2) (Data_IR file) ->
  map_sofa_position_order_to_matrix (SourcePosition file) = Ok g ->
  length (unique_radii g) = 1 ->
  startswith side "mirrored" = false ->
  ((exists rows, resolve_indices (length (unique_row_angles g)) row_indices = Ok rows) /\
   (exists columns,
      resolve_indices (length (unique_column_angles g)) column_indices = Ok columns) ->
   exists a, hrir self file side "time" row_indices column_indices = Ok a) /\
  (forall row_angles column_angles rows columns,
     hrir_select_angles row_angles column_angles (unique_row_angles g)
                        (unique_column_angles g) (position_mask g) = Ok (rows, columns) ->
     resolve_indices (length (unique_row_angles g)) (Some rows) = Ok rows /\
     resolve_indices (length (unique_column_angles g)) (Some columns) = Ok columns).
Proof.
  intros [Hlen HN] Hrec Hg HK Hside. split.
  - intros [[rows Hrows] [columns Hcols]].
    unfold hrir, hrir_squeezed.
    destruct (mapM_ok _ _
                (fun measurement =>
                   match nth_error measurement (if endswith side "left" then 0 else 1) with
                   | Some ir => Ok ir
                   | None => Raise (ValueError ErrorReadingFile)
                   end) (Data_IR file)) as [hrirs Eh].
    { intros meas Hin. rewrite Forall_forall in Hrec. pose proof (Hrec meas Hin) as H2.
      destruct (nth_error meas _) as [ir|] eqn:E; [eauto|].
      apply nth_error_None in E. destruct (endswith side "left"); lia. }
    unfold read_hrirs. rewrite Eh. cbn [bind]. rewrite Hg. cbn [bind].
    destruct (read_hrirs_spec _ _ _ _ Eh (conj Hlen HN)) as (Hlh & HL & _).
    destruct (reconciler_grid_spec _ _ Hg) as ((Hpm & _) & Hmask & _).
    destruct (reconciler_inv _ _ Hg)
      as (_ & _ & _ & HC & mask0 & mask1 & Hshape0 & _ & Hend & Hstart).
    unfold scatter. replace (length hrirs =? length (position_map g)) with true
      by (symmetry; apply Nat.eqb_eq; congruence).
    cbn [bind].
    set (m0 := fold_left _ _ _).
    assert (Hm0 : array_shape (length (unique_row_angles g))
                    (length (unique_column_angles g)) 1 (dim_N file) m0).
    { unfold m0. rewrite HK. apply scatter_shape; trivial. apply array_shape_np_full3. }
    assert (HR : 0 < length (unique_row_angles g)).
    { destruct (position_map g) as [|[[i j] k] pmap] eqn:Epm.
      - destruct (SourcePosition file); [discriminate Hg | discriminate Hpm].
      - assert (Hocc : occupied g i j k) by (unfold occupied; rewrite Epm; now left).
        destruct (occupied_in_range _ _ _ _ _ Hg Hocc) as (Hi & _). lia. }
    rewrite HK in Hshape0, Hend, Hstart.
    assert (HC1 : length (unique_column_angles g) - 1 < length (unique_column_angles g))
      by lia.
    destruct (resolve_pole_spec _ _ _ _ _ _ _ _ _ _ Hshape0 HC1 Hend) as (Hshape1 & _).
    pose proof (resolve_pole_idx_one_radius _ _ _ _ _ _ _ _ _ Hshape0 HC1 HR Hend) as Hei.
    pose proof (resolve_pole_idx_one_radius _ _ _ _ _ _ _ _ _ Hshape1 HC HR Hstart) as Hsi.
    destruct (reconciler_poles_one_radius _ _ Hg HK) as (Hfe & Hfs & _).
    destruct (replicate_pole_returns_one_radius _ _ _ _ _ _ 0 _ Hm0 Hsi Hfs) as [m1 E1].
    rewrite E1. cbn [bind].
    destruct (replicate_pole_cells _ _ _ _ _ _ _ _ _ _ Hm0 HC E1) as (Hm1 & _).
    destruct (replicate_pole_returns_one_radius _ _ _ _ _ _
                (length (unique_column_angles g) - 1) _ Hm1 Hei Hfe) as [m2 E2].
    rewrite E2. cbn [bind]. rewrite Hrows, Hcols. cbn [bind].
    rewrite transform_time. cbn [bind].
    change (String.eqb "time" "complex") with false. cbn [andb].
    rewrite Hside. cbn [bind]. eauto.
  - intros row_angles column_angles rows columns Hsel.
    destruct (reconciler_grid_spec _ _ Hg) as (_ & Hmask & _).
    destruct (selector_cells _ _ _ _ _ _ _ _ Hmask Hsel) as [Hrows Hcols].
    unfold resolve_indices. split.
    + replace (forallb _ rows) with true; trivial. symmetry.
      apply forallb_forall. intros i Hi. apply Nat.ltb_lt. now apply Hrows.
    + replace (forallb _ columns) with true; trivial. symmetry.
      apply forallb_forall. intros j Hj. apply Nat.ltb_lt. now apply Hcols.
Qed.

Lemma hrir_time_returns_one_radius_witness :
  exists a, hrir spherical_float32 file_pole "left" "time" (Some [1]) None = Ok a.
Proof.
  assert (Hwf : well_formed file_pole) by (split; [reflexivity | repeat constructor]).
  assert (Hrec : Forall (fun measurement : list (list sym) => length measurement = 2)
                        (Data_IR file_pole)) by (repeat constructor).
  assert (Hg : map_sofa_position_order_to_matrix (SourcePosition file_pole)
               = Ok grid_of_file_pole) by (vm_compute; reflexivity).
  apply (proj1 (hrir_time_returns_one_radius sym _ _ spherical_float32 file_pole "left"
                  (Some [1]) None grid_of_file_pole Hwf Hrec Hg eq_refl eq_refl)).
  split; eexists; reflexivity.
Defined.
